(** * lit-html [TemplateInstance]: instantiation and the update protocol

    A shallow embedding of [src/lib/template-instance.ts] together with the
    part of the host DOM it drives (tree navigation, [TreeWalker],
    [replaceChild], [textContent], [innerHTML], attribute nodes), followed by
    the properties of the embedding.

    Conventions.
    - JavaScript exceptions are the [Throw] case of [result]; statements are
      sequenced with the bind of that monad.
    - DOM nodes are mutable shared objects: a node is an index into a store
      ([Document]), every DOM operation reads and writes that store.
    - Calls to collaborators that live outside the file (the template
      processor, the [Part] objects, component constructors) thread an
      abstract [World] and are recorded, in order, in a call log. *)

From Stdlib Require Import ZArith String Ascii List Bool Lia.
From stdpp Require Import base option list strings gmap.

Local Open Scope Z_scope.
Local Open Scope string_scope.
Local Open Scope list_scope.

(** ** JavaScript values, exceptions *)

Inductive JsError : Type :=
| TypeError (message : string)
| Error (message : string)
| DOMException (name : string).

Inductive result (A : Type) : Type :=
| Ok (a : A)
| Throw (e : JsError).
Arguments Ok {A} a.
Arguments Throw {A} e.

#[global] Instance result_ret : MRet result := λ A a, Ok a.
#[global] Instance result_bind : MBind result :=
  λ A B f m, match m with Ok a => f a | Throw e => Throw e end.

Inductive JsValue : Type :=
| undefined
| null
| JsBoolean (b : bool)
| JsNumber (z : Z)
| JsString (s : string).

(** [values[i]] on an array: reading past the end yields [undefined]. *)
Definition array_get (values : list JsValue) (i : nat) : JsValue :=
  default undefined (values !! i).

(** ** Strings *)

(** [s.includes(pat)]. *)
Fixpoint includes (s pat : string) : bool :=
  String.prefix pat s
  || match s with
     | EmptyString => false
     | String _ s' => includes s' pat
     end.

Fixpoint drop_chars (n : nat) (s : string) : string :=
  match n, s with
  | S n', String _ s' => drop_chars n' s'
  | _, _ => s
  end.

(** [s.replace(pat, by)] with a string pattern: only the first occurrence is
    replaced. *)
Fixpoint replace (pat by_ s : string) : string :=
  if String.prefix pat s then by_ +:+ drop_chars (String.length pat) s
  else match s with
       | EmptyString => EmptyString
       | String c s' => String c (replace pat by_ s')
       end.

Fixpoint concat_strings (l : list string) : string :=
  match l with
  | [] => ""
  | s :: l' => s +:+ concat_strings l'
  end.

(** ** The host DOM *)

Module Dom.

(** Object identity of a node: its index in the store. *)
Abbreviation Node := nat.

Inductive NodeKind := Element | Text | Comment | DocumentFragment.

(** [Node.nodeType]. *)
Definition nodeType (k : NodeKind) : Z :=
  match k with
  | Element => 1
  | Text => 3
  | Comment => 8
  | DocumentFragment => 11
  end.

Record Attr := { attr_name : string; attr_value : string }.

Record NodeData := {
  kind : NodeKind;
  localName : string;            (* elements *)
  data : string;                 (* text and comment nodes *)
  parentNode : option Node;
  childNodes : list Node;
  attributes : list Attr;        (* elements; the live NamedNodeMap *)
  content : option Node          (* <template> elements *)
}.

(** The store: every node there is, by identity. *)
Abbreviation Document := (list NodeData).

Definition with_parentNode (p : option Node) (nd : NodeData) : NodeData :=
  {| kind := kind nd; localName := localName nd; data := data nd;
     parentNode := p; childNodes := childNodes nd;
     attributes := attributes nd; content := content nd |}.

Definition with_childNodes (cs : list Node) (nd : NodeData) : NodeData :=
  {| kind := kind nd; localName := localName nd; data := data nd;
     parentNode := parentNode nd; childNodes := cs;
     attributes := attributes nd; content := content nd |}.

Definition with_attributes (attrs : list Attr) (nd : NodeData) : NodeData :=
  {| kind := kind nd; localName := localName nd; data := data nd;
     parentNode := parentNode nd; childNodes := childNodes nd;
     attributes := attrs; content := content nd |}.

Definition mkElement (name : string) (attrs : list Attr) : NodeData :=
  {| kind := Element; localName := name; data := ""; parentNode := None;
     childNodes := []; attributes := attrs; content := None |}.

Definition mkText (s : string) : NodeData :=
  {| kind := Text; localName := ""; data := s; parentNode := None;
     childNodes := []; attributes := []; content := None |}.

Section Navigation.
Variable d : Document.

Definition kindOf (n : Node) : option NodeKind := kind <$> d !! n.
Definition parentOf (n : Node) : option Node := d !! n ≫= parentNode.
Definition childrenOf (n : Node) : list Node :=
  default [] (childNodes <$> d !! n).
Definition attributesOf (n : Node) : list Attr :=
  default [] (attributes <$> d !! n).
Definition localNameOf (n : Node) : string :=
  default "" (localName <$> d !! n).

Definition firstChild (n : Node) : option Node := head (childrenOf n).

(** The children of [n]'s parent. *)
Definition siblings (n : Node) : list Node :=
  match parentOf n with
  | Some p => childrenOf p
  | None => []
  end.

Fixpoint after (n : Node) (l : list Node) : option Node :=
  match l with
  | [] => None
  | x :: l' => if Nat.eqb x n then head l' else after n l'
  end.

Fixpoint before (n : Node) (prev : option Node) (l : list Node)
  : option Node :=
  match l with
  | [] => None
  | x :: l' => if Nat.eqb x n then prev else before n (Some x) l'
  end.



Definition nextSibling (n : Node) : option Node := after n (siblings n).
Definition previousSibling (n : Node) : option Node :=
  before n None (siblings n).

Definition ascii_upper (c : ascii) : ascii :=
  let n := nat_of_ascii c in
  if (Nat.leb 97 n && Nat.leb n 122)%bool then ascii_of_nat (n - 32) else c.

Fixpoint upper (s : string) : string :=
  match s with
  | EmptyString => EmptyString
  | String c s' => String (ascii_upper c) (upper s')
  end.

(** [Node.nodeName], for nodes of an HTML document. *)
Definition nodeName (n : Node) : string :=
  match d !! n with
  | Some nd =>
      match kind nd with
      | Element => upper (localName nd)
      | Text => "#text"
      | Comment => "#comment"
      | DocumentFragment => "#document-fragment"
      end
  | None => ""
  end.
End Navigation.

(** *** TreeWalker *)

Record TreeWalker := {
  root : Node;
  whatToShow : Z;
  currentNode : Node
}.

Definition set_currentNode (w : TreeWalker) (n : Node) : TreeWalker :=
  {| root := root w; whatToShow := whatToShow w; currentNode := n |}.

(** Filtering with a null filter: a node is accepted when the bit
    [nodeType - 1] of [whatToShow] is set, and skipped otherwise. *)
Definition accepted (d : Document) (w : TreeWalker) (n : Node) : bool :=
  match kindOf d n with
  | Some k => Z.testbit (whatToShow w) (nodeType k - 1)
  | None => false
  end.

Inductive Direction := Descend | Ascend.

(** The search of [TreeWalker.nextNode]: first children while there are
    any, then the next sibling of the nearest ancestor-or-self that has
    one; the search stops with [None] at the root and when the ancestors
    run out (a current node set outside of the root's subtree).  [fuel]
    bounds the number of moves; twice the size of the store is enough in a
    tree. *)
Fixpoint search (fuel : nat) (d : Document) (w : TreeWalker)
    (dir : Direction) (node : Node) : option Node :=
  match fuel with
  | O => None
  | S fuel' =>
      match dir with
      | Descend =>
          match firstChild d node with
          | Some c =>
              if accepted d w c then Some c else search fuel' d w Descend c
          | None => search fuel' d w Ascend node
          end
      | Ascend =>
          if Nat.eqb node (root w) then None
          else match nextSibling d node with
               | Some s =>
                   if accepted d w s then Some s
                   else search fuel' d w Descend s
               | None =>
                   match parentOf d node with
                   | Some p => search fuel' d w Ascend p
                   | None => None
                   end
               end
      end
  end.

(** [walker.nextNode()]: the node found (or null) and the walker, whose
    current node moves only when a node is found. *)
Definition nextNode (d : Document) (w : TreeWalker)
  : option Node * TreeWalker :=
  match search (2 * length d + 1) d w Descend (currentNode w) with
  | Some n => (Some n, set_currentNode w n)
  | None => (None, w)
  end.

(** [document.createTreeWalker(root, whatToShow, null, false)]. *)
Definition createTreeWalker (r : Node) (show : Z) : TreeWalker :=
  {| root := r; whatToShow := show; currentNode := r |}.

(** *** Mutation *)

Definition setParent (n : Node) (p : option Node) (d : Document) : Document :=
  alter (with_parentNode p) n d.

Definition setChildren (n : Node) (cs : list Node) (d : Document) : Document :=
  alter (with_childNodes cs) n d.

Definition setAttributes (n : Node) (attrs : list Attr) (d : Document)
  : Document :=
  alter (with_attributes attrs) n d.

Definition remove_node (n : Node) (l : list Node) : list Node :=
  List.filter (λ x, negb (Nat.eqb x n)) l.

(** Take [n] out of its parent's child list, if it has a parent. *)
Definition detach (n : Node) (d : Document) : Document :=
  match parentOf d n with
  | Some p =>
      setParent n None (setChildren p (remove_node n (childrenOf d p)) d)
  | None => d
  end.

Definition substitute (old new : Node) (l : list Node) : list Node :=
  List.map (λ x, if Nat.eqb x old then new else x) l.

(** [parent.replaceChild(newChild, oldChild)]. *)
Definition replaceChild (parent newChild oldChild : Node) (d : Document)
  : result Document :=
  if decide (parentOf d oldChild = Some parent) then
    let d1 := detach newChild d in
    let d2 := setChildren parent
                (substitute oldChild newChild (childrenOf d1 parent)) d1 in
    Ok (setParent newChild (Some parent) (setParent oldChild None d2))
  else Throw (DOMException "NotFoundError").

(** [document.createTextNode(s)]: a fresh node at the end of the store. *)
Definition createTextNode (s : string) (d : Document) : Node * Document :=
  (length d, d ++ [mkText s]).

(** *** [textContent] *)

(** Concatenated data of the Text descendants of [n] (inclusive), in tree
    order. *)
Fixpoint descendantText (fuel : nat) (d : Document) (n : Node) : string :=
  match fuel with
  | O => ""
  | S fuel' =>
      match d !! n with
      | Some nd =>
          match kind nd with
          | Text => data nd
          | Comment => ""
          | Element | DocumentFragment =>
              concat_strings (List.map (descendantText fuel' d) (childNodes nd))
          end
      | None => ""
      end
  end.

(** The [textContent] getter. *)
Definition textContent (d : Document) (n : Node) : string :=
  match d !! n with
  | Some nd =>
      match kind nd with
      | Text | Comment => data nd
      | Element | DocumentFragment =>
          concat_strings
            (List.map (descendantText (length d) d) (childNodes nd))
      end
  | None => ""
  end.

(** The [textContent] setter on an element or fragment: all children are
    removed, and a single new Text node is inserted unless the string is
    empty. *)
Definition set_textContent (n : Node) (s : string) (d : Document) : Document :=
  let d1 := foldr (λ c acc, setParent c None acc) d (childrenOf d n) in
  if decide (s = "") then setChildren n [] d1
  else
    let '(t, d2) := createTextNode s d1 in
    setParent t (Some n) (setChildren n [t] d2).

(** *** [innerHTML] (HTML fragment serialisation) *)

(** The double quote character, by its code. *)
Definition double_quote : ascii := ascii_of_nat 34.

Fixpoint escape (attributeMode : bool) (s : string) : string :=
  match s with
  | EmptyString => EmptyString
  | String c s' =>
      let rest := escape attributeMode s' in
      if Ascii.eqb c "&" then "&amp;" +:+ rest
      else if attributeMode && Ascii.eqb c double_quote then "&quot;" +:+ rest
      else if negb attributeMode && Ascii.eqb c "<" then "&lt;" +:+ rest
      else if negb attributeMode && Ascii.eqb c ">" then "&gt;" +:+ rest
      else String c rest
  end.

Definition void_elements : list string :=
  ["area"; "base"; "basefont"; "bgsound"; "br"; "col"; "embed"; "frame";
   "hr"; "img"; "input"; "keygen"; "link"; "meta"; "param"; "source";
   "track"; "wbr"].

Definition raw_text_elements : list string :=
  ["style"; "script"; "xmp"; "iframe"; "noembed"; "noframes"; "plaintext"].

Definition is_in (s : string) (l : list string) : bool :=
  existsb (String.eqb s) l.

Definition serializeAttr (a : Attr) : string :=
  " " +:+ attr_name a +:+ "="
  +:+ String double_quote (escape true (attr_value a))
  +:+ String double_quote "".

(** The nodes serialised inside [nd]: the template contents for a
    <template> element, the children otherwise. *)
Definition serializedChildren (d : Document) (nd : NodeData) : list Node :=
  match kind nd, content nd with
  | Element, Some c =>
      if String.eqb (localName nd) "template" then childrenOf d c
      else childNodes nd
  | _, _ => childNodes nd
  end.

Fixpoint serializeNode (fuel : nat) (d : Document) (rawParent : bool)
    (n : Node) : string :=
  match fuel with
  | O => ""
  | S fuel' =>
      match d !! n with
      | Some nd =>
          match kind nd with
          | Element =>
              let name := localName nd in
              "<" +:+ name
              +:+ concat_strings (List.map serializeAttr (attributes nd))
              +:+ ">"
              +:+ (if is_in name void_elements then ""
                   else
                     concat_strings
                       (List.map
                          (serializeNode fuel' d (is_in name raw_text_elements))
                          (serializedChildren d nd))
                     +:+ "</" +:+ name +:+ ">")
          | Text => if rawParent then data nd else escape false (data nd)
          | Comment => "<!--" +:+ data nd +:+ "-->"
          | DocumentFragment => ""
          end
      | None => ""
      end
  end.

(** The [innerHTML] getter. *)
Definition innerHTML (d : Document) (n : Node) : string :=
  match d !! n with
  | Some nd =>
      concat_strings
        (List.map
           (serializeNode (length d) d (is_in (localName nd) raw_text_elements))
           (serializedChildren d nd))
  | None => ""
  end.

(** *** Attribute nodes *)

Definition has_name (name : string) (a : Attr) : bool :=
  String.eqb (attr_name a) name.

(** [element.removeAttributeNode(attr)]. *)
Definition removeAttributeNode (n : Node) (attr : Attr) (d : Document)
  : result Document :=
  let attrs := attributesOf d n in
  if existsb (has_name (attr_name attr)) attrs then
    Ok (setAttributes n
          (List.filter (λ a, negb (has_name (attr_name attr) a)) attrs) d)
  else Throw (DOMException "NotFoundError").

(** [element.setAttributeNode(attr)] for an attribute node without owner:
    an attribute of the same name is replaced in place, otherwise the node
    is appended. *)
Definition setAttributeNode (n : Node) (attr : Attr) (d : Document)
  : Document :=
  let attrs := attributesOf d n in
  if existsb (has_name (attr_name attr)) attrs then
    setAttributes n
      (List.map (λ a, if has_name (attr_name attr) a then attr else a) attrs) d
  else setAttributes n (attrs ++ [attr]) d.

(** *** Vocabulary of the properties *)

(** What the text content of a node depends on. *)
Definition skeleton (nd : NodeData) : NodeKind * string * list Node :=
  (kind nd, data nd, childNodes nd).

Definition same_skeleton (d d' : Document) : Prop :=
  length d' = length d ∧ ∀ n, skeleton <$> d' !! n = skeleton <$> d !! n.

(** The attributes that the loop of lines 177-181 leaves on the old node:
    every second one. *)
Fixpoint left_behind (attrs : list Attr) : list Attr :=
  match attrs with
  | _ :: b :: rest => b :: left_behind rest
  | _ => []
  end.

End Dom.

(** ** Statements: state and exceptions *)

(** The outcome of running a piece of code from a state: a value, or a thrown
    exception; either way with the state reached (mutations made before a
    throw persist). *)
Inductive completion (S A : Type) : Type :=
| Normal (a : A) (s : S)
| Abrupt (e : JsError) (s : S).
Arguments Normal {S A} a s.
Arguments Abrupt {S A} e s.

Definition M (S A : Type) : Type := S → completion S A.

#[global] Instance M_ret {S} : MRet (M S) := λ A a s, Normal a s.
#[global] Instance M_bind {S} : MBind (M S) :=
  λ A B k m s,
    match m s with
    | Normal a s' => k a s'
    | Abrupt e s' => Abrupt e s'
    end.

Definition throw {S A} (e : JsError) : M S A := λ s, Abrupt e s.
Definition gets {S A} (f : S → A) : M S A := λ s, Normal (f s) s.
Definition modify {S} (f : S → S) : M S unit := λ s, Normal tt (f s).
Definition skip {S} : M S unit := mret tt.

(** The state reached, whatever the outcome. *)
Definition final {S A} (c : completion S A) : S :=
  match c with Normal _ s => s | Abrupt _ s => s end.

(** ** [utils]: the opening-tag pattern

    [/<[a-zA-Z0-9]+-[a-zA-Z0-9-]+/g], the pattern the utilities file declares
    for opening tags of hyphenated elements (there under the name
    [customElementOpeningTagRegex]; [template-instance.ts] imports it as
    [customElementOpeningTagRe]). *)

Definition in_range (lo hi : nat) (c : ascii) : bool :=
  let n := nat_of_ascii c in (Nat.leb lo n && Nat.leb n hi)%bool.

(** [[a-zA-Z0-9]] *)
Definition alnum (c : ascii) : bool :=
  in_range 97 122 c || in_range 65 90 c || in_range 48 57 c.

(** [[a-zA-Z0-9-]] *)
Definition alnum_or_hyphen (c : ascii) : bool := alnum c || Ascii.eqb c "-".

(** The longest prefix of characters in the class: its length and the rest. *)
Fixpoint span (p : ascii → bool) (s : string) : nat * string :=
  match s with
  | String c s' =>
      if p c then let '(n, r) := span p s' in (S n, r) else (O, s)
  | EmptyString => (O, s)
  end.

(** Does the pattern match at the start of [s]?  Both repetitions are greedy;
    a shorter first run is followed by an alphanumeric character and not by
    the hyphen, so backtracking never finds another match. *)
Definition customElementOpeningTagRe_at (s : string) : bool :=
  match s with
  | String c s1 =>
      if Ascii.eqb c "<" then
        match span alnum s1 with
        | (S _, String h s2) =>
            Ascii.eqb h "-"
            && match span alnum_or_hyphen s2 with
               | (S _, _) => true
               | _ => false
               end
        | _ => false
        end
      else false
  | EmptyString => false
  end.

(** [s.match(customElementOpeningTagRe)?.length || 0].  A match holds no
    [<] after its first character, so matches never overlap and their number
    is the number of positions where the pattern matches. *)
Fixpoint customElementOpeningTagRe_count (s : string) : nat :=
  match s with
  | String _ s' =>
      (if customElementOpeningTagRe_at s then 1 else 0)%nat
      + customElementOpeningTagRe_count s'
  | EmptyString => O
  end.

(** ** [utils]: the other patterns, and [String.prototype.match] *)

(** [[a-zA-Z0-9]+-[a-zA-Z0-9-]+] at the start of [s]: the length of the
    match.  Both repetitions are greedy, and neither can give back a
    character: the first run ends before a character that is not
    alphanumeric, which has to be the hyphen, and whatever follows the
    second run is outside its class. *)
Definition hyphenated_name (s : string) : option nat :=
  match span alnum s with
  | (S n, String h s2) =>
      if Ascii.eqb h "-" then
        match span alnum_or_hyphen s2 with
        | (S m, _) => Some (S n + 1 + S m)%nat
        | _ => None
        end
      else None
  | _ => None
  end.

(** [customElementOpeningTagRegex], [/<[a-zA-Z0-9]+-[a-zA-Z0-9-]+/g], at the
    start of [s]: the length of the match. *)
Definition customElementOpeningTagRegex_exec (s : string) : option nat :=
  match s with
  | String c s1 =>
      if Ascii.eqb c "<" then S <$> hyphenated_name s1 else None
  | EmptyString => None
  end.

(** [customElementClosingTagRegex], [/<\/[a-zA-Z0-9]+-[a-zA-Z0-9-]+>/g], at
    the start of [s]: the length of the match. *)
Definition customElementClosingTagRegex_exec (s : string) : option nat :=
  match s with
  | String c (String c' s1) =>
      if Ascii.eqb c "<" && Ascii.eqb c' "/" then
        n ← hyphenated_name s1;
        match drop_chars n s1 with
        | String g _ => if Ascii.eqb g ">" then Some (n + 3)%nat else None
        | EmptyString => None
        end
      else None
  | _ => None
  end.

(** [customElementsOpeningAndClosing],
    [/<(\/?)([a-zA-Z0-9]+-[a-zA-Z0-9-]+)/g], at the start of [s]: the two
    captured groups.  [\/?] takes the slash when there is one; should the
    name not match after it, the slash is given back and the name is tried
    in its place. *)
Definition customElementsOpeningAndClosing_exec (s : string)
  : option (string * string) :=
  match s with
  | String c s1 =>
      if Ascii.eqb c "<" then
        let without_slash :=
          n ← hyphenated_name s1; Some ("", substring 0 n s1) in
        match s1 with
        | String c' s2 =>
            if Ascii.eqb c' "/" then
              match hyphenated_name s2 with
              | Some n => Some ("/", substring 0 n s2)
              | None => without_slash
              end
            else without_slash
        | EmptyString => without_slash
        end
      else None
  | EmptyString => None
  end.

(** [s.match(re)] for a global pattern whose matches are not empty: every
    match, the leftmost first, each search starting where the match before
    ended.  [exec] gives the length of the match at the start of a string
    and [skip] is the number of characters still to pass over. *)
Fixpoint matches (exec : string → option nat) (skip : nat) (s : string)
  : list string :=
  match s with
  | String _ s' =>
      match skip with
      | S k => matches exec k s'
      | O =>
          match exec s with
          | Some n => substring 0 n s :: matches exec (n - 1) s'
          | None => matches exec 0 s'
          end
      end
  | EmptyString => []
  end.

(** [s.match(re)]: null when there is no match. *)
Definition String_match (exec : string → option nat) (s : string)
  : option (list string) :=
  match matches exec 0 s with
  | [] => None
  | l => Some l
  end.

(** [s.match(re)?.length || 0] *)
Definition match_length (exec : string → option nat) (s : string) : nat :=
  default O (length <$> String_match exec s).

(** The first [k] characters of [s] are there and belong to the class. *)
Fixpoint all_in (p : ascii → bool) (k : nat) (s : string) : Prop :=
  match k with
  | O => True
  | S k' =>
      match s with
      | String c s' => p c = true ∧ all_in p k' s'
      | EmptyString => False
      end
  end.

(** ** Templates and contexts *)

Module TemplatePart.
Inductive kind := node | attribute.

(** [TemplatePart]: [{type, index}] for node parts and
    [{type, index, name, strings}] for attribute parts. *)
Record t := {
  type : kind;
  index : Z;
  name : string;
  strings : list string;
  active : bool
}.
End TemplatePart.

(** Modelled from the spec: [isTemplatePartActive] of [template.ts], which is
    not part of the sources at hand.  The spec gives every part descriptor an
    [active] flag, false for a descriptor that is to be skipped. *)
Definition isTemplatePartActive (part : TemplatePart.t) : bool :=
  TemplatePart.active part.

Module Template.
(** [element] is the <template> element the template was parsed into. *)
Record t := {
  element : Dom.Node;
  parts : list TemplatePart.t
}.
End Template.

(** A component constructor, as far as instantiation observes it: [new ctor(
    context)] yields a fresh element, not yet in any tree. *)
Record Ctor := {
  ctor_localName : string;
  ctor_attributes : list Dom.Attr
}.

Record Context := {
  declarations : gmap string Ctor
}.

(** ** Collaborators *)

(** The calls made to code outside this file, as they are recorded in the
    call log. *)
Inductive Call (Part : Type) : Type :=
| handleTextExpression_call (part : TemplatePart.t)
| insertAfterNode_call (p : Part) (ref : option Dom.Node)
| handleAttributeExpressions_call (element : option Dom.Node)
    (name : string) (strings : list string) (part : TemplatePart.t)
| new_call (selector : string) (ctor : Ctor)
| setValue_call (p : Part) (value : JsValue)
| commit_call (p : Part)
| adoptNode_call (n : Dom.Node)
| upgrade_call (n : Dom.Node).
Arguments handleTextExpression_call {Part} part.
Arguments insertAfterNode_call {Part} p ref.
Arguments handleAttributeExpressions_call {Part} element name strings part.
Arguments new_call {Part} selector ctor.
Arguments setValue_call {Part} p value.
Arguments commit_call {Part} p.
Arguments adoptNode_call {Part} n.
Arguments upgrade_call {Part} n.

(** The [Part] interface ([setValue], [commit]) and [insertAfterNode] of the
    node parts that [handleTextExpression] returns.  What a part does is its
    own business: each method is a transformation of the collaborators'
    [World] that may throw. *)
Class PartOps (Part World : Type) := {
  setValue : Part → JsValue → World → result World;
  commit : Part → World → result World;
  insertAfterNode : Part → option Dom.Node → World → result World
}.

(** The [TemplateProcessor] interface. *)
Record TemplateProcessor (Part World RenderOptions : Type) := {
  handleAttributeExpressions :
    option Dom.Node → string → list string → RenderOptions →
    TemplatePart.t → World → result (list Part * World);
  handleTextExpression :
    RenderOptions → TemplatePart.t → World → result (Part * World)
}.
Arguments handleAttributeExpressions {Part World RenderOptions} _.
Arguments handleTextExpression {Part World RenderOptions} _.

(** ** The state *)

(** What a [TemplateInstance] method can read and write: the DOM store, the
    collaborators' world with the log of the calls made to them, and the
    instance's own [__parts] array. *)
Record Heap (Part World : Type) := {
  doc : Dom.Document;
  world : World;
  calls : list (Call Part);
  __parts : list (option Part)
}.
Arguments doc {Part World} _.
Arguments world {Part World} _.
Arguments calls {Part World} _.
Arguments __parts {Part World} _.

(** The heap together with the local variables of [_clone]. *)
Record Frame (Part World : Type) := {
  heap : Heap Part World;
  stack : list Dom.Node;          (* top of the stack first *)
  walker : Dom.TreeWalker;
  partIndex : nat;
  nodeIndex : Z;
  node : option Dom.Node;
  customElementsCount : Z
}.
Arguments heap {Part World} _.
Arguments stack {Part World} _.
Arguments walker {Part World} _.
Arguments partIndex {Part World} _.
Arguments nodeIndex {Part World} _.
Arguments node {Part World} _.
Arguments customElementsCount {Part World} _.

Section StateOperations.
Context {Part World : Type}.
Implicit Types (h : Heap Part World) (f : Frame Part World).

Definition set_doc (d : Dom.Document) h : Heap Part World :=
  {| doc := d; world := world h; calls := calls h; __parts := __parts h |}.
Definition set_world (w : World) h : Heap Part World :=
  {| doc := doc h; world := w; calls := calls h; __parts := __parts h |}.
Definition log (c : Call Part) h : Heap Part World :=
  {| doc := doc h; world := world h; calls := calls h ++ [c];
     __parts := __parts h |}.
Definition push (ps : list (option Part)) h : Heap Part World :=
  {| doc := doc h; world := world h; calls := calls h;
     __parts := __parts h ++ ps |}.

Definition set_heap h f : Frame Part World :=
  {| heap := h; stack := stack f; walker := walker f;
     partIndex := partIndex f; nodeIndex := nodeIndex f; node := node f;
     customElementsCount := customElementsCount f |}.
Definition set_stack (s : list Dom.Node) f : Frame Part World :=
  {| heap := heap f; stack := s; walker := walker f;
     partIndex := partIndex f; nodeIndex := nodeIndex f; node := node f;
     customElementsCount := customElementsCount f |}.
Definition set_walker (w : Dom.TreeWalker) f : Frame Part World :=
  {| heap := heap f; stack := stack f; walker := w;
     partIndex := partIndex f; nodeIndex := nodeIndex f; node := node f;
     customElementsCount := customElementsCount f |}.
Definition set_partIndex (i : nat) f : Frame Part World :=
  {| heap := heap f; stack := stack f; walker := walker f;
     partIndex := i; nodeIndex := nodeIndex f; node := node f;
     customElementsCount := customElementsCount f |}.
Definition set_nodeIndex (i : Z) f : Frame Part World :=
  {| heap := heap f; stack := stack f; walker := walker f;
     partIndex := partIndex f; nodeIndex := i; node := node f;
     customElementsCount := customElementsCount f |}.
Definition set_node (n : option Dom.Node) f : Frame Part World :=
  {| heap := heap f; stack := stack f; walker := walker f;
     partIndex := partIndex f; nodeIndex := nodeIndex f; node := n;
     customElementsCount := customElementsCount f |}.
Definition set_customElementsCount (c : Z) f : Frame Part World :=
  {| heap := heap f; stack := stack f; walker := walker f;
     partIndex := partIndex f; nodeIndex := nodeIndex f; node := node f;
     customElementsCount := c |}.

(** Run a heap statement inside a frame. *)
Definition on_heap {A} (m : M (Heap Part World) A) : M (Frame Part World) A :=
  λ f, match m (heap f) with
       | Normal a h => Normal a (set_heap h f)
       | Abrupt e h => Abrupt e (set_heap h f)
       end.

(** A call to a collaborator: logged, then run on the world. *)
Definition external {A} (c : Call Part) (run : World → result (A * World))
  : M (Heap Part World) A :=
  λ h, let h' := log c h in
       match run (world h') with
       | Ok (a, w) => Normal a (set_world w h')
       | Throw e => Abrupt e h'
       end.

Definition returning_unit (r : result World) : result (unit * World) :=
  match r with Ok w => Ok (tt, w) | Throw e => Throw e end.

(** A DOM operation that may throw. *)
Definition dom_op (op : Dom.Document → result Dom.Document)
  : M (Heap Part World) unit :=
  λ h, match op (doc h) with
       | Ok d => Normal tt (set_doc d h)
       | Throw e => Abrupt e h
       end.

Fixpoint iterate {St} (n : nat) (m : M St unit) : M St unit :=
  match n with
  | O => skip
  | S n' => m ;; iterate n' m
  end.

(** [let i = i0; for (const x of l) { body(i, x); i++ }] *)
Fixpoint for_of {St A} (i : nat) (l : list A) (body : nat → A → M St unit)
  : M St unit :=
  match l with
  | [] => skip
  | x :: l' => body i x ;; for_of (S i) l' body
  end.
End StateOperations.

(** ** [class TemplateInstance] *)

Section TemplateInstance.
Context {Part World RenderOptions : Type} `{!PartOps Part World}.

(** Imported bindings: [mark] (template.ts) and [isCEPolyfill] (dom.ts),
    whose values are set in files that are not part of the sources at hand,
    and the [customElements] registry of the host. *)
Variable mark : string.
Variable customElements : gmap string Ctor.
Variable isCEPolyfill : bool.

(** The read-only fields of the instance. *)
Variable template : Template.t.
Variable processor : TemplateProcessor Part World RenderOptions.
Variable options : RenderOptions.
Variable context : option Context.

Local Abbreviation heap_t := (Heap Part World).
Local Abbreviation frame_t := (Frame Part World).

(** *** [updateWithoutCommit] and [update] *)

Definition call_setValue (p : Part) (v : JsValue) : M heap_t unit :=
  external (setValue_call p v) (λ w, returning_unit (setValue p v w)).

Definition call_commit (p : Part) : M heap_t unit :=
  external (commit_call p) (λ w, returning_unit (commit p w)).

Definition updateWithoutCommit (values : list JsValue)
  : M heap_t (list (option Part)) :=
  parts ← gets __parts;
  for_of 0 parts (λ i part,
    match part with
    | Some p => call_setValue p (array_get values i)
    | None => skip
    end) ;;
  gets __parts.

Definition update (values : list JsValue) : M heap_t unit :=
  parts ← gets __parts;
  for_of 0 parts (λ i part,
    match part with
    | Some p => call_setValue p (array_get values i)
    | None => skip
    end) ;;
  parts' ← gets __parts;
  for_of 0 parts' (λ _ part,
    match part with
    | Some p => call_commit p
    | None => skip
    end).

(** *** [_clone] *)

(** [walker.currentNode = n] *)
Definition assign_currentNode (n : Dom.Node) : M frame_t unit :=
  modify (λ f, set_walker (Dom.set_currentNode (walker f) n) f).

(** [node = walker.nextNode()] *)
Definition assign_nextNode : M frame_t unit :=
  λ f, let '(n, w) := Dom.nextNode (doc (heap f)) (walker f) in
       Normal tt (set_node n (set_walker w f)).

Definition currentNode_message : string :=
  "Failed to set the 'currentNode' property on 'TreeWalker'".

(** Lines 146-157: the walker moves on by one node, into and out of nested
    templates. *)
Definition step_walker : M frame_t unit :=
  n ← gets node;
  match n with
  | None =>
      throw (TypeError "Cannot read properties of null (reading 'nodeName')")
  | Some n =>
      d ← gets (λ f, doc (heap f));
      (if String.eqb (Dom.nodeName d n) "TEMPLATE" then
         modify (λ f, set_stack (n :: stack f) f) ;;
         match d !! n ≫= Dom.content with
         | Some c => assign_currentNode c
         | None => throw (TypeError currentNode_message)
         end
       else skip) ;;
      assign_nextNode ;;
      n' ← gets node;
      match n' with
      | Some _ => skip
      | None =>
          s ← gets stack;
          match s with
          | top :: rest =>
              modify (set_stack rest) ;;
              assign_currentNode top ;;
              assign_nextNode
          | [] => throw (TypeError currentNode_message)
          end
      end
  end.

(** One round of the inner loop, lines 145-157. *)
Definition advance_step : M frame_t unit :=
  modify (λ f, set_nodeIndex (nodeIndex f + 1) f) ;;
  step_walker.

(** [while (part && nodeIndex < part.index) { nodeIndex++; ... }]: every
    round adds one to [nodeIndex] and leaves [part] alone, so the loop makes
    [part.index - nodeIndex] rounds (none if that is not positive), unless
    a round throws. *)
Definition advance (part : TemplatePart.t) : M frame_t unit :=
  i ← gets nodeIndex;
  iterate (Z.to_nat (TemplatePart.index part - i)) advance_step.

(** [node?.nodeType === 1 && node.localName.includes(mark)] *)
Definition isCustomElement (f : frame_t) : bool :=
  match node f with
  | Some n =>
      match doc (heap f) !! n with
      | Some nd =>
          Z.eqb (Dom.nodeType (Dom.kind nd)) 1
          && includes (Dom.localName nd) mark
      | None => false
      end
  | None => false
  end.

(** [localName.replace(`${mark}-`, '')] *)
Definition selector_of (localName : string) : string :=
  replace (mark +:+ "-") "" localName.

Definition undeclared_message (selector : string) : string :=
  "Make sure that you've added " +:+ selector +:+ " into declarations!".

(** Lines 176-181.  [attributes] is the live list of the old node: it is
    read again for every test [i < attributes.length] and every
    [attributes[i]].  The list loses an entry and [i] gains one in each
    round, so the loop makes at most as many rounds as the list is long at
    the start; [fuel] is that length. *)
Fixpoint moveAttributes (fuel i : nat) (oldNode instance : Dom.Node)
    (d : Dom.Document) : result Dom.Document :=
  match fuel with
  | O => Ok d
  | S fuel' =>
      match Dom.attributesOf d oldNode !! i with
      | Some attr =>
          d1 ← Dom.removeAttributeNode oldNode attr d;
          moveAttributes fuel' (S i) oldNode instance
            (Dom.setAttributeNode instance attr d1)
      | None => Ok d
      end
  end.

(** [new ctor(this.context)]: a fresh element at the end of the store. *)
Definition construct (selector : string) (ctor : option Ctor)
  : M heap_t Dom.Node :=
  match ctor with
  | Some c =>
      λ h, let h' := log (new_call selector c) h in
           Normal (length (doc h'))
             (set_doc
                (doc h'
                 ++ [Dom.mkElement (ctor_localName c) (ctor_attributes c)])
                h')
  | None => throw (TypeError "ctor is not a constructor")
  end.

(** Lines 175-181: the state of the old node is carried over to the
    instance. *)
Definition transplant (oldNode instance : Dom.Node) : M heap_t unit :=
  modify (λ h,
    set_doc (Dom.set_textContent instance
               (Dom.innerHTML (doc h) oldNode) (doc h)) h) ;;
  dom_op (λ d,
    moveAttributes (length (Dom.attributesOf d oldNode)) 0
      oldNode instance d).

(** Lines 172-174: the instance is made and takes the place of the old
    node in the tree. *)
Definition materialize (selector : string) (ctor : option Ctor)
    (oldNode : Dom.Node) : M heap_t Dom.Node :=
  instance ← construct selector ctor;
  d ← gets doc;
  match Dom.parentOf d oldNode with
  | Some parent => dom_op (Dom.replaceChild parent instance oldNode)
  | None => skip
  end ;;
  mret instance.

(** Lines 163-184.  [isCustomElement] holds of a node only, so the default
    in [oldNode] is not used. *)
Definition resolveCustomElement : M frame_t unit :=
  custom ← gets isCustomElement;
  match custom, context with
  | true, Some ctx =>
      modify (λ f, set_customElementsCount (customElementsCount f - 1) f) ;;
      oldNode ← gets (λ f, default O (node f));
      localName ← gets (λ f, Dom.localNameOf (doc (heap f)) oldNode);
      let selector := selector_of localName in
      let ctor := declarations ctx !! selector in
      (if bool_decide (ctor = None)
          && bool_decide (customElements !! selector = None)
       then throw (Error (undeclared_message selector))
       else skip) ;;
      instance ← on_heap (materialize selector ctor oldNode);
      on_heap (transplant oldNode instance) ;;
      modify (set_node (Some instance)) ;;
      assign_currentNode instance
  | _, _ => skip
  end.

(** Lines 186-196. *)
Definition bindPart (part : option TemplatePart.t) : M frame_t unit :=
  match part with
  | Some p =>
      match TemplatePart.type p with
      | TemplatePart.node =>
          textPart ← on_heap
            (external (handleTextExpression_call p)
               (handleTextExpression processor options p));
          n ← gets node;
          match n with
          | None =>
              throw (TypeError
                "Cannot read properties of null (reading 'previousSibling')")
          | Some n =>
              ref ← gets (λ f, Dom.previousSibling (doc (heap f)) n);
              on_heap
                (external (insertAfterNode_call textPart ref)
                   (λ w, returning_unit (insertAfterNode textPart ref w))) ;;
              on_heap (modify (push [Some textPart])) ;;
              modify (λ f, set_partIndex (S (partIndex f)) f)
          end
      | TemplatePart.attribute =>
          n ← gets node;
          new_parts ← on_heap
            (external
               (handleAttributeExpressions_call n (TemplatePart.name p)
                  (TemplatePart.strings p) p)
               (handleAttributeExpressions processor n (TemplatePart.name p)
                  (TemplatePart.strings p) options p));
          on_heap (modify (push (Some <$> new_parts))) ;;
          modify (λ f, set_partIndex (S (partIndex f)) f)
      end
  | None => skip
  end.

(** [partIndex < parts.length + customElementsCount] *)
Definition loop_condition (f : frame_t) : bool :=
  (Z.of_nat (partIndex f)
   <? Z.of_nat (length (Template.parts template)) + customElementsCount f)%Z.

(** Lines 144-161: the inner loop, run when there is a part, and the single
    step made when there is none. *)
Definition seek (part : option TemplatePart.t) : M frame_t unit :=
  match part with
  | Some p => advance p
  | None => skip
  end ;;
  match part with
  | Some _ => skip
  | None => assign_nextNode
  end.

(** Is the part at [partIndex] one to skip ([part &&
    !isTemplatePartActive(part)])? *)
Definition skipped (part : option TemplatePart.t) : bool :=
  match part with
  | Some p => negb (isTemplatePartActive p)
  | None => false
  end.

(** The body of the outer loop, lines 134-196. *)
Definition loop_body : M frame_t unit :=
  part ← gets (λ f, Template.parts template !! partIndex f);
  if skipped part then
    on_heap (modify (push [None])) ;;
    modify (λ f, set_partIndex (S (partIndex f)) f)
  else
    seek part ;;
    resolveCustomElement ;;
    bindPart part.

(** The outer loop.  [None] when the loop is still running after [fuel]
    rounds. *)
Fixpoint loop (fuel : nat) (f : frame_t) : option (completion frame_t unit) :=
  if loop_condition f then
    match fuel with
    | O => None
    | S fuel' =>
        match loop_body f with
        | Normal _ f' => loop fuel' f'
        | Abrupt e f' => Some (Abrupt e f')
        end
    end
  else Some (Normal tt f).

(** The locals on entry to the loop, lines 117-130.  [fragment] is the clone
    of [template.element.content] that the host made ([cloneNode] or
    [importNode], line 113). *)
Definition entry (fragment : Dom.Node) (h : heap_t) : frame_t :=
  let '(n, w) :=
    Dom.nextNode (doc h) (Dom.createTreeWalker fragment 133) in
  {| heap := h; stack := []; walker := w; partIndex := O; nodeIndex := 0;
     node := n;
     customElementsCount :=
       Z.of_nat
         (customElementOpeningTagRe_count
            (Dom.innerHTML (doc h) (Template.element template))) |}.

(** Lines 201-205. *)
Definition finish (fragment : Dom.Node) : M heap_t Dom.Node :=
  (if isCEPolyfill then
     modify (log (adoptNode_call fragment)) ;;
     modify (log (upgrade_call fragment))
   else skip) ;;
  mret fragment.

Definition _clone (fuel : nat) (fragment : Dom.Node) (h : heap_t)
  : option (completion heap_t Dom.Node) :=
  match loop fuel (entry fragment h) with
  | Some (Normal _ f) => Some (finish fragment (heap f))
  | Some (Abrupt e f) => Some (Abrupt e (heap f))
  | None => None
  end.

End TemplateInstance.

(** ** Vocabulary of the properties *)

Section UpdateVocabulary.
Context {Part World : Type} `{!PartOps Part World}.
Implicit Types (h : Heap Part World) (parts : list (option Part))
  (values : list JsValue).

(** The stage calls the protocol prescribes: [setValue(values[k])] for each
    non-hole part, [k] its position in the whole list, in list order. *)
Definition staged_calls values parts : list (Call Part) :=
  omap id
    (imap (λ k part, (λ p, setValue_call p (array_get values k)) <$> part)
       parts).

(** The commit calls the protocol prescribes: [commit()] for each non-hole
    part, in list order. *)
Definition commit_calls parts : list (Call Part) :=
  omap (λ part, commit_call <$> part) parts.

(** Committing every part, the second phase of the protocol. *)
Definition commitAll : M (Heap Part World) unit :=
  parts ← gets __parts;
  for_of 0 parts (λ _ part,
    match part with
    | Some p => call_commit p
    | None => skip
    end).

Definition is_setValue_call (c : Call Part) : Prop :=
  ∃ p v, c = setValue_call p v.

Definition is_commit_call (c : Call Part) : Prop :=
  ∃ p, c = commit_call p.

Definition is_normal {S A} (c : completion S A) : Prop :=
  match c with Normal _ _ => True | Abrupt _ _ => False end.

(** The body both loops share: a method of the part is called, unless the
    entry is a hole. *)
Definition each_part (call : nat → Part → Call Part)
    (run : nat → Part → World → result World)
  : nat → option Part → M (Heap Part World) unit :=
  λ i part,
    match part with
    | Some p => external (call i p) (λ w, returning_unit (run i p w))
    | None => skip
    end.

(** The calls such a loop makes from position [i] on. *)
Fixpoint calls_from (call : nat → Part → Call Part) (i : nat) parts
  : list (Call Part) :=
  match parts with
  | [] => []
  | Some p :: rest => call i p :: calls_from call (S i) rest
  | None :: rest => calls_from call (S i) rest
  end.

Definition stage_call values : nat → Part → Call Part :=
  λ i p, setValue_call p (array_get values i).

Definition stage_body values
  : nat → option Part → M (Heap Part World) unit :=
  each_part (stage_call values) (λ i p, setValue p (array_get values i)).

Definition commit_body : nat → option Part → M (Heap Part World) unit :=
  each_part (λ _ p, commit_call p) (λ _ p, commit p).

End UpdateVocabulary.

Section InstantiationVocabulary.
Context {Part World RenderOptions : Type} `{!PartOps Part World}.
Variable mark : string.
Variable customElements : gmap string Ctor.
Variable template : Template.t.
Variable processor : TemplateProcessor Part World RenderOptions.
Variable options : RenderOptions.
Variable context : option Context.
Implicit Types (h : Heap Part World) (f : Frame Part World).

(** A statement of the traversal: the heap, [partIndex] and the slot
    counter are as before, whatever the outcome. *)
Definition local_only {A} (m : M (Frame Part World) A) : Prop :=
  ∀ f, heap (final (m f)) = heap f
       ∧ partIndex (final (m f)) = partIndex f
       ∧ customElementsCount (final (m f)) = customElementsCount f.

(** A statement that leaves [nodeIndex] alone. *)
Definition keeps_nodeIndex {A} (m : M (Frame Part World) A) : Prop :=
  ∀ f, nodeIndex (final (m f)) = nodeIndex f.

(** A statement that does not raise the slot counter. *)
Definition counter_not_raised {A} (m : M (Frame Part World) A) : Prop :=
  ∀ f, (customElementsCount (final (m f)) ≤ customElementsCount f)%Z.

(** A statement that leaves the parts array and [partIndex] alone. *)
Definition keeps_parts {A} (m : M (Frame Part World) A) : Prop :=
  ∀ f, __parts (heap (final (m f))) = __parts (heap f)
       ∧ partIndex (final (m f)) = partIndex f.

(** A heap statement that leaves the parts array alone. *)
Definition keeps_parts_heap {A} (m : M (Heap Part World) A) : Prop :=
  ∀ h, __parts (final (m h)) = __parts h.

(** The entries that binding one descriptor adds to the parts array. *)
Inductive block_of (d : TemplatePart.t) : list (option Part) → Prop :=
| block_hole :
    isTemplatePartActive d = false → block_of d [None]
| block_node p :
    isTemplatePartActive d = true →
    TemplatePart.type d = TemplatePart.node →
    block_of d [Some p]
| block_attribute element w ps w' :
    isTemplatePartActive d = true →
    TemplatePart.type d = TemplatePart.attribute →
    handleAttributeExpressions processor element (TemplatePart.name d)
      (TemplatePart.strings d) options d w = Ok (ps, w') →
    block_of d (Some <$> ps).

(** The parts array holds the blocks of the descriptors before
    [partIndex], in order. *)
Definition aligned f : Prop :=
  (partIndex f ≤ length (Template.parts template))%nat
  ∧ ∃ blocks,
      Forall2 block_of (take (partIndex f) (Template.parts template)) blocks
      ∧ __parts (heap f) = concat blocks.

(** Every attribute-handler call yields exactly one part. *)
Definition one_part_per_attribute : Prop :=
  ∀ element name strings part w ps w',
    handleAttributeExpressions processor element name strings options part w
      = Ok (ps, w') →
    length ps = 1%nat.

(** The slot name of the node the traversal is at. *)
Definition slot_name f : string :=
  selector_of mark (Dom.localNameOf (doc (heap f)) (default O (node f))).

(** The frame after [k] rounds of the loop from [f], when the loop makes
    that many and none of them throws. *)
Fixpoint rounds (k : nat) f : option (Frame Part World) :=
  match k with
  | O => Some f
  | S k' =>
      if loop_condition template f then
        match loop_body mark customElements template processor options
                context f with
        | Normal _ f' => rounds k' f'
        | Abrupt _ _ => None
        end
      else None
  end.

End InstantiationVocabulary.

Section DisciplineVocabulary.
Context {Part World : Type}.
Implicit Types (h : Heap Part World) (c : Call Part).

(** A call to the template processor or to a part it has just made. *)
Definition is_handler_call c : Prop :=
  match c with
  | handleTextExpression_call _ | insertAfterNode_call _ _
  | handleAttributeExpressions_call _ _ _ _ => True
  | _ => False
  end.

(** A call that binds the template: a handler call or the construction of a
    component. *)
Definition is_binding_call c : Prop :=
  match c with
  | new_call _ _ => True
  | _ => is_handler_call c
  end.

(** The call log has grown by calls that satisfy [Q]. *)
Definition calls_grow (Q : Call Part → Prop) h h' : Prop :=
  ∃ made, calls h' = calls h ++ made ∧ Forall Q made.

(** The parts array has only been appended to. *)
Definition parts_grow h h' : Prop :=
  ∃ added, __parts h' = __parts h ++ added.

(** The DOM store is the same and the log has grown by handler calls. *)
Definition tree_kept h h' : Prop :=
  doc h' = doc h ∧ calls_grow is_handler_call h h'.

(** A statement of [_clone] whose effect on the heap is within [R]. *)
Definition steps (R : relation (Heap Part World)) {A}
    (m : M (Frame Part World) A) : Prop :=
  ∀ f, R (heap f) (heap (final (m f))).

Definition heap_steps (R : relation (Heap Part World)) {A}
    (m : M (Heap Part World) A) : Prop :=
  ∀ h, R h (final (m h)).

(** A statement that leaves the slot counter as it is. *)
Definition keeps_counter {A} (m : M (Frame Part World) A) : Prop :=
  ∀ f, customElementsCount (final (m f)) = customElementsCount f.

(** No element of the store has a name that includes [mark]. *)
Definition unmarked (mark : string) (d : Dom.Document) : Prop :=
  ∀ n nd, d !! n = Some nd → Dom.kind nd = Dom.Element →
          includes (Dom.localName nd) mark = false.

(** The calls that end a successful [_clone], lines 201-204. *)
Definition upgrade_calls (isCEPolyfill : bool) (fragment : Dom.Node)
    {S A} (c : completion S A) : list (Call Part) :=
  match c with
  | Normal _ _ =>
      if isCEPolyfill
      then [adoptNode_call fragment; upgrade_call fragment] else []
  | Abrupt _ _ => []
  end.
End DisciplineVocabulary.

Section TraversalVocabulary.
End TraversalVocabulary.

(** The attributes that the loop of lines 177-181 moves to the instance:
    the first, the third, and so on. *)
Fixpoint carried_over (attrs : list Dom.Attr) : list Dom.Attr :=
  match attrs with
  | a :: rest =>
      a :: match rest with
           | _ :: rest' => carried_over rest'
           | [] => []
           end
  | [] => []
  end.

(** Every node of [d] is in [d'] with the kind and the name it had:
    mutation changes the links and the attributes of a node, never what it
    is. *)
Definition labels_kept (d d' : Dom.Document) : Prop :=
  ∀ n nd, d !! n = Some nd →
    ∃ nd', d' !! n = Some nd'
           ∧ Dom.kind nd' = Dom.kind nd
           ∧ Dom.localName nd' = Dom.localName nd.

(** The nodes on the stack are <template> elements. *)
Definition stack_of_templates {Part World : Type} (f : Frame Part World)
  : Prop :=
  Forall (λ n, Dom.nodeName (doc (heap f)) n = "TEMPLATE") (stack f).

(** A statement of [_clone] that keeps the labels of the store and leaves
    the stack as it was. *)
Definition quiet {Part World A : Type} (m : M (Frame Part World) A) : Prop :=
  ∀ f, labels_kept (doc (heap f)) (doc (heap (final (m f))))
       ∧ stack (final (m f)) = stack f.

(** ** Concrete templates

    A small template processor in the manner of the default one (an
    attribute with [n] strings gets [n - 1] parts; parts are numbered as they
    are made), parts whose methods do nothing, and a few documents, each with
    the <template> element, its contents, and the clone made of them. *)

Module Scenario.
Import Dom.
Local Open Scope nat_scope.

Definition frag (children : list Node) : NodeData :=
  {| kind := DocumentFragment; localName := ""; data := "";
     parentNode := None; childNodes := children; attributes := [];
     content := None |}.
Definition elem (name : string) (parent : Node) (attrs : list Attr)
    (children : list Node) : NodeData :=
  {| kind := Element; localName := name; data := "";
     parentNode := Some parent; childNodes := children; attributes := attrs;
     content := None |}.
Definition text (s : string) (parent : Node) : NodeData :=
  {| kind := Text; localName := ""; data := s; parentNode := Some parent;
     childNodes := []; attributes := []; content := None |}.
Definition comment (s : string) (parent : Node) : NodeData :=
  {| kind := Comment; localName := ""; data := s; parentNode := Some parent;
     childNodes := []; attributes := []; content := None |}.
Definition templ (c : Node) : NodeData :=
  {| kind := Element; localName := "template"; data := "";
     parentNode := None; childNodes := []; attributes := [];
     content := Some c |}.

#[export] Instance inert_parts : PartOps nat nat :=
  {| setValue := λ _ _ w, Ok w;
     commit := λ _ w, Ok w;
     insertAfterNode := λ _ _ w, Ok w |}.

Definition processor : TemplateProcessor nat nat unit :=
  {| handleTextExpression := λ _ _ w, Ok (w, S w);
     handleAttributeExpressions := λ _ _ strings _ _ w,
       let k := length strings - 1 in Ok (seq w k, w + k) |}.

(** A processor that binds every attribute to a single part, as a property
    binding is. *)
Definition single_part_processor : TemplateProcessor nat nat unit :=
  {| handleTextExpression := λ _ _ w, Ok (w, S w);
     handleAttributeExpressions := λ _ _ _ _ _ w, Ok ([w], S w) |}.

Definition fresh (d : Document) : Heap nat nat :=
  {| doc := d; world := O; calls := []; __parts := [] |}.

Definition mark : string := "ce".

Definition Widget : Ctor :=
  {| ctor_localName := "the-widget"; ctor_attributes := [] |}.
Definition declares_widget : Context :=
  {| declarations := {[ "widget" := Widget ]} |}.
Definition declares_nothing : Context := {| declarations := ∅ |}.

Definition attr_part (i : Z) (name : string) (strings : list string)
  : TemplatePart.t :=
  {| TemplatePart.type := TemplatePart.attribute; TemplatePart.index := i;
     TemplatePart.name := name; TemplatePart.strings := strings;
     TemplatePart.active := true |}.
Definition node_part (i : Z) : TemplatePart.t :=
  {| TemplatePart.type := TemplatePart.node; TemplatePart.index := i;
     TemplatePart.name := ""; TemplatePart.strings := [];
     TemplatePart.active := true |}.
Definition inactive_part : TemplatePart.t :=
  {| TemplatePart.type := TemplatePart.node; TemplatePart.index := (-1)%Z;
     TemplatePart.name := ""; TemplatePart.strings := [];
     TemplatePart.active := false |}.

Definition template_of (parts : list TemplatePart.t) : Template.t :=
  {| Template.element := 0; Template.parts := parts |}.

(** [<ce-widget></ce-widget>]: nodes 0-2 are the template, 3-4 the clone. *)
Definition lone_widget : Document :=
  [ templ 1; frag [2]; elem "ce-widget" 1 [] [];
    frag [4]; elem "ce-widget" 3 [] [] ].

(** [<div></div>], the attribute [class="${..} ${..}"] taken out by the
    parser: nodes 0-2 are the template, 3-4 the clone. *)
Definition two_holes : Document :=
  [ templ 1; frag [2]; elem "div" 1 [] [];
    frag [4]; elem "div" 3 [] [] ].

(** [<div><!----><!----></div>]: nodes 0-4 are the template, 5-8 the
    clone. *)
Definition three_parts : Document :=
  [ templ 1; frag [2]; elem "div" 1 [] [3; 4]; comment "" 2; comment "" 2;
    frag [6]; elem "div" 5 [] [7; 8]; comment "" 6; comment "" 6 ].

(** [ <ce-widget a="1" b="2"><b>hi</b></ce-widget>], a text node before the
    widget: nodes 0-5 are the template, 6-10 the clone. *)
Definition widget_attrs : list Attr :=
  [ {| attr_name := "a"; attr_value := "1" |};
    {| attr_name := "b"; attr_value := "2" |} ].
Definition dressed_widget : Document :=
  [ templ 1; frag [2; 3]; text " " 1; elem "ce-widget" 1 widget_attrs [4];
    elem "b" 3 [] [5]; text "hi" 4;
    frag [7; 8]; text " " 6; elem "ce-widget" 6 widget_attrs [9];
    elem "b" 8 [] [10]; text "hi" 9 ].

(** [<p>hello</p>]: nodes 0-3 are the template, 4-6 the clone. *)
Definition static_markup : Document :=
  [ templ 1; frag [2]; elem "p" 1 [] [3]; text "hello" 2;
    frag [5]; elem "p" 4 [] [6]; text "hello" 5 ].

(** A constructor whose elements are named as the slot itself, and a
    context that declares it; the widget with three attribute holes. *)
Definition SelfNamed : Ctor :=
  {| ctor_localName := "ce-widget"; ctor_attributes := [] |}.
Definition declares_self_named : Context :=
  {| declarations := {[ "widget" := SelfNamed ]} |}.
Definition three_attribute_holes : Template.t :=
  template_of
    [attr_part 0 "a" [""; ""]; attr_part 0 "b" [""; ""];
     attr_part 0 "c" [""; ""]].

(** [<div><!----></div><template><span><!----></span><!----></template>
    <p><!----><!----></p>], the clone only (nodes 0-10; nodes 4-7 are the
    contents of the nested template), and a <template> element without
    contents of its own (nodes 11-12).  In traversal order: div 0, comment 1,
    template 2, span 3, comment 4, comment 5, p 6, comment 7, comment 8. *)
Definition nested_template (parent c : Node) : NodeData :=
  {| kind := Element; localName := "template"; data := "";
     parentNode := Some parent; childNodes := []; attributes := [];
     content := Some c |}.
Definition nested : Document :=
  [ frag [1; 3; 8]; elem "div" 0 [] [2]; comment "" 1;
    nested_template 0 4; frag [5; 7]; elem "span" 4 [] [6]; comment "" 5;
    comment "" 4;
    elem "p" 0 [] [9; 10]; comment "" 8; comment "" 8;
    templ 12; frag [] ].
Definition four_node_parts : Template.t :=
  {| Template.element := 11;
     Template.parts := [node_part 1; node_part 4; node_part 5; node_part 8] |}.

(** A registry of the host that knows [widget]. *)
Definition registry_with_widget : gmap string Ctor := {[ "widget" := Widget ]}.

(** The templates made of them. *)
Definition no_parts : Template.t := template_of [].
Definition class_with_two_holes : Template.t :=
  template_of [attr_part 0 "class" [""; " "; ""]].
Definition attribute_hole_node : Template.t :=
  template_of [attr_part 0 "id" [""; ""]; inactive_part; node_part 2].

(** Frames met while instantiating them: the exit of the loop for
    [attribute_hole_node] bound by [single_part_processor]; the third round
    of the same template bound by [processor]; the arrival at the widget
    of [dressed_widget], and the frame once it is resolved. *)
Definition three_parts_bound : Frame nat nat :=
  match loop mark ∅ attribute_hole_node single_part_processor () None 3
          (entry attribute_hole_node 5 (fresh three_parts)) with
  | Some c => final c
  | None => entry attribute_hole_node 5 (fresh three_parts)
  end.



Definition at_widget : Frame nat nat :=
  final (seek None (entry no_parts 6 (fresh dressed_widget))).

Definition widget_resolved : Frame nat nat :=
  final (resolveCustomElement mark ∅ (Some declares_widget) at_widget).

(** A parts array with a hole in the middle. *)
Definition holed : Heap nat nat :=
  {| doc := []; world := 0; calls := []; __parts := [Some 7; None; Some 9] |}.

(** Parts of which number 9 cannot take a value, and parts of which
    number 9 cannot be committed. *)
Definition frozen_parts : PartOps nat nat :=
  {| setValue := λ p _ w, if Nat.eqb p 9 then Throw (Error "frozen") else Ok w;
     commit := λ _ w, Ok w;
     insertAfterNode := λ _ _ w, Ok w |}.

(** A parts array of holes. *)
Definition only_holes : Heap nat nat :=
  {| doc := []; world := 0; calls := []; __parts := [None; None] |}.

(** Templates for [three_parts] and [static_markup]: descriptors that are
    all inactive, and a descriptor that lies past the last node. *)
Definition two_inactive : Template.t :=
  template_of [inactive_part; inactive_part].
Definition past_the_end : Template.t := template_of [node_part 5].

(** The traversal of [three_parts] at its last node. *)
Definition at_last_node : Frame nat nat :=
  final (seek (Some (node_part 2)) (entry past_the_end 5 (fresh three_parts))).

(** What [_clone] yields for [attribute_hole_node], with the polyfill in
    use, and for [dressed_widget] with the widget declared. *)
Definition three_parts_cloned : completion (Heap nat nat) Node :=
  default (Abrupt (Error "") (fresh three_parts))
    (_clone mark ∅ true attribute_hole_node processor () None 3 5
       (fresh three_parts)).
Definition dressed_widget_cloned : completion (Heap nat nat) Node :=
  default (Abrupt (Error "") (fresh dressed_widget))
    (_clone mark ∅ false no_parts processor () (Some declares_widget) 1 6
       (fresh dressed_widget)).

(** An element with three attributes (node 0) and one that has an
    attribute of its own (node 1). *)
Definition donor_attrs : list Attr :=
  [ {| attr_name := "a"; attr_value := "1" |};
    {| attr_name := "b"; attr_value := "2" |};
    {| attr_name := "c"; attr_value := "3" |} ].
Definition donor_and_heir : Document :=
  [ elem "ce-old" 2 donor_attrs [];
    elem "the-new" 2 [ {| attr_name := "z"; attr_value := "0" |} ] [];
    frag [0; 1] ].

(** An instance that has been cloned before, and what cloning it again
    yields. *)
Definition used_instance : Heap nat nat :=
  {| doc := three_parts; world := 5; calls := [];
     __parts := [Some 3; None] |}.
Definition cloned_again : completion (Heap nat nat) Node :=
  default (Abrupt (Error "") used_instance)
    (_clone mark ∅ true attribute_hole_node processor () None 3 5
       used_instance).

End Scenario.

(** * Properties *)

(** ** Running statements *)

Section Statements.
Context {St : Type}.

Lemma bind_unfold {A B} (m : M St A) (k : A → M St B) s :
  (m ≫= k) s
  = match m s with
    | Normal a s' => k a s'
    | Abrupt e s' => Abrupt e s'
    end.
Proof. reflexivity. Qed.

Lemma bind_normal {A B} (m : M St A) (k : A → M St B) s b s2 :
  (m ≫= k) s = Normal b s2 →
  ∃ a s1, m s = Normal a s1 ∧ k a s1 = Normal b s2.
Proof.
  rewrite bind_unfold. destruct (m s) as [a s1|e s1]; [eauto | discriminate].
Qed.

Lemma iterate_succ (n : nat) (m : M St unit) s :
  iterate (S n) m s
  = match m s with
    | Normal _ s' => iterate n m s'
    | Abrupt e s' => Abrupt e s'
    end.
Proof. reflexivity. Qed.
End Statements.

(** Read fields through the setters. *)
Ltac fields :=
  cbn [heap stack walker partIndex nodeIndex node customElementsCount
       set_heap set_stack set_walker set_partIndex set_nodeIndex set_node
       set_customElementsCount doc world calls __parts set_doc set_world log
       push final].

(** A statement that visibly leaves the slot counter alone, or lowers it. *)
Ltac counter_kept :=
  by (intros ?; unfold modify, gets, throw, skip, mret, M_ret,
        assign_currentNode; simpl; lia).

(** Run the statement at the head of the goal as far as its value and state
    are known. *)
Ltac exec :=
  repeat first
    [ rewrite bind_unfold
    | progress unfold gets, modify, throw, skip, mret, M_ret
    | progress cbv beta iota ].

(** ** The DOM store *)

Section DomFacts.
Import Dom.
Implicit Types (d : Document) (n : Node).

Lemma append_empty_r (s : string) : s +:+ "" = s.
Proof.
  induction s as [|c s IH]; [done|].
  change (String c (s +:+ "") = String c s). by rewrite IH.
Qed.




Lemma same_skeleton_refl d : same_skeleton d d.
Proof. done. Qed.

Lemma same_skeleton_trans d1 d2 d3 :
  same_skeleton d1 d2 → same_skeleton d2 d3 → same_skeleton d1 d3.
Proof.
  intros [Hl1 H1] [Hl2 H2]. split; [congruence|].
  intros n. by rewrite H2, H1.
Qed.

Lemma same_skeleton_alter g i d :
  (∀ nd, skeleton (g nd) = skeleton nd) → same_skeleton d (alter g i d).
Proof.
  intros Hg. split; [apply length_alter|]. intros n.
  destruct (decide (i = n)) as [->|Hne].
  - rewrite list_lookup_alter_eq. destruct (d !! n); simpl; by rewrite ?Hg.
  - by rewrite list_lookup_alter_ne.
Qed.

Lemma same_skeleton_setAttributes n attrs d :
  same_skeleton d (setAttributes n attrs d).
Proof. by apply same_skeleton_alter. Qed.

Lemma same_skeleton_setParent n p d : same_skeleton d (setParent n p d).
Proof. by apply same_skeleton_alter. Qed.

Lemma same_skeleton_removeAttributeNode n attr d d' :
  removeAttributeNode n attr d = Ok d' → same_skeleton d d'.
Proof.
  unfold removeAttributeNode. destruct (existsb _ _); [|discriminate].
  intros [= <-]. apply same_skeleton_setAttributes.
Qed.

Lemma same_skeleton_setAttributeNode n attr d :
  same_skeleton d (setAttributeNode n attr d).
Proof.
  unfold setAttributeNode.
  destruct (existsb _ _); apply same_skeleton_setAttributes.
Qed.

Lemma same_skeleton_descendantText d d' :
  same_skeleton d d' →
  ∀ fuel n, descendantText fuel d' n = descendantText fuel d n.
Proof.
  intros [_ Hs] fuel. induction fuel as [|fuel IH]; intros n; [done|].
  simpl. specialize (Hs n).
  destruct (d' !! n) as [nd'|], (d !! n) as [nd|]; try discriminate; [|done].
  injection Hs as Hk Hd Hc. rewrite Hk, Hd, Hc.
  destruct (kind nd); try done; f_equal; by apply map_ext.
Qed.

Lemma same_skeleton_textContent d d' n :
  same_skeleton d d' → textContent d' n = textContent d n.
Proof.
  intros Hs. pose proof Hs as [Hl Hn]. unfold textContent. specialize (Hn n).
  destruct (d' !! n) as [nd'|], (d !! n) as [nd|]; try discriminate; [|done].
  injection Hn as Hk Hd Hc. rewrite Hk, Hd, Hc, Hl.
  destruct (kind nd); try done; f_equal; apply map_ext; intros;
    by apply same_skeleton_descendantText.
Qed.

(** The getter reads back what the setter wrote. *)
Lemma textContent_set_textContent d n nd s :
  d !! n = Some nd →
  kind nd = Element ∨ kind nd = DocumentFragment →
  textContent (set_textContent n s d) n = s.
Proof.
  intros Hn Hk. unfold set_textContent.
  set (d1 := foldr (λ c acc, setParent c None acc) d (childrenOf d n)).
  assert (Hs1 : same_skeleton d d1).
  { subst d1. induction (childrenOf d n) as [|c l IH]; simpl; [done|].
    eapply same_skeleton_trans; [exact IH | apply same_skeleton_setParent]. }
  destruct Hs1 as [Hl1 Hs1].
  assert (Hn1 : ∃ nd1, d1 !! n = Some nd1 ∧ kind nd1 = kind nd).
  { specialize (Hs1 n). rewrite Hn in Hs1.
    destruct (d1 !! n) as [nd1|]; [|discriminate].
    injection Hs1 as Hk1 _ _. by exists nd1. }
  destruct Hn1 as (nd1 & Hn1 & Hk1).
  assert (Hlt : (n < length d1)%nat) by (by eapply lookup_lt_Some).
  destruct (decide (s = "")) as [->|Hne].
  - unfold textContent, setChildren. rewrite list_lookup_alter_eq, Hn1.
    simpl. rewrite Hk1. by destruct Hk as [-> | ->].
  - unfold createTextNode, textContent, setParent, setChildren.
    rewrite list_lookup_alter_ne by lia.
    rewrite list_lookup_alter_eq, lookup_app_l, Hn1 by done.
    simpl. rewrite Hk1.
    assert (Ht : descendantText
                   (length (alter (with_parentNode (Some n)) (length d1)
                              (alter (with_childNodes [length d1]) n
                                 (d1 ++ [mkText s]))))
                   (alter (with_parentNode (Some n)) (length d1)
                      (alter (with_childNodes [length d1]) n
                         (d1 ++ [mkText s])))
                   (length d1) = s).
    { rewrite !length_alter, length_app. simpl length.
      replace (length d1 + 1)%nat with (S (length d1)) by lia.
      simpl. rewrite list_lookup_alter_eq, list_lookup_alter_ne by lia.
      rewrite lookup_app_r by lia. rewrite Nat.sub_diag. done. }
    destruct Hk as [-> | ->]; simpl; rewrite Ht; apply append_empty_r.
Qed.

(** Mutation never changes the kind of a node. *)
Lemma kindOf_alter g i d n :
  (∀ nd, kind (g nd) = kind nd) → kindOf (alter g i d) n = kindOf d n.
Proof.
  intros Hg. unfold kindOf. destruct (decide (i = n)) as [->|Hne].
  - rewrite list_lookup_alter_eq. destruct (d !! n); simpl; by rewrite ?Hg.
  - by rewrite list_lookup_alter_ne.
Qed.

Lemma kindOf_detach x d n : kindOf (detach x d) n = kindOf d n.
Proof.
  unfold detach. destruct (parentOf d x); [|done].
  unfold setParent, setChildren. by rewrite !kindOf_alter.
Qed.

Lemma kindOf_replaceChild parent new old d d' n :
  replaceChild parent new old d = Ok d' → kindOf d' n = kindOf d n.
Proof.
  unfold replaceChild. destruct (decide _); [|discriminate].
  intros [= <-]. unfold setParent, setChildren.
  by rewrite !kindOf_alter, kindOf_detach.
Qed.

End DomFacts.

(** ** The update protocol *)

Section UpdateProtocol.
Context {Part World : Type} `{!PartOps Part World}.
Implicit Types (h : Heap Part World) (parts : list (option Part))
  (values : list JsValue).

Lemma external_final {A} (c : Call Part) (run : World → result (A * World))
    h :
  calls (final (external c run h)) = calls h ++ [c]
  ∧ doc (final (external c run h)) = doc h
  ∧ __parts (final (external c run h)) = __parts h.
Proof.
  unfold external. destruct (run _) as [[a w]|e]; simpl; auto.
Qed.

Lemma for_of_cons {St A} (body : nat → A → M St unit) i x l s :
  for_of i (x :: l) body s
  = match body i x s with
    | Normal _ s' => for_of (S i) l body s'
    | Abrupt e s' => Abrupt e s'
    end.
Proof. reflexivity. Qed.

(** A loop over the parts that calls one method of each: the heap changes
    only by the calls it logs, which are an initial segment of
    [calls_from], and all of them when the loop completes. *)
Lemma each_part_loop call run parts : ∀ i h,
  doc (final (for_of i parts (each_part call run) h)) = doc h
  ∧ __parts (final (for_of i parts (each_part call run) h)) = __parts h
  ∧ (∃ n, calls (final (for_of i parts (each_part call run) h))
          = calls h ++ take n (calls_from call i parts))
  ∧ (is_normal (for_of i parts (each_part call run) h) →
     calls (final (for_of i parts (each_part call run) h))
     = calls h ++ calls_from call i parts).
Proof.
  induction parts as [|[p|] rest IH]; intros i h.
  - simpl. split_and!; [done | done | |by rewrite app_nil_r].
    exists O. by rewrite app_nil_r.
  - rewrite for_of_cons. simpl calls_from.
    change (each_part call run i (Some p))
      with (external (call i p) (λ w, returning_unit (run i p w))).
    pose proof (external_final (call i p)
                  (λ w, returning_unit (run i p w)) h) as (Hc & Hd & Hp).
    destruct (external _ _ h) as [[] h1|e h1]; simpl in Hc, Hd, Hp.
    + destruct (IH (S i) h1) as (Hd' & Hp' & [n Hn] & Hall).
      rewrite Hd', Hp', Hd, Hp. split_and!; [done | done | |].
      * exists (S n). rewrite Hn, Hc, <- app_assoc. done.
      * intros Hn'. rewrite (Hall Hn'), Hc, <- app_assoc. done.
    + simpl. split_and!; [done | done | |done].
      exists 1%nat. simpl. by rewrite take_0.
  - rewrite for_of_cons. apply IH.
Qed.

(** The loop completes when the method never throws. *)
Lemma each_part_total call run parts :
  (∀ i p w, ∃ w', run i p w = Ok w') →
  ∀ i h, is_normal (for_of i parts (each_part call run) h).
Proof.
  intros Hok. induction parts as [|[p|] rest IH]; intros i h.
  - exact I.
  - rewrite for_of_cons.
    change (each_part call run i (Some p))
      with (external (call i p) (λ w, returning_unit (run i p w))).
    unfold external.
    destruct (Hok i p (world (log (call i p) h))) as [w' ->].
    simpl. apply IH.
  - rewrite for_of_cons. apply IH.
Qed.

Lemma calls_from_imap values parts : ∀ i,
  calls_from (stage_call values) i parts
  = omap id
      (imap (λ k part,
               (λ p, setValue_call p (array_get values (i + k))) <$> part)
         parts).
Proof.
  induction parts as [|[p|] rest IH]; intros i; simpl; [done| |].
  - unfold stage_call at 1. rewrite Nat.add_0_r. f_equal. rewrite IH. f_equal.
    apply imap_ext. intros k x _. simpl. by rewrite Nat.add_succ_r.
  - rewrite IH. f_equal.
    apply imap_ext. intros k x _. simpl. by rewrite Nat.add_succ_r.
Qed.

Lemma staged_calls_from values parts :
  staged_calls values parts = calls_from (stage_call values) 0 parts.
Proof. by rewrite calls_from_imap. Qed.

Lemma commit_calls_from parts : ∀ i,
  commit_calls parts = calls_from (λ _ p, commit_call p) i parts.
Proof.
  induction parts as [|[p|] rest IH]; intros i; simpl; [done| |].
  - f_equal. apply IH.
  - apply IH.
Qed.

Lemma staged_calls_setValue values parts :
  Forall is_setValue_call (staged_calls values parts).
Proof.
  rewrite staged_calls_from. generalize 0%nat.
  induction parts as [|[p|] rest IH]; intros i; simpl; auto.
  constructor; [by eexists _, _ | apply IH].
Qed.

Lemma commit_calls_commit parts : Forall is_commit_call (commit_calls parts).
Proof.
  induction parts as [|[p|] rest IH]; simpl; auto.
  constructor; [by eexists | apply IH].
Qed.

Lemma updateWithoutCommit_unfold values h :
  updateWithoutCommit values h
  = match for_of 0 (__parts h) (stage_body values) h with
    | Normal _ h' => Normal (__parts h') h'
    | Abrupt e h' => Abrupt e h'
    end.
Proof. reflexivity. Qed.

Lemma update_unfold values h :
  update values h
  = match for_of 0 (__parts h) (stage_body values) h with
    | Normal _ h' => for_of 0 (__parts h') commit_body h'
    | Abrupt e h' => Abrupt e h'
    end.
Proof. reflexivity. Qed.

(** C8. [updateWithoutCommit(values)] leaves the DOM store and the parts
    array alone and does nothing but call [setValue]: the calls it makes are
    an initial segment of [setValue(values[k])] for the non-hole parts in
    list order, [k] counting holes; they are all of them when it returns,
    which it does, with the parts array, whenever no [setValue] throws.  No
    [commit] is called. *)
Theorem updateWithoutCommit_stages values h :
  let c := updateWithoutCommit values h in
  doc (final c) = doc h
  ∧ __parts (final c) = __parts h
  ∧ (∃ n made,
       made = take n (staged_calls values (__parts h))
       ∧ calls (final c) = calls h ++ made
       ∧ Forall is_setValue_call made
       ∧ Forall (λ c, ¬ is_commit_call c) made)
  ∧ (∀ ps h', c = Normal ps h' →
       ps = __parts h
       ∧ calls h' = calls h ++ staged_calls values (__parts h))
  ∧ ((∀ p v w, ∃ w', setValue p v w = Ok w') → is_normal c).
Proof.
  intros c. subst c. rewrite updateWithoutCommit_unfold.
  destruct (each_part_loop (stage_call values)
              (λ i p, setValue p (array_get values i)) (__parts h) 0 h)
    as (Hd & Hp & [n Hn] & Hall).
  pose proof (each_part_total (stage_call values)
                (λ i p, setValue p (array_get values i)) (__parts h)) as Htot.
  rewrite <- staged_calls_from in Hn, Hall.
  assert (Hsv : Forall is_setValue_call
                  (take n (staged_calls values (__parts h))))
    by (apply Forall_take, staged_calls_setValue).
  assert (Hnc : Forall (λ c, ¬ is_commit_call c)
                  (take n (staged_calls values (__parts h)))).
  { eapply Forall_impl; [exact Hsv|].
    intros ? (p & v & ->) (q & Hq). discriminate. }
  fold (stage_body values) in Hd, Hp, Hn, Hall, Htot.
  destruct (for_of 0 (__parts h) (stage_body values) h) as [[] h1|e h1] eqn:E;
    simpl in *; split_and!; try done.
  - by exists n, (take n (staged_calls values (__parts h))).
  - intros ps h' [= <- <-]. split; [done | by apply Hall].
  - by exists n, (take n (staged_calls values (__parts h))).
  - intros Hok.
    pose proof (Htot (λ i p w, Hok p (array_get values i) w) 0%nat h) as Hn'.
    by rewrite E in Hn'.
Qed.

(** C7. [update(values)] is staging followed by committing: as a state
    transformer it is [updateWithoutCommit(values)] followed by the commit
    of every non-hole part, so its staging phase makes exactly the calls of
    [updateWithoutCommit(values)]; the calls it makes are an initial segment
    of all the [setValue(values[k])] calls (non-hole parts in list order,
    [k] counting holes) followed by all the [commit()] calls (non-hole
    parts in list order), and they are all of them when it returns, which
    it does whenever no [setValue] and no [commit] throws. *)
Theorem update_stages_then_commits values h :
  update values h = (updateWithoutCommit values ≫= λ _, commitAll) h
  ∧ (∃ n, calls (final (update values h))
          = calls h
            ++ take n (staged_calls values (__parts h)
                       ++ commit_calls (__parts h)))
  ∧ (is_normal (update values h) →
     calls (final (update values h))
     = calls h ++ staged_calls values (__parts h) ++ commit_calls (__parts h))
  ∧ Forall is_setValue_call (staged_calls values (__parts h))
  ∧ Forall is_commit_call (commit_calls (__parts h))
  ∧ ((∀ p v w, ∃ w', setValue p v w = Ok w') →
     (∀ p w, ∃ w', commit p w = Ok w') →
     is_normal (update values h)).
Proof.
  destruct (each_part_loop (stage_call values)
              (λ i p, setValue p (array_get values i)) (__parts h) 0 h)
    as (Hd & Hp & [n Hn] & Hall).
  pose proof (each_part_total (stage_call values)
                (λ i p, setValue p (array_get values i)) (__parts h)) as Htot.
  rewrite <- staged_calls_from in Hn, Hall.
  fold (stage_body values) in Hd, Hp, Hn, Hall, Htot.
  rewrite update_unfold. unfold mbind at 1, M_bind.
  rewrite updateWithoutCommit_unfold.
  destruct (for_of 0 (__parts h) (stage_body values) h) as [[] h1|e h1] eqn:E;
    simpl in Hd, Hp, Hn, Hall.
  - destruct (each_part_loop (λ _ p, commit_call p) (λ _ p, commit p)
                (__parts h1) 0 h1) as (_ & _ & [m Hm] & Hc).
    pose proof (each_part_total (λ _ p, commit_call p) (λ _ p, commit p)
                  (__parts h1)) as Hctot.
    rewrite <- commit_calls_from in Hm, Hc.
    fold commit_body in Hm, Hc, Hctot.
    split_and!.
    + done.
    + exists (length (staged_calls values (__parts h)) + m)%nat.
      rewrite Hm, (Hall I), Hp, take_app_add, <- app_assoc. done.
    + intros Hn'. rewrite (Hc Hn'), (Hall I), Hp, <- app_assoc. done.
    + apply staged_calls_setValue.
    + apply commit_calls_commit.
    + intros _ Hok. apply Hctot. intros i p w. apply Hok.
  - split_and!.
    + done.
    + exists (n `min` length (staged_calls values (__parts h)))%nat.
      simpl. rewrite Hn, take_app_le by lia. f_equal.
      destruct (decide (n ≤ length (staged_calls values (__parts h))))%nat.
      * by rewrite Nat.min_l.
      * rewrite Nat.min_r by lia. rewrite !take_ge by lia. done.
    + done.
    + apply staged_calls_setValue.
    + apply commit_calls_commit.
    + intros Hok _.
      pose proof (Htot (λ i p w, Hok p (array_get values i) w) 0%nat h)
        as Hn'.
      by rewrite E in Hn'.
Qed.

End UpdateProtocol.

(** ** What [_clone] leaves alone *)

Section Instantiation.
Context {Part World RenderOptions : Type} `{!PartOps Part World}.
Variable mark : string.
Variable customElements : gmap string Ctor.
Variable isCEPolyfill : bool.
Variable template : Template.t.
Variable processor : TemplateProcessor Part World RenderOptions.
Variable options : RenderOptions.
Variable context : option Context.

Local Abbreviation heap_t := (Heap Part World).
Local Abbreviation frame_t := (Frame Part World).
Implicit Types (h : Heap Part World) (f : Frame Part World).

Local Abbreviation local_only := (@local_only Part World _).
Local Abbreviation keeps_parts := (@keeps_parts Part World _).
Local Abbreviation keeps_parts_heap := (@keeps_parts_heap Part World _).
Local Abbreviation counter_not_raised := (@counter_not_raised Part World _).
Local Abbreviation keeps_nodeIndex := (@keeps_nodeIndex Part World _).

Lemma local_only_keeps {A} (m : M frame_t A) : local_only m → keeps_parts m.
Proof. intros Hm f. destruct (Hm f) as (-> & -> & _). done. Qed.

Lemma local_only_bind {A B} (m : M frame_t A) (k : A → M frame_t B) :
  local_only m → (∀ a, local_only (k a)) →
  local_only (m ≫= k).
Proof.
  intros Hm Hk f. rewrite bind_unfold. specialize (Hm f).
  destruct (m f) as [a f1|e f1]; simpl in Hm; [|done].
  destruct (Hk a f1) as (-> & -> & ->). done.
Qed.

Lemma local_only_gets {A} (g : frame_t → A) : local_only (gets g).
Proof. done. Qed.

Lemma local_only_throw {A} e : local_only (throw (S := frame_t) (A := A) e).
Proof. done. Qed.

Lemma local_only_skip : local_only (skip (S := frame_t)).
Proof. done. Qed.

Lemma local_only_assign_currentNode n : local_only (assign_currentNode n).
Proof. done. Qed.

Lemma local_only_assign_nextNode : local_only assign_nextNode.
Proof. intros f. unfold assign_nextNode. by destruct (Dom.nextNode _ _). Qed.

Lemma local_only_advance_step : local_only advance_step.
Proof.
  unfold advance_step, step_walker.
  apply local_only_bind; [done|]. intros _.
  apply local_only_bind; [done|]. intros [n|]; [|done].
  apply local_only_bind; [done|]. intros d.
  apply local_only_bind.
  { destruct (String.eqb _ _); [|done].
    apply local_only_bind; [done|]. intros _.
    destruct (_ ≫= _); done. }
  intros _. apply local_only_bind; [apply local_only_assign_nextNode|].
  intros _. apply local_only_bind; [done|]. intros [n'|]; [done|].
  apply local_only_bind; [done|]. intros [|top rest]; [done|].
  apply local_only_bind; [done|]. intros _.
  apply local_only_bind; [done|]. intros _.
  apply local_only_assign_nextNode.
Qed.

Lemma local_only_iterate n (m : M frame_t unit) :
  local_only m → local_only (iterate n m).
Proof.
  intros Hm. induction n as [|n IH]; [done|].
  change (iterate (S n) m) with (m ≫= λ _, iterate n m).
  by apply local_only_bind.
Qed.

Lemma local_only_seek part : local_only (seek part).
Proof.
  unfold seek. apply local_only_bind.
  - destruct part as [p|]; [|done]. unfold advance.
    apply local_only_bind; [done|]. intros i.
    apply local_only_iterate, local_only_advance_step.
  - intros _. destruct part; [done | apply local_only_assign_nextNode].
Qed.

Lemma keeps_parts_bind {A B} (m : M frame_t A) (k : A → M frame_t B) :
  keeps_parts m → (∀ a, keeps_parts (k a)) → keeps_parts (m ≫= k).
Proof.
  intros Hm Hk f. rewrite bind_unfold. specialize (Hm f).
  destruct (m f) as [a f1|e f1]; simpl in Hm; [|done].
  destruct (Hk a f1) as [-> ->]. done.
Qed.

Lemma keeps_parts_heap_bind {A B} (m : M heap_t A) (k : A → M heap_t B) :
  keeps_parts_heap m → (∀ a, keeps_parts_heap (k a)) →
  keeps_parts_heap (m ≫= k).
Proof.
  intros Hm Hk h. rewrite bind_unfold. specialize (Hm h).
  destruct (m h) as [a h1|e h1]; simpl in Hm; [|done].
  by rewrite Hk.
Qed.

Lemma keeps_parts_on_heap {A} (m : M heap_t A) :
  keeps_parts_heap m → keeps_parts (on_heap m).
Proof.
  intros Hm f. unfold on_heap. specialize (Hm f.(heap)).
  by destruct (m (heap f)).
Qed.

Lemma keeps_parts_heap_dom_op op : keeps_parts_heap (dom_op op).
Proof. intros h. unfold dom_op. by destruct (op _). Qed.

Lemma keeps_parts_heap_external {A} c (run : World → result (A * World)) :
  keeps_parts_heap (external c run).
Proof. intros h. apply external_final. Qed.

Lemma keeps_parts_heap_construct selector ctor :
  keeps_parts_heap (construct selector ctor).
Proof. intros h. by destruct ctor. Qed.

Lemma keeps_parts_heap_transplant old inst :
  keeps_parts_heap (transplant old inst).
Proof.
  unfold transplant. apply keeps_parts_heap_bind; [done|]. intros _.
  apply keeps_parts_heap_dom_op.
Qed.

Lemma keeps_parts_heap_materialize selector ctor old :
  keeps_parts_heap (materialize selector ctor old).
Proof.
  unfold materialize.
  apply keeps_parts_heap_bind; [apply keeps_parts_heap_construct|].
  intros inst. apply keeps_parts_heap_bind; [done|]. intros d.
  apply keeps_parts_heap_bind; [|done].
  destruct (Dom.parentOf _ _); [apply keeps_parts_heap_dom_op | done].
Qed.

Lemma keeps_parts_resolveCustomElement :
  keeps_parts (resolveCustomElement mark customElements context).
Proof.
  unfold resolveCustomElement.
  apply keeps_parts_bind; [done|]. intros [|]; [|done].
  destruct context as [ctx|]; [|done].
  apply keeps_parts_bind; [done|]. intros _.
  apply keeps_parts_bind; [done|]. intros old.
  apply keeps_parts_bind; [done|]. intros name.
  apply keeps_parts_bind; [by destruct (_ && _)|]. intros _.
  apply keeps_parts_bind;
    [apply keeps_parts_on_heap, keeps_parts_heap_materialize|]. intros inst.
  apply keeps_parts_bind;
    [apply keeps_parts_on_heap, keeps_parts_heap_transplant|]. intros _.
  apply keeps_parts_bind; done.
Qed.

Lemma bindPart_normal p f f' :
  isTemplatePartActive p = true →
  bindPart processor options (Some p) f = Normal tt f' →
  partIndex f' = S (partIndex f)
  ∧ ∃ block, block_of processor options p block
             ∧ __parts (heap f') = __parts (heap f) ++ block.
Proof.
  intros Hact. unfold bindPart.
  destruct (TemplatePart.type p) eqn:Hty.
  - exec. unfold on_heap at 1, external at 1.
    destruct (handleTextExpression _ _ _ _) as [[tp w]|e]; [|discriminate].
    exec. fields.
    destruct (node f) as [n|] eqn:Hn; [|discriminate].
    exec. unfold on_heap at 1, external at 1.
    destruct (returning_unit _) as [[[] w2]|e]; [|discriminate].
    exec. unfold on_heap.
    intros [= <-]. cbn. split; [done|].
    exists [Some tp]. split; [by constructor|done].
  - exec. unfold on_heap at 1, external at 1.
    destruct (handleAttributeExpressions _ _ _ _ _ _ _) as [[ps w]|e] eqn:Hh;
      [|discriminate].
    exec. unfold on_heap.
    intros [= <-]. cbn. split; [done|].
    exists (Some <$> ps). split; [|done].
    by eapply block_attribute.
Qed.

Lemma loop_body_aligned f f' :
  loop_body mark customElements template processor options context f
    = Normal tt f' →
  aligned template processor options f →
  aligned template processor options f'.
Proof.
  intros Hbody (Hle & blocks & Hblocks & Hparts).
  unfold loop_body in Hbody. revert Hbody. exec.
  destruct (Template.parts template !! partIndex f) as [p|] eqn:Hp;
    unfold skipped.
  - assert (Hlt : (partIndex f < length (Template.parts template))%nat)
      by (by eapply lookup_lt_Some).
    assert (Hstep : ∀ block f1,
              partIndex f1 = S (partIndex f) →
              block_of processor options p block →
              __parts (heap f1) = __parts (heap f) ++ block →
              aligned template processor options f1).
    { intros block f1 Hi Hb Hps. split; [lia|].
      exists (blocks ++ [block]). rewrite Hi.
      rewrite (take_S_r _ _ p) by done. split.
      - apply Forall2_app; [done | by constructor].
      - rewrite Hps, Hparts, concat_app. simpl. by rewrite app_nil_r. }
    destruct (isTemplatePartActive p) eqn:Hact; cbn [negb]; cbv iota;
      intros Hbody.
    + apply bind_normal in Hbody as ([] & f1 & Hseek & Hbody).
      apply bind_normal in Hbody as ([] & f2 & Hres & Hbind).
      destruct (bindPart_normal _ _ _ Hact Hbind) as (Hi & block & Hb & Hps).
      pose proof (local_only_seek (Some p) f) as Hs. rewrite Hseek in Hs.
      pose proof (keeps_parts_resolveCustomElement f1) as Hr.
      rewrite Hres in Hr. simpl in Hs, Hr.
      destruct Hs as (Hs1 & Hs2 & _), Hr as [Hr1 Hr2].
      apply (Hstep block); [lia | done |].
      by rewrite Hps, Hr1, Hs1.
    + revert Hbody. exec. unfold on_heap. intros [= <-].
      apply (Hstep [None]); [done | by constructor | done].
  - intros Hbody.
    apply bind_normal in Hbody as ([] & f1 & Hseek & Hbody).
    apply bind_normal in Hbody as ([] & f2 & Hres & Hbind).
    cbn in Hbind. injection Hbind as <-.
    pose proof (local_only_seek None f) as Hs. rewrite Hseek in Hs.
    pose proof (keeps_parts_resolveCustomElement f1) as Hr.
    rewrite Hres in Hr. simpl in Hs, Hr.
    destruct Hs as (Hs1 & Hs2 & _), Hr as [Hr1 Hr2].
    split; [lia|]. exists blocks. rewrite Hr2, Hs2, Hr1, Hs1. done.
Qed.

Lemma loop_aligned fuel : ∀ f f',
  loop mark customElements template processor options context fuel f
    = Some (Normal tt f') →
  aligned template processor options f →
  aligned template processor options f' ∧ loop_condition template f' = false.
Proof.
  induction fuel as [|fuel IH]; intros f f'; simpl;
    destruct (loop_condition template f) eqn:Hc; try discriminate.
  - intros [= <-]. done.
  - destruct (loop_body _ _ _ _ _ _ f) as [[] f1|e f1] eqn:Hb; [|discriminate].
    intros Hl Ha. eapply IH; [done|]. by eapply loop_body_aligned.
  - intros [= <-]. done.
Qed.

Lemma entry_fields fragment h :
  heap (entry template fragment h) = h
  ∧ partIndex (entry template fragment h) = O
  ∧ stack (entry template fragment h) = []
  ∧ customElementsCount (entry template fragment h)
    = Z.of_nat (customElementOpeningTagRe_count
                  (Dom.innerHTML (doc h) (Template.element template))).
Proof. unfold entry. by destruct (Dom.nextNode _ _). Qed.

Lemma entry_aligned fragment h :
  __parts h = [] →
  aligned template processor options (entry template fragment h).
Proof.
  intros Hp. destruct (entry_fields fragment h) as (Hh & Hi & _).
  split; [rewrite Hi; lia|]. exists []. rewrite Hi, Hh. by split.
Qed.

Lemma block_single d block :
  one_part_per_attribute processor options →
  block_of processor options d block →
  ∃ x, block = [x] ∧ (x = None ↔ isTemplatePartActive d = false).
Proof.
  intros Hone [Hd | p Hd Hty | element w ps w' Hd Hty Hh].
  - exists None. done.
  - exists (Some p). rewrite Hd. split; [done|]. split; discriminate.
  - apply Hone in Hh. destruct ps as [|p [|]]; try discriminate.
    exists (Some p). rewrite Hd. split; [done|]. split; discriminate.
Qed.

Lemma blocks_single ds blocks :
  one_part_per_attribute processor options →
  Forall2 (block_of processor options) ds blocks →
  length (concat blocks) = length ds
  ∧ ∀ k, concat blocks !! k = Some None
         ↔ ∃ d, ds !! k = Some d ∧ isTemplatePartActive d = false.
Proof.
  intros Hone. induction 1 as [|d block ds blocks Hb _ [IHl IHk]].
  - split; [done|]. intros k. split; [done | by intros (d & ? & _)].
  - destruct (block_single d block Hone Hb) as (x & -> & Hx).
    simpl. split; [by rewrite IHl|]. intros [|k]; simpl.
    + split.
      * intros [= ->]. exists d. split; [done | by apply Hx].
      * intros (d' & [= <-] & Hd). f_equal. by apply Hx.
    + apply IHk.
Qed.

Lemma finish_fields fragment h :
  ∃ h', finish isCEPolyfill fragment h = Normal fragment h'
        ∧ doc h' = doc h ∧ world h' = world h ∧ __parts h' = __parts h
        ∧ calls h'
          = calls h ++ (if isCEPolyfill
                        then [adoptNode_call fragment; upgrade_call fragment]
                        else []).
Proof.
  unfold finish. destruct isCEPolyfill; eexists; (split; [reflexivity|]);
    cbn; rewrite <- ?app_assoc, ?app_nil_r; done.
Qed.

(** C1, as amended.  When the loop of [_clone] ends with the slot counter
    not below zero, every descriptor has been consumed and the parts array
    is the concatenation, in descriptor order, of one block per descriptor:
    a single hole for an inactive descriptor, a single part for an active
    node descriptor, and the parts the attribute handler returned for an
    active attribute descriptor.  [_clone] then returns the fragment with
    that array.  So when every attribute-handler call returns exactly one
    part, the array is as long as the descriptor list and its entry [k] is
    a hole exactly when descriptor [k] is inactive. *)
Theorem parts_follow_descriptors fuel fragment h f' :
  __parts h = [] →
  loop mark customElements template processor options context fuel
    (entry template fragment h) = Some (Normal tt f') →
  (0 ≤ customElementsCount f')%Z →
  (∃ blocks,
     Forall2 (block_of processor options) (Template.parts template) blocks
     ∧ __parts (heap f') = concat blocks)
  ∧ (∃ h', _clone mark customElements isCEPolyfill template processor
             options context fuel fragment h = Some (Normal fragment h')
           ∧ __parts h' = __parts (heap f'))
  ∧ (one_part_per_attribute processor options →
     length (__parts (heap f')) = length (Template.parts template)
     ∧ ∀ k, __parts (heap f') !! k = Some None
            ↔ ∃ d, Template.parts template !! k = Some d
                   ∧ isTemplatePartActive d = false).
Proof.
  intros Hfresh Hloop Hcount.
  destruct (loop_aligned _ _ _ Hloop (entry_aligned fragment h Hfresh))
    as ((Hle & blocks & Hblocks & Hparts) & Hcond).
  unfold loop_condition in Hcond. apply Z.ltb_ge in Hcond.
  assert (Hall : partIndex f' = length (Template.parts template)) by lia.
  rewrite Hall, firstn_all in Hblocks.
  split_and!.
  - by exists blocks.
  - unfold _clone. rewrite Hloop.
    destruct (finish_fields fragment (heap f')) as (h' & -> & _ & _ & Hp & _).
    by exists h'.
  - intros Hone. rewrite Hparts. by apply blocks_single.
Qed.

(** C9.  With no part descriptor and no match of the opening-tag pattern in
    the template's markup, the loop of [_clone] ends without a single round
    (no fuel is needed), and [_clone] returns the fragment it was given:
    the DOM store and the collaborators' world are as they were, the parts
    array is still empty, and no call has been made to the processor, a
    part or a constructor (the only calls are the host's [adoptNode] and
    [upgrade] when the polyfill is in use). *)
Theorem empty_template_clones_only fuel fragment h :
  Template.parts template = [] →
  customElementOpeningTagRe_count
    (Dom.innerHTML (doc h) (Template.element template)) = O →
  __parts h = [] →
  loop mark customElements template processor options context O
    (entry template fragment h)
    = Some (Normal tt (entry template fragment h))
  ∧ ∃ h', _clone mark customElements isCEPolyfill template processor
            options context fuel fragment h = Some (Normal fragment h')
          ∧ doc h' = doc h
          ∧ world h' = world h
          ∧ __parts h' = []
          ∧ calls h'
            = calls h ++ (if isCEPolyfill
                          then [adoptNode_call fragment;
                                upgrade_call fragment]
                          else []).
Proof.
  intros Hparts Hcount Hfresh.
  destruct (entry_fields fragment h) as (Hh & Hi & _ & Hc).
  assert (Hcond : loop_condition template (entry template fragment h) = false).
  { unfold loop_condition. rewrite Hi, Hc, Hcount, Hparts. done. }
  assert (Hloop : ∀ n, loop mark customElements template processor options
                         context n (entry template fragment h)
                       = Some (Normal tt (entry template fragment h))).
  { intros [|n]; simpl; by rewrite Hcond. }
  split; [apply Hloop|].
  unfold _clone. rewrite Hloop, Hh.
  destruct (finish_fields fragment h) as (h' & -> & Hd & Hw & Hp & Hcalls).
  exists h'. rewrite Hp, Hfresh. done.
Qed.

End Instantiation.

(** ** Component slots *)

Section ComponentSlots.
Context {Part World RenderOptions : Type} `{!PartOps Part World}.
Variable mark : string.
Variable customElements : gmap string Ctor.
Variable isCEPolyfill : bool.
Variable template : Template.t.
Variable processor : TemplateProcessor Part World RenderOptions.
Variable options : RenderOptions.
Variable context : option Context.
Implicit Types (h : Heap Part World) (f : Frame Part World).

Lemma moveAttributes_skeleton fuel : ∀ i old inst d d',
  moveAttributes fuel i old inst d = Ok d' → Dom.same_skeleton d d'.
Proof.
  induction fuel as [|fuel IH]; intros i old inst d d'; simpl.
  - intros [= <-]. apply same_skeleton_refl.
  - destruct (Dom.attributesOf d old !! i) as [attr|];
      [|intros [= <-]; apply same_skeleton_refl].
    destruct (Dom.removeAttributeNode old attr d) as [d1|e] eqn:Hr;
      [|discriminate].
    intros Hm. apply IH in Hm.
    eapply same_skeleton_trans;
      [by eapply same_skeleton_removeAttributeNode|].
    eapply same_skeleton_trans;
      [apply same_skeleton_setAttributeNode | exact Hm].
Qed.

Lemma transplant_normal old inst h h' :
  transplant old inst h = Normal tt h' →
  ∃ d', moveAttributes
          (length (Dom.attributesOf
                     (Dom.set_textContent inst (Dom.innerHTML (doc h) old)
                        (doc h)) old))
          0 old inst
          (Dom.set_textContent inst (Dom.innerHTML (doc h) old) (doc h))
        = Ok d'
        ∧ h' = set_doc d' h.
Proof.
  unfold transplant. exec. unfold dom_op. fields.
  destruct (moveAttributes _ _ _ _ _) as [d'|e]; [|discriminate].
  intros [= <-]. by exists d'.
Qed.

Lemma materialize_normal selector ctor old h inst h1 :
  materialize selector ctor old h = Normal inst h1 →
  inst = length (doc h)
  ∧ (∃ c, ctor = Some c ∧ calls h1 = calls h ++ [new_call selector c])
  ∧ Dom.kindOf (doc h1) inst = Some Dom.Element.
Proof.
  unfold materialize, construct. destruct ctor as [c|]; [|discriminate].
  exec. fields. unfold dom_op. fields.
  set (d0 := doc h ++ [Dom.mkElement (ctor_localName c) (ctor_attributes c)]).
  assert (Hk : Dom.kindOf d0 (length (doc h)) = Some Dom.Element).
  { unfold Dom.kindOf. subst d0. rewrite lookup_app_r by lia.
    by rewrite Nat.sub_diag. }
  destruct (Dom.parentOf d0 old) as [parent|] eqn:Hp.
  - destruct (Dom.replaceChild _ _ _ _) as [d1|e] eqn:Hr; [|discriminate].
    exec. intros [= <- <-]. fields. split_and!; [done | by exists c |].
    by rewrite (kindOf_replaceChild _ _ _ _ _ _ Hr).
  - exec. intros [= <- <-]. fields. split_and!; [done | by exists c | done].
Qed.

Lemma resolveCustomElement_unfold ctx f :
  context = Some ctx →
  isCustomElement mark f = true →
  resolveCustomElement mark customElements context f
  = let f1 := set_customElementsCount (customElementsCount f - 1) f in
    let old := default O (node f) in
    let ctor := declarations ctx !! slot_name mark f in
    if bool_decide (ctor = None)
       && bool_decide (customElements !! slot_name mark f = None)
    then Abrupt (Error (undeclared_message (slot_name mark f))) f1
    else
      match materialize (slot_name mark f) ctor old (heap f) with
      | Normal inst h1 =>
          match transplant old inst h1 with
          | Normal _ h2 =>
              Normal tt
                (set_walker (Dom.set_currentNode (walker f) inst)
                   (set_node (Some inst) (set_heap h2 f1)))
          | Abrupt e h2 => Abrupt e (set_heap h2 f1)
          end
      | Abrupt e h1 => Abrupt e (set_heap h1 f1)
      end.
Proof.
  intros -> Hc. unfold resolveCustomElement. exec. rewrite Hc. exec. fields.
  unfold slot_name.
  destruct (bool_decide _ && bool_decide _); [done|].
  exec. unfold on_heap at 1. fields.
  destruct (materialize _ _ _ _) as [inst h1|e h1]; [|done].
  exec. unfold on_heap. fields.
  destruct (transplant _ _ _) as [[] h2|e h2]; [|done].
  exec. unfold assign_currentNode. exec. done.
Qed.

(** C3, as amended.  Resolving a component slot leaves the new instance
    with the text content that the [innerHTML] getter returned for the old
    node once the instance had taken its place (line 175): the
    serialisation of the old node's children as markup. *)
Theorem instance_text_is_old_innerHTML ctx f f' :
  context = Some ctx →
  isCustomElement mark f = true →
  resolveCustomElement mark customElements context f = Normal tt f' →
  ∃ old inst h1,
    node f = Some old
    ∧ node f' = Some inst
    ∧ materialize (slot_name mark f) (declarations ctx !! slot_name mark f)
        old (heap f) = Normal inst h1
    ∧ transplant old inst h1 = Normal tt (heap f')
    ∧ Dom.textContent (doc (heap f')) inst = Dom.innerHTML (doc h1) old.
Proof.
  intros Hctx Hc. rewrite (resolveCustomElement_unfold ctx f Hctx Hc).
  cbv zeta. destruct (bool_decide _ && bool_decide _); [discriminate|].
  destruct (materialize _ _ _ _) as [inst h1|e h1] eqn:Hm; [|discriminate].
  destruct (transplant _ _ _) as [[] h2|e h2] eqn:Ht; [|discriminate].
  intros [= <-]. fields.
  assert (∃ old, node f = Some old) as [old Hold].
  { unfold isCustomElement in Hc. destruct (node f); [by eexists | done]. }
  rewrite Hold in *. simpl default in *.
  exists old, inst, h1. split_and!; try done.
  destruct (materialize_normal _ _ _ _ _ _ Hm) as (_ & _ & Hk).
  unfold Dom.kindOf in Hk.
  destruct (doc h1 !! inst) as [nd|] eqn:Hnd; [|discriminate].
  injection Hk as Hk.
  apply transplant_normal in Ht as (d' & Hmv & ->). fields.
  apply moveAttributes_skeleton in Hmv.
  rewrite (same_skeleton_textContent _ _ inst Hmv).
  eapply textContent_set_textContent; eauto.
Qed.

Lemma loop_after_rounds k : ∀ f f1 fuel,
  rounds mark customElements template processor options context k f
    = Some f1 →
  loop mark customElements template processor options context (k + fuel) f
  = loop mark customElements template processor options context fuel f1.
Proof.
  induction k as [|k IH]; intros f f1 fuel; simpl.
  - by intros [= ->].
  - destruct (loop_condition template f); [|discriminate].
    destruct (loop_body _ _ _ _ _ _ f) as [[] f2|e f2]; [|discriminate].
    apply IH.
Qed.

Lemma contains_slot_name name :
  ∃ before after, undeclared_message name = before +:+ name +:+ after.
Proof. by exists "Make sure that you've added ", " into declarations!". Qed.

(** C5.  Let instantiation with a context have reached, after some rounds,
    a round whose traversal arrives at a component slot (an element whose
    name includes the mark).  If the slot name has no constructor in the
    context's declarations and no entry in the registry of the host,
    [_clone] throws an [Error] whose message contains the slot name, and
    nothing has been materialised: the heap is as it was at the start of
    the round, with no constructor called and no node replaced. *)
Theorem undeclared_component_throws k fuel fragment h f f1 ctx :
  context = Some ctx →
  rounds mark customElements template processor options context k
    (entry template fragment h) = Some f →
  loop_condition template f = true →
  skipped (Template.parts template !! partIndex f) = false →
  seek (Template.parts template !! partIndex f) f = Normal tt f1 →
  isCustomElement mark f1 = true →
  declarations ctx !! slot_name mark f1 = None →
  customElements !! slot_name mark f1 = None →
  _clone mark customElements isCEPolyfill template processor options context
    (k + S fuel) fragment h
  = Some (Abrupt (Error (undeclared_message (slot_name mark f1))) (heap f))
  ∧ ∃ before after,
      undeclared_message (slot_name mark f1)
      = before +:+ slot_name mark f1 +:+ after.
Proof.
  intros Hctx Hrounds Hcond Hskip Hseek Hcustom Hdecl Hreg.
  split; [|apply contains_slot_name].
  unfold _clone. rewrite (loop_after_rounds _ _ _ _ Hrounds).
  simpl loop. rewrite Hcond. unfold loop_body. exec. rewrite Hskip.
  exec. rewrite Hseek. exec.
  rewrite (resolveCustomElement_unfold ctx f1 Hctx Hcustom). cbv zeta.
  rewrite Hdecl, Hreg. simpl. fields.
  destruct (local_only_seek (Template.parts template !! partIndex f) f)
    as [Hheap _].
  rewrite Hseek in Hheap. simpl in Hheap. by rewrite Hheap.
Qed.


End ComponentSlots.

  (** ** The attribute loop *)

Section AttributeLoop.
Import Dom.
Implicit Types (d : Document) (n : Node).

Lemma attributesOf_setAttributes n attrs d :
  (n < length d)%nat → attributesOf (setAttributes n attrs d) n = attrs.
Proof.
  intros Hn. unfold attributesOf, setAttributes.
  rewrite list_lookup_alter_eq.
  destruct (lookup_lt_is_Some_2 d n Hn) as [nd ->]. done.
Qed.

Lemma attributesOf_setAttributes_ne n m attrs d :
  n ≠ m → attributesOf (setAttributes n attrs d) m = attributesOf d m.
Proof.
  intros Hne. unfold attributesOf, setAttributes.
  by rewrite list_lookup_alter_ne.
Qed.

Lemma attributesOf_setAttributeNode_ne n m attr d :
  n ≠ m → attributesOf (setAttributeNode n attr d) m = attributesOf d m.
Proof.
  intros Hne. unfold setAttributeNode.
  destruct (existsb _ _); by apply attributesOf_setAttributes_ne.
Qed.

Lemma length_setAttributeNode n attr d :
  length (setAttributeNode n attr d) = length d.
Proof.
  unfold setAttributeNode, setAttributes.
  destruct (existsb _ _); apply length_alter.
Qed.

(** Removing by name an attribute whose name occurs once removes that
    attribute only. *)
Lemma filter_other_names (kept rest : list Attr) a :
  NoDup (attr_name <$> (kept ++ a :: rest)) →
  List.filter (λ x, negb (has_name (attr_name a) x)) (kept ++ a :: rest)
  = kept ++ rest.
Proof.
  intros Hnd.
  assert (Hid : ∀ l : list Attr,
            attr_name a ∉ attr_name <$> l →
            List.filter (λ x, negb (has_name (attr_name a) x)) l = l).
  { induction l as [|x l IH]; intros Hl; [done|]. simpl.
    rewrite fmap_cons in Hl. apply not_elem_of_cons in Hl as [Hx Hl].
    unfold has_name at 1.
    destruct (String.eqb_spec (attr_name x) (attr_name a)); [congruence|]. simpl. by rewrite IH. }
  rewrite fmap_app, fmap_cons in Hnd.
  apply NoDup_app in Hnd as (_ & Hkept & Hrest).
  apply NoDup_cons in Hrest as [Hrest _].
  rewrite List.filter_app. simpl. unfold has_name at 2.
  rewrite String.eqb_refl. simpl. rewrite !Hid; [done | done |].
  intros Hin. by eapply Hkept; [|left].
Qed.

Lemma moveAttributes_left_behind fuel : ∀ kept rest old inst d d',
  old ≠ inst → (old < length d)%nat →
  attributesOf d old = kept ++ rest →
  NoDup (attr_name <$> (kept ++ rest)) →
  (length rest ≤ fuel)%nat →
  moveAttributes fuel (length kept) old inst d = Ok d' →
  attributesOf d' old = kept ++ left_behind rest.
Proof.
  induction fuel as [|fuel IH];
    intros kept rest old inst d d' Hne Hlt Hattrs Hnd Hfuel.
  - destruct rest; [|simpl in Hfuel; lia]. simpl. by intros [= <-].
  - simpl. rewrite Hattrs.
    destruct rest as [|a rest].
    { rewrite app_nil_r, lookup_ge_None_2 by lia. by intros [= <-]. }
    rewrite lookup_app_r, Nat.sub_diag by lia. simpl.
    unfold removeAttributeNode. rewrite Hattrs.
    assert (Hex : existsb (has_name (attr_name a)) (kept ++ a :: rest) = true).
    { apply existsb_exists. exists a. split; [apply in_elt|].
      unfold has_name. apply String.eqb_refl. }
    rewrite Hex. simpl. rewrite filter_other_names by done.
    set (d1 := setAttributes old (kept ++ rest) d).
    assert (Hd1 : attributesOf (setAttributeNode inst a d1) old = kept ++ rest).
    { rewrite attributesOf_setAttributeNode_ne by done.
      by apply attributesOf_setAttributes. }
    assert (Hl1 : (old < length (setAttributeNode inst a d1))%nat).
    { rewrite length_setAttributeNode. subst d1. unfold setAttributes.
      by rewrite length_alter. }
    assert (Hnd1 : NoDup (attr_name <$> (kept ++ rest))).
    { rewrite fmap_app in *. rewrite fmap_cons in Hnd.
      apply NoDup_app in Hnd as (Hk & Hkr & Hr).
      apply NoDup_cons in Hr as [_ Hr]. apply NoDup_app.
      split_and!; [done| |done].
      intros x Hx Hx'. eapply Hkr; [done | by right]. }
    destruct rest as [|b rest].
    + destruct fuel as [|fuel']; simpl.
      * rewrite app_nil_r in Hd1. intros [= <-]. by rewrite Hd1, app_nil_r.
      * rewrite Hd1, app_nil_r, lookup_ge_None_2 by lia.
        intros [= <-]. by rewrite Hd1, app_nil_r.
    + intros Hm. simpl in Hfuel.
      specialize (IH (kept ++ [b]) rest old inst _ d' Hne Hl1).
      rewrite <- !app_assoc in IH. simpl in IH.
      rewrite length_app, Nat.add_1_r in IH.
      apply IH; [done | done | lia | done].
Qed.

(** An old node with distinct attribute names [a; b; ...] still has [b],
    and every second attribute after it, once the loop is over. *)
Lemma moveAttributes_every_second_stays old inst d d' :
  old ≠ inst → (old < length d)%nat →
  NoDup (attr_name <$> attributesOf d old) →
  moveAttributes (length (attributesOf d old)) 0 old inst d = Ok d' →
  attributesOf d' old = left_behind (attributesOf d old).
Proof.
  intros Hne Hlt Hnd Hm.
  by apply (moveAttributes_left_behind (length (attributesOf d old)) []
              (attributesOf d old) old inst d d').
Qed.
End AttributeLoop.

  (** ** The traversal and the loop *)

Section LoopFacts.
Context {Part World RenderOptions : Type} `{!PartOps Part World}.
Variable mark : string.
Variable customElements : gmap string Ctor.
Variable template : Template.t.
Variable processor : TemplateProcessor Part World RenderOptions.
Variable options : RenderOptions.
Variable context : option Context.
Implicit Types (h : Heap Part World) (f : Frame Part World).

Local Abbreviation local_only := (@local_only Part World _).
Local Abbreviation keeps_parts := (@keeps_parts Part World _).
Local Abbreviation keeps_parts_heap := (@keeps_parts_heap Part World _).
Local Abbreviation counter_not_raised := (@counter_not_raised Part World _).
Local Abbreviation keeps_nodeIndex := (@keeps_nodeIndex Part World _).

Lemma keeps_nodeIndex_bind {A B} (m : M (Frame Part World) A)
    (k : A → M (Frame Part World) B) :
  keeps_nodeIndex m → (∀ a, keeps_nodeIndex (k a)) → keeps_nodeIndex (m ≫= k).
Proof.
  intros Hm Hk f. rewrite bind_unfold. specialize (Hm f).
  destruct (m f) as [a f1|e f1]; simpl in Hm; [|done].
  by rewrite Hk.
Qed.

Lemma keeps_nodeIndex_assign_nextNode : keeps_nodeIndex assign_nextNode.
Proof. intros f. unfold assign_nextNode. by destruct (Dom.nextNode _ _). Qed.

Lemma keeps_nodeIndex_step_walker : keeps_nodeIndex step_walker.
Proof.
  unfold step_walker.
  apply keeps_nodeIndex_bind; [done|]. intros [n|]; [|done].
  apply keeps_nodeIndex_bind; [done|]. intros d.
  apply keeps_nodeIndex_bind.
  { destruct (String.eqb _ _); [|done].
    apply keeps_nodeIndex_bind; [done|]. intros _.
    destruct (_ ≫= _); done. }
  intros _.
  apply keeps_nodeIndex_bind; [apply keeps_nodeIndex_assign_nextNode|].
  intros _. apply keeps_nodeIndex_bind; [done|]. intros [n'|]; [done|].
  apply keeps_nodeIndex_bind; [done|]. intros [|top rest]; [done|].
  apply keeps_nodeIndex_bind; [done|]. intros _.
  apply keeps_nodeIndex_bind; [done|]. intros _.
  apply keeps_nodeIndex_assign_nextNode.
Qed.

(** A round of the inner loop adds one to [nodeIndex]. *)
Lemma advance_step_nodeIndex f f' :
  advance_step f = Normal tt f' → nodeIndex f' = (nodeIndex f + 1)%Z.
Proof.
  unfold advance_step. exec. intros Hstep.
  pose proof (keeps_nodeIndex_step_walker
                (set_nodeIndex (nodeIndex f + 1) f)) as Hkeeps.
  by rewrite Hstep in Hkeeps.
Qed.

Lemma iterate_advance_step_nodeIndex n : ∀ f f',
  iterate n advance_step f = Normal tt f' →
  nodeIndex f' = (nodeIndex f + Z.of_nat n)%Z.
Proof.
  induction n as [|n IH]; intros f f'.
  - intros [= <-]. lia.
  - rewrite iterate_succ.
    destruct (advance_step f) as [[] f1|e f1] eqn:Hs; [|discriminate].
    intros Hi. apply IH in Hi. apply advance_step_nodeIndex in Hs. lia.
Qed.

(** The inner loop ends with its condition [nodeIndex < part.index] false:
    [nodeIndex] has reached [part.index], unless it was past it already. *)
Lemma advance_reaches_index part f f' :
  advance part f = Normal tt f' →
  nodeIndex f' = Z.max (nodeIndex f) (TemplatePart.index part).
Proof.
  unfold advance. exec. intros Hi.
  apply iterate_advance_step_nodeIndex in Hi. lia.
Qed.

(** X18.  A slot name that only the registry of the host knows: the
    [Error] is not thrown and the call of the undefined constructor throws a
    [TypeError], with nothing constructed; the slot counter has been
    lowered by then. *)
Lemma registry_only_component_throws ctx f c :
  context = Some ctx →
  isCustomElement mark f = true →
  declarations ctx !! slot_name mark f = None →
  customElements !! slot_name mark f = Some c →
  resolveCustomElement mark customElements context f
  = Abrupt (TypeError "ctor is not a constructor")
      (set_customElementsCount (customElementsCount f - 1) f).
Proof.
  intros Hctx Hc Hd Hr.
  rewrite (resolveCustomElement_unfold mark customElements context ctx f
             Hctx Hc).
  cbv zeta. rewrite Hd, Hr. simpl. by destruct f.
Qed.

Lemma counter_not_raised_bind {A B} (m : M (Frame Part World) A)
    (k : A → M (Frame Part World) B) :
  counter_not_raised m → (∀ a, counter_not_raised (k a)) →
  counter_not_raised (m ≫= k).
Proof.
  intros Hm Hk f. rewrite bind_unfold. specialize (Hm f).
  destruct (m f) as [a f1|e f1]; simpl in Hm; [|done].
  specialize (Hk a f1). lia.
Qed.

Lemma counter_not_raised_local {A} (m : M (Frame Part World) A) :
  local_only m → counter_not_raised m.
Proof. intros Hm f. destruct (Hm f) as (_ & _ & ->). done. Qed.

Lemma counter_not_raised_on_heap {A} (m : M (Heap Part World) A) :
  counter_not_raised (on_heap m).
Proof. intros f. unfold on_heap. by destruct (m (heap f)). Qed.

Lemma counter_not_raised_resolveCustomElement :
  counter_not_raised (resolveCustomElement mark customElements context).
Proof.
  unfold resolveCustomElement.
  apply counter_not_raised_bind; [counter_kept|]. intros [|]; [|counter_kept].
  destruct context as [ctx|]; [|counter_kept].
  apply counter_not_raised_bind; [counter_kept|]. intros _.
  apply counter_not_raised_bind; [counter_kept|]. intros old.
  apply counter_not_raised_bind; [counter_kept|]. intros name.
  apply counter_not_raised_bind;
    [destruct (_ && _); counter_kept|]. intros _.
  apply counter_not_raised_bind; [apply counter_not_raised_on_heap|].
  intros inst.
  apply counter_not_raised_bind; [apply counter_not_raised_on_heap|].
  intros _. apply counter_not_raised_bind; [|intros _]; counter_kept.
Qed.

Lemma counter_not_raised_bindPart part :
  counter_not_raised (bindPart processor options part).
Proof.
  unfold bindPart. destruct part as [p|]; [|counter_kept].
  destruct (TemplatePart.type p).
  - apply counter_not_raised_bind; [apply counter_not_raised_on_heap|].
    intros tp. apply counter_not_raised_bind; [counter_kept|].
    intros [n|]; [|counter_kept].
    apply counter_not_raised_bind; [counter_kept|]. intros ref.
    apply counter_not_raised_bind; [apply counter_not_raised_on_heap|].
    intros _. apply counter_not_raised_bind;
      [apply counter_not_raised_on_heap | intros _; counter_kept].
  - apply counter_not_raised_bind; [counter_kept|]. intros n.
    apply counter_not_raised_bind; [apply counter_not_raised_on_heap|].
    intros ps. apply counter_not_raised_bind;
      [apply counter_not_raised_on_heap | intros _; counter_kept].
Qed.

(** A round that has a descriptor at hand consumes it and does not raise
    the slot counter. *)
Lemma loop_body_consumes f f' p :
  Template.parts template !! partIndex f = Some p →
  loop_body mark customElements template processor options context f
    = Normal tt f' →
  partIndex f' = S (partIndex f)
  ∧ (customElementsCount f' ≤ customElementsCount f)%Z.
Proof.
  intros Hp. unfold loop_body. exec. rewrite Hp. unfold skipped.
  destruct (isTemplatePartActive p) eqn:Hact; cbn [negb]; exec.
  - intros Hbody.
    apply bind_normal in Hbody as ([] & f1 & Hseek & Hbody).
    apply bind_normal in Hbody as ([] & f2 & Hres & Hbind).
    destruct (local_only_seek (Some p) f) as (_ & Hs & Hsc).
    rewrite Hseek in Hs, Hsc. simpl in Hs, Hsc.
    destruct (keeps_parts_resolveCustomElement mark customElements context f1)
      as [_ Hr].
    pose proof (counter_not_raised_resolveCustomElement f1) as Hrc.
    rewrite Hres in Hr, Hrc. simpl in Hr, Hrc.
    pose proof (counter_not_raised_bindPart (Some p) f2) as Hbc.
    destruct (bindPart_normal processor options _ _ _ Hact Hbind) as (Hi & _).
    rewrite Hbind in Hbc. simpl in Hbc. split; lia.
  - unfold on_heap. exec. intros [= <-]. fields. split; [done | lia].
Qed.

(** The loop ends, by returning or by throwing, within as many rounds as
    there are descriptors left, when no component slot is outstanding (the
    counter is not above zero). *)
Lemma loop_ends_without_outstanding_slots fuel : ∀ f,
  (customElementsCount f ≤ 0)%Z →
  (length (Template.parts template) - partIndex f ≤ fuel)%nat →
  is_Some
    (loop mark customElements template processor options context fuel f).
Proof.
  induction fuel as [|fuel IH]; intros f Hc Hfuel; simpl;
    destruct (loop_condition template f) eqn:Hcond; try by eexists.
  - unfold loop_condition in Hcond. apply Z.ltb_lt in Hcond. lia.
  - unfold loop_condition in Hcond. apply Z.ltb_lt in Hcond.
    destruct (lookup_lt_is_Some_2 (Template.parts template) (partIndex f))
      as [p Hp]; [lia|].
    destruct (loop_body _ _ _ _ _ _ f) as [[] f1|e f1] eqn:Hb; [|by eexists].
    destruct (loop_body_consumes f f1 p Hp Hb) as [Hi Hle].
    apply IH; lia.
Qed.

(** Once the traversal is over (the current node is null and the walker
    finds no next node) with every descriptor consumed, a round changes
    nothing: if the loop condition holds then, it holds for ever. *)
Lemma exhausted_walker_never_ends f :
  Template.parts template !! partIndex f = None →
  node f = None →
  (Dom.nextNode (doc (heap f)) (walker f)).1 = None →
  loop_condition template f = true →
  ∀ fuel,
    loop mark customElements template processor options context fuel f = None.
Proof.
  intros Hpart Hnode Hnext Hcond.
  assert (Hbody : loop_body mark customElements template processor options
                    context f = Normal tt f).
  { assert (Hw : Dom.nextNode (doc (heap f)) (walker f) = (None, walker f)).
    { unfold Dom.nextNode in *. by destruct (Dom.search _ _ _ _ _). }
    unfold loop_body. exec. rewrite Hpart. unfold skipped, seek. exec.
    unfold assign_nextNode at 1. rewrite Hw. exec.
    assert (Hf : set_node None (set_walker (walker f) f) = f)
      by (destruct f; simpl in *; by subst).
    rewrite Hf. unfold resolveCustomElement. exec.
    unfold isCustomElement. rewrite Hnode. exec. done. }
  induction fuel as [|fuel IH]; simpl; rewrite Hcond; [done|].
  by rewrite Hbody.
Qed.
End LoopFacts.

(** ** The properties at work on concrete templates *)

Section Examples.
Import Scenario.
Local Open Scope nat_scope.

(** C1, counterexample.  [<div class="${..} ${..}">] has one part
    descriptor, and the processor binds it to two parts: after [_clone] the
    parts array has two entries for one descriptor. *)
Lemma two_parts_for_one_descriptor :
  ∃ h',
    _clone mark ∅ false class_with_two_holes processor () None 1 3
      (fresh two_holes) = Some (Normal 3 h')
    ∧ __parts h' = [Some 0; Some 1]
    ∧ length (Template.parts class_with_two_holes) = 1
    ∧ length (__parts h') ≠ length (Template.parts class_with_two_holes).
Proof.
  eexists. split; [vm_compute; reflexivity|].
  split; [reflexivity|]. split; [reflexivity|]. simpl. lia.
Qed.


(** C3, counterexample.  The widget of [ <ce-widget a="1" b="2"><b>hi</b>
    </ce-widget>] (node 8) has the text content [hi]; the instance that
    replaces it (node 11) ends with the text content [<b>hi</b>]. *)
Lemma instance_text_is_markup :
  ∃ h',
    _clone mark ∅ false no_parts processor () (Some declares_widget) 1 6
      (fresh dressed_widget) = Some (Normal 6 h')
    ∧ Dom.childrenOf dressed_widget 6 = [7; 8]
    ∧ Dom.childrenOf (doc h') 6 = [7; 11]
    ∧ Dom.textContent dressed_widget 8 = "hi"
    ∧ Dom.textContent (doc h') 11 = "<b>hi</b>"
    ∧ Dom.textContent (doc h') 11 ≠ Dom.textContent dressed_widget 8.
Proof.
  eexists. split; [vm_compute; reflexivity|].
  split_and!; [reflexivity..|]. vm_compute. discriminate.
Qed.

(** C4 on a failing input.  The widget (node 8) has the attributes [a] and
    [b]; after the instance (node 11) has replaced it, the instance has [a]
    only and the widget still has [b]. *)
Theorem second_attribute_stays_behind :
  ∃ h',
    _clone mark ∅ false no_parts processor () (Some declares_widget) 1 6
      (fresh dressed_widget) = Some (Normal 6 h')
    ∧ Dom.attributesOf dressed_widget 8 = widget_attrs
    ∧ Dom.parentOf (doc h') 8 = None
    ∧ Dom.childrenOf (doc h') 6 = [7; 11]
    ∧ Dom.attributesOf (doc h') 11
      = [ {| Dom.attr_name := "a"; Dom.attr_value := "1" |} ]
    ∧ Dom.attributesOf (doc h') 8
      = [ {| Dom.attr_name := "b"; Dom.attr_value := "2" |} ].
Proof.
  eexists. split; [vm_compute; reflexivity|]. split_and!; reflexivity.
Qed.

(** C6 on a failing input.  For the template [<ce-widget></ce-widget>] the
    pattern counts one opening tag and there is no part descriptor.  The
    widget is the node fetched before the loop; the first round steps past
    it to null, nothing is resolved, and every later round finds the same
    state with [0 < 0 + 1] still true: the loop is still running after any
    number of rounds, whatever the mark, the context, the registry and the
    processor. *)
Theorem lone_widget_loops_forever
    (mark' : string) (registry : gmap string Ctor) (polyfill : bool)
    (proc : TemplateProcessor nat nat ()) (ctx : option Context)
    (fuel : nat) :
  _clone mark' registry polyfill no_parts proc () ctx fuel 3
    (fresh lone_widget) = None.
Proof.
  set (f0 := entry no_parts 3 (fresh lone_widget)).
  assert (H0 : loop_body mark' registry no_parts proc () ctx f0
               = Normal () (set_node None f0)) by reflexivity.
  unfold _clone. fold f0. destruct fuel as [|fuel]; [reflexivity|].
  change (loop mark' registry no_parts proc () ctx (S fuel) f0)
    with (match loop_body mark' registry no_parts proc () ctx f0 with
          | Normal _ f' => loop mark' registry no_parts proc () ctx fuel f'
          | Abrupt e f' => Some (Abrupt e f')
          end).
  rewrite H0.
  by rewrite (exhausted_walker_never_ends mark' registry no_parts proc ()
                ctx (set_node None f0)).
Qed.

(** C1, witness: [<div id=${..}><!----><!----></div>] with an attribute
    descriptor, an inactive descriptor and a node descriptor, every
    attribute bound to a single part. *)
Lemma parts_follow_descriptors_witness :
  __parts (heap three_parts_bound) = [Some 0; None; Some 1]
  ∧ length (__parts (heap three_parts_bound))
    = length (Template.parts attribute_hole_node)
  ∧ ∀ k, __parts (heap three_parts_bound) !! k = Some None
         ↔ ∃ d, Template.parts attribute_hole_node !! k = Some d
                ∧ isTemplatePartActive d = false.
Proof.
  split; [vm_compute; reflexivity|].
  destruct (parts_follow_descriptors mark ∅ false attribute_hole_node
              single_part_processor () None 3 5 (fresh three_parts)
              three_parts_bound) as (_ & _ & H);
    [reflexivity | vm_compute; reflexivity | vm_compute; discriminate |].
  apply H. intros element name strings part w ps w' [= <- _]. reflexivity.
Defined.

(** C3, witness: the widget of [dressed_widget]. *)
Lemma instance_text_is_old_innerHTML_witness :
  Dom.textContent (doc (heap widget_resolved)) 11 = "<b>hi</b>"
  ∧ ∃ old inst h1,
      node at_widget = Some old
      ∧ node widget_resolved = Some inst
      ∧ materialize (slot_name mark at_widget)
          (declarations declares_widget !! slot_name mark at_widget) old
          (heap at_widget) = Normal inst h1
      ∧ transplant old inst h1 = Normal () (heap widget_resolved)
      ∧ Dom.textContent (doc (heap widget_resolved)) inst
        = Dom.innerHTML (doc h1) old.
Proof.
  split; [vm_compute; reflexivity|].
  apply (instance_text_is_old_innerHTML mark ∅ (Some declares_widget)
           declares_widget at_widget widget_resolved);
    [reflexivity | vm_compute; reflexivity | vm_compute; reflexivity].
Defined.

(** C5, witness: the widget of [dressed_widget], declared nowhere. *)
Lemma undeclared_component_throws_witness :
  _clone mark ∅ false no_parts processor () (Some declares_nothing) 1 6
    (fresh dressed_widget)
  = Some (Abrupt
            (Error "Make sure that you've added widget into declarations!")
            (fresh dressed_widget))
  ∧ ∃ before after,
      "Make sure that you've added widget into declarations!"
      = before +:+ "widget" +:+ after.
Proof.
  apply (undeclared_component_throws mark ∅ false no_parts processor ()
           (Some declares_nothing) 0 0 6 (fresh dressed_widget)
           (entry no_parts 6 (fresh dressed_widget)) at_widget
           declares_nothing); vm_compute; reflexivity.
Defined.

(** C9, witness: [<p>hello</p>], with the polyfill in use. *)
Lemma empty_template_clones_only_witness :
  loop mark ∅ no_parts processor () None 0
    (entry no_parts 4 (fresh static_markup))
  = Some (Normal () (entry no_parts 4 (fresh static_markup)))
  ∧ ∃ h',
      _clone mark ∅ true no_parts processor () None 0 4
        (fresh static_markup) = Some (Normal 4 h')
      ∧ doc h' = static_markup
      ∧ world h' = 0
      ∧ __parts h' = []
      ∧ calls h' = [] ++ [adoptNode_call 4; upgrade_call 4].
Proof.
  apply (empty_template_clones_only mark ∅ true no_parts processor () None
           0 4 (fresh static_markup)); vm_compute; reflexivity.
Defined.


(** Why C1, as amended, asks for a counter that is not below zero.  The
    instance that replaces [<ce-widget ...>] is named [ce-widget] too: it is
    resolved again when the second attribute descriptor is bound, the
    counter drops from 1 to -1, and the loop ends with the third descriptor
    unbound. *)
Example counter_below_zero_leaves_a_descriptor_unbound :
  ∃ f',
    loop mark ∅ three_attribute_holes single_part_processor ()
      (Some declares_self_named) 2
      (entry three_attribute_holes 3 (fresh lone_widget))
    = Some (Normal () f')
    ∧ customElementsCount f' = (-1)%Z
    ∧ partIndex f' = 2
    ∧ __parts (heap f') = [Some 0; Some 1]
    ∧ length (Template.parts three_attribute_holes) = 3.
Proof. eexists. split; [vm_compute; reflexivity|]. by split_and!. Qed.

(** The traversal enters and leaves a nested template: the four node
    descriptors are bound, in order, at the comments 2, 6, 7 and 10, whose
    previous siblings are none, none, the span 5 and the comment 9. *)
Example nested_template_binds_in_order :
  ∃ h',
    _clone mark ∅ false four_node_parts processor () None 4 0 (fresh nested)
    = Some (Normal 0 h')
    ∧ __parts h' = [Some 0; Some 1; Some 2; Some 3]
    ∧ omap (λ c, match c with
                 | insertAfterNode_call p ref => Some (p, ref)
                 | _ => None
                 end) (calls h')
      = [(0%nat, None); (1%nat, None); (2%nat, Some 5%nat);
         (3%nat, Some 9%nat)].
Proof. eexists. split; [vm_compute; reflexivity|]. by split_and!. Qed.

(** The protocol on a parts array with a hole: the values are indexed by
    position, holes counted, and both stage calls come before both commit
    calls. *)
Example update_on_holed_parts :
  calls (final (update [JsNumber 1; JsNumber 2; JsNumber 3] holed))
  = [setValue_call 7 (JsNumber 1); setValue_call 9 (JsNumber 3);
     commit_call 7; commit_call 9]
  ∧ calls (final (updateWithoutCommit [JsNumber 1; JsNumber 2] holed))
    = [setValue_call 7 (JsNumber 1); setValue_call 9 undefined].
Proof. split; vm_compute; reflexivity. Qed.

End Examples.

(** * Further properties *)

(** ** Edges of the update protocol *)

Section UpdateEdges.
Context {Part World : Type} `{!PartOps Part World}.
Implicit Types (h : Heap Part World) (parts : list (option Part))
  (values : list JsValue).

(** The staging loop reads [values] through [values[i]] only, for the
    positions [i] of the parts. *)
Lemma stage_loop_ext values values' parts : ∀ i h,
  (∀ k, (k < length parts)%nat →
        array_get values (i + k) = array_get values' (i + k)) →
  for_of i parts (stage_body values) h = for_of i parts (stage_body values') h.
Proof.
  induction parts as [|part rest IH]; intros i h Hv; [done|].
  rewrite !for_of_cons.
  assert (Hhead : stage_body values i part h = stage_body values' i part h).
  { destruct part as [p|]; [|done].
    unfold stage_body, each_part, stage_call.
    specialize (Hv O). rewrite Nat.add_0_r in Hv. rewrite Hv; [done|].
    simpl. lia. }
  rewrite Hhead. destruct (stage_body values' i part h) as [[] h1|e h1]; [|done].
  apply IH. intros k Hk. specialize (Hv (S k)).
  rewrite Nat.add_succ_r in Hv. apply Hv. simpl. lia.
Qed.

Lemma update_ext values values' h :
  (∀ k, (k < length (__parts h))%nat →
        array_get values k = array_get values' k) →
  updateWithoutCommit values h = updateWithoutCommit values' h
  ∧ update values h = update values' h.
Proof.
  intros Hv. rewrite !updateWithoutCommit_unfold, !update_unfold.
  by rewrite (stage_loop_ext values values' (__parts h) 0 h Hv).
Qed.

Lemma array_get_padded values n k :
  array_get (values ++ replicate n undefined) k = array_get values k.
Proof.
  unfold array_get. destruct (decide (k < length values)%nat) as [Hlt|Hge].
  - by rewrite lookup_app_l.
  - rewrite lookup_app_r by lia. rewrite (lookup_ge_None_2 values) by lia.
    destruct (replicate n undefined !! (k - length values)%nat) as [v|] eqn:Hr;
      [|done].
    apply lookup_replicate in Hr as [-> _]. done.
Qed.

(** X1.  A value that is missing is [undefined]: padding the values with
    [undefined] changes nothing. *)
Theorem missing_values_are_undefined values n h :
  updateWithoutCommit (values ++ replicate n undefined) h
  = updateWithoutCommit values h
  ∧ update (values ++ replicate n undefined) h = update values h.
Proof. apply update_ext. intros k _. apply array_get_padded. Qed.

(** X2.  Values past the last part are never read. *)
Theorem values_past_the_parts_are_not_read values h :
  updateWithoutCommit (take (length (__parts h)) values) h
  = updateWithoutCommit values h
  ∧ update (take (length (__parts h)) values) h = update values h.
Proof.
  apply update_ext. intros k Hk. unfold array_get. by rewrite lookup_take_lt.
Qed.

Lemma holes_loop {St} (body : nat → option Part → M St unit) parts :
  Forall (λ part, part = None) parts →
  (∀ i, body i None = skip) →
  ∀ i s, for_of i parts body s = Normal tt s.
Proof.
  intros Hholes Hbody. induction Hholes as [|part rest -> _ IH]; intros i s.
  - done.
  - rewrite for_of_cons, Hbody. apply IH.
Qed.

(** X3.  Holes are passed over: on a parts array without a part (empty, as
    before [_clone], or all holes) both methods return at once, with no call
    made and nothing changed. *)
Theorem update_of_holes_is_silent values h :
  Forall (λ part, part = None) (__parts h) →
  updateWithoutCommit values h = Normal (__parts h) h
  ∧ update values h = Normal tt h.
Proof.
  intros Hholes. rewrite updateWithoutCommit_unfold, update_unfold.
  rewrite (holes_loop (stage_body values) (__parts h) Hholes) by done.
  split; [done|]. by apply holes_loop.
Qed.

(** X4.  A [setValue] that throws ends [update] there: the exception and the
    state are those of [updateWithoutCommit], the calls made are stage calls
    of an initial segment of the parts, and nothing is committed. *)
Theorem update_aborts_before_commit values h e h' :
  updateWithoutCommit values h = Abrupt e h' →
  update values h = Abrupt e h'
  ∧ ∃ n, calls h' = calls h ++ take n (staged_calls values (__parts h))
         ∧ Forall (λ c, ¬ is_commit_call c)
             (take n (staged_calls values (__parts h))).
Proof.
  rewrite updateWithoutCommit_unfold, update_unfold.
  destruct (each_part_loop (stage_call values)
              (λ i p, setValue p (array_get values i)) (__parts h) 0 h)
    as (_ & _ & [n Hn] & _).
  rewrite <- staged_calls_from in Hn. fold (stage_body values) in Hn.
  destruct (for_of 0 (__parts h) (stage_body values) h) as [[] h1|e1 h1];
    [discriminate|].
  intros [= -> ->]. split; [done|]. exists n. split; [done|].
  apply Forall_take. eapply Forall_impl; [apply staged_calls_setValue|].
  intros ? (p & v & ->) (q & Hq). discriminate.
Qed.


End UpdateEdges.

(** ** The walker *)

Section Walker.
Context {Part World : Type}.
Implicit Types (h : Heap Part World) (f : Frame Part World).





End Walker.

(** ** The inner loop *)

Section Traversal.
Context {Part World RenderOptions : Type} `{!PartOps Part World}.
Variable mark : string.
Variable customElements : gmap string Ctor.
Variable isCEPolyfill : bool.
Variable template : Template.t.
Variable processor : TemplateProcessor Part World RenderOptions.
Variable options : RenderOptions.
Variable context : option Context.
Implicit Types (h : Heap Part World) (f : Frame Part World).

(** X7.  The inner loop, lines 144-158.  When it ends, [nodeIndex] is
    [part.index], or what it was if that was more; the heap, [partIndex] and
    the slot counter are untouched; and with [part.index] not ahead of
    [nodeIndex] (parts that share a node) nothing moves at all. *)
Theorem seek_reaches_index p f f' :
  seek (Some p) f = Normal tt f' →
  nodeIndex f' = Z.max (nodeIndex f) (TemplatePart.index p)
  ∧ heap f' = heap f
  ∧ partIndex f' = partIndex f
  ∧ customElementsCount f' = customElementsCount f
  ∧ ((TemplatePart.index p ≤ nodeIndex f)%Z → f' = f).
Proof.
  intros Hseek.
  pose proof (local_only_seek (Part := Part) (World := World) (Some p) f)
    as Hlocal.
  rewrite Hseek in Hlocal. simpl in Hlocal. destruct Hlocal as (Hh & Hi & Hc).
  revert Hseek. unfold seek. rewrite bind_unfold.
  destruct (advance p f) as [[] f1|e f1] eqn:Hadv; [|discriminate].
  exec. intros [= <-]. split_and!; try done.
  - by apply advance_reaches_index.
  - intros Hle. revert Hadv. unfold advance. exec.
    replace (Z.to_nat (TemplatePart.index p - nodeIndex f)) with O by lia.
    simpl. exec. by intros [= <-].
Qed.

(** X8.  Running out of nodes.  In a round whose active descriptor is still
    ahead of [nodeIndex], when the walker finds no further node and no
    template is on the stack, the loop ends with a [TypeError] (from
    [node.nodeName] on null if there was no node at hand, else from the
    assignment of an empty stack's top to [walker.currentNode]).  Nothing
    has been bound: the heap is as it was. *)
Theorem seek_past_the_end_throws p f fuel :
  Template.parts template !! partIndex f = Some p →
  isTemplatePartActive p = true →
  (0 ≤ customElementsCount f)%Z →
  (nodeIndex f < TemplatePart.index p)%Z →
  stack f = [] →
  (Dom.nextNode (doc (heap f)) (walker f)).1 = None →
  (∀ n, node f = Some n → Dom.nodeName (doc (heap f)) n ≠ "TEMPLATE") →
  ∃ message f',
    loop mark customElements template processor options context (S fuel) f
    = Some (Abrupt (TypeError message) f')
    ∧ heap f' = heap f
    ∧ partIndex f' = partIndex f.
Proof.
  intros Hp Hact Hc Hlt Hstack Hnext Hname.
  assert (Hcond : loop_condition template f = true).
  { unfold loop_condition. apply Z.ltb_lt.
    apply lookup_lt_Some in Hp. lia. }
  assert (Hw : Dom.nextNode (doc (heap f)) (walker f) = (None, walker f)).
  { unfold Dom.nextNode in *. by destruct (Dom.search _ _ _ _ _). }
  simpl. rewrite Hcond. unfold loop_body. exec. rewrite Hp. unfold skipped.
  rewrite Hact. cbn [negb]. exec. unfold seek. rewrite bind_unfold.
  unfold advance at 1. exec.
  destruct (Z.to_nat (TemplatePart.index p - nodeIndex f)) as [|k] eqn:Hk;
    [lia|].
  rewrite iterate_succ. unfold advance_step at 1. exec.
  unfold step_walker at 1. exec. fields.
  destruct (node f) as [n|] eqn:Hn.
  - exec. fields. specialize (Hname n eq_refl).
    apply String.eqb_neq in Hname. rewrite Hname. exec.
    unfold assign_nextNode at 1. fields. rewrite Hw. exec. fields.
    rewrite bind_unfold. fields. rewrite Hstack. exec. by eexists _, _.
  - exec. by eexists _, _.
Qed.

End Traversal.

(** ** The template stack *)

Section Labels.
Import Dom.
Implicit Types (d : Document) (n m : Node).
Local Open Scope nat_scope.

Lemma labels_kept_refl d : labels_kept d d.
Proof. intros n nd Hn. by exists nd. Qed.

Lemma labels_kept_trans d1 d2 d3 :
  labels_kept d1 d2 → labels_kept d2 d3 → labels_kept d1 d3.
Proof.
  intros H12 H23 n nd Hn.
  destruct (H12 n nd Hn) as (nd2 & Hn2 & Hk2 & Hl2).
  destruct (H23 n nd2 Hn2) as (nd3 & Hn3 & Hk3 & Hl3).
  exists nd3. split_and!; [done | congruence | congruence].
Qed.

Lemma labels_kept_alter g i d :
  (∀ nd, kind (g nd) = kind nd ∧ localName (g nd) = localName nd) →
  labels_kept d (alter g i d).
Proof.
  intros Hg n nd Hn. destruct (decide (i = n)) as [->|Hne].
  - exists (g nd). rewrite list_lookup_alter_eq, Hn. split; [done | apply Hg].
  - exists nd. by rewrite list_lookup_alter_ne.
Qed.

Lemma labels_kept_app d x : labels_kept d (d ++ [x]).
Proof.
  intros n nd Hn. exists nd. split; [|done].
  rewrite lookup_app_l; [done|]. by eapply lookup_lt_Some.
Qed.

Lemma labels_kept_setParent n p d : labels_kept d (setParent n p d).
Proof. by apply labels_kept_alter. Qed.

Lemma labels_kept_setChildren n cs d : labels_kept d (setChildren n cs d).
Proof. by apply labels_kept_alter. Qed.

Lemma labels_kept_setAttributes n attrs d :
  labels_kept d (setAttributes n attrs d).
Proof. by apply labels_kept_alter. Qed.

Lemma labels_kept_detach n d : labels_kept d (detach n d).
Proof.
  unfold detach. destruct (parentOf d n); [|apply labels_kept_refl].
  eapply labels_kept_trans;
    [apply labels_kept_setChildren | apply labels_kept_setParent].
Qed.

Lemma labels_kept_replaceChild parent new old d d' :
  replaceChild parent new old d = Ok d' → labels_kept d d'.
Proof.
  unfold replaceChild. destruct (decide _); [|discriminate].
  intros [= <-].
  eapply labels_kept_trans; [apply labels_kept_detach|].
  eapply labels_kept_trans; [apply labels_kept_setChildren|].
  eapply labels_kept_trans;
    [apply labels_kept_setParent | apply labels_kept_setParent].
Qed.

Lemma labels_kept_set_textContent n s d :
  labels_kept d (set_textContent n s d).
Proof.
  unfold set_textContent.
  set (d1 := foldr (λ c acc, setParent c None acc) d (childrenOf d n)).
  assert (H1 : labels_kept d d1).
  { subst d1. induction (childrenOf d n) as [|c l IH]; simpl;
      [apply labels_kept_refl|].
    eapply labels_kept_trans; [exact IH | apply labels_kept_setParent]. }
  destruct (decide (s = "")).
  - eapply labels_kept_trans; [exact H1 | apply labels_kept_setChildren].
  - simpl. eapply labels_kept_trans; [exact H1|].
    eapply labels_kept_trans; [apply labels_kept_app|].
    eapply labels_kept_trans;
      [apply labels_kept_setChildren | apply labels_kept_setParent].
Qed.

Lemma labels_kept_moveAttributes fuel : ∀ i old inst d d',
  moveAttributes fuel i old inst d = Ok d' → labels_kept d d'.
Proof.
  induction fuel as [|fuel IH]; intros i old inst d d'; simpl.
  - intros [= <-]. apply labels_kept_refl.
  - destruct (attributesOf d old !! i) as [attr|];
      [|intros [= <-]; apply labels_kept_refl].
    unfold removeAttributeNode. destruct (existsb _ _); [|discriminate].
    simpl. intros Hm. apply IH in Hm.
    eapply labels_kept_trans; [apply labels_kept_setAttributes|].
    eapply labels_kept_trans; [|exact Hm].
    unfold setAttributeNode.
    destruct (existsb _ _); apply labels_kept_setAttributes.
Qed.

Lemma labels_kept_template d d' n :
  labels_kept d d' → nodeName d n = "TEMPLATE" → nodeName d' n = "TEMPLATE".
Proof.
  intros Hl. unfold nodeName.
  destruct (d !! n) as [nd|] eqn:Hn; [|done].
  destruct (Hl n nd Hn) as (nd' & -> & -> & ->). done.
Qed.

End Labels.

Section TemplateStack.
Context {Part World RenderOptions : Type} `{!PartOps Part World}.
Variable mark : string.
Variable customElements : gmap string Ctor.
Variable template : Template.t.
Variable processor : TemplateProcessor Part World RenderOptions.
Variable options : RenderOptions.
Variable context : option Context.
Implicit Types (h : Heap Part World) (f : Frame Part World).

Local Abbreviation frame_t := (Frame Part World).
Local Abbreviation heap_t := (Heap Part World).

Local Abbreviation quiet := (@quiet Part World _).

Lemma quiet_bind {A B} (m : M frame_t A) (k : A → M frame_t B) :
  quiet m → (∀ a, quiet (k a)) → quiet (m ≫= k).
Proof.
  intros Hm Hk f. rewrite bind_unfold. specialize (Hm f).
  destruct (m f) as [a f1|e f1]; simpl in Hm; [|done].
  destruct Hm as [Hl Hs], (Hk a f1) as [Hl' Hs'].
  split; [by eapply labels_kept_trans | congruence].
Qed.

(** A statement that changes neither the store nor the stack. *)
Lemma quiet_same {A} (m : M frame_t A) :
  (∀ f, doc (heap (final (m f))) = doc (heap f)
        ∧ stack (final (m f)) = stack f) →
  quiet m.
Proof.
  intros Hm f. destruct (Hm f) as [-> ->]. split; [|done].
  apply labels_kept_refl.
Qed.

Lemma quiet_on_heap {A} (m : M heap_t A) :
  (∀ h, labels_kept (doc h) (doc (final (m h)))) → quiet (on_heap m).
Proof.
  intros Hm f. unfold on_heap. specialize (Hm (heap f)).
  by destruct (m (heap f)).
Qed.

Lemma quiet_external {A} (c : Call Part) (run : World → result (A * World)) :
  quiet (on_heap (external c run)).
Proof.
  apply quiet_on_heap. intros h.
  destruct (external_final c run h) as (_ & -> & _). apply labels_kept_refl.
Qed.

Lemma quiet_bindPart part : quiet (bindPart processor options part).
Proof.
  unfold bindPart. destruct part as [p|]; [|by apply quiet_same].
  destruct (TemplatePart.type p).
  - apply quiet_bind; [apply quiet_external|].
    intros tp. apply quiet_bind; [by apply quiet_same|].
    intros [n|]; [|by apply quiet_same].
    apply quiet_bind; [by apply quiet_same|]. intros ref.
    apply quiet_bind; [apply quiet_external|]. intros _.
    apply quiet_bind; [|intros _; by apply quiet_same].
    apply quiet_on_heap. intros h. apply labels_kept_refl.
  - apply quiet_bind; [by apply quiet_same|]. intros n.
    apply quiet_bind; [apply quiet_external|]. intros ps.
    apply quiet_bind; [|intros _; by apply quiet_same].
    apply quiet_on_heap. intros h. apply labels_kept_refl.
Qed.

Lemma labels_kept_dom_op (op : Dom.Document → result Dom.Document) :
  (∀ d d', op d = Ok d' → labels_kept d d') →
  ∀ h, labels_kept (doc h) (doc (final (dom_op op h))).
Proof.
  intros Hop h. unfold dom_op. destruct (op (doc h)) as [d'|e] eqn:E; simpl.
  - by apply Hop.
  - apply labels_kept_refl.
Qed.

Lemma quiet_resolveCustomElement :
  quiet (resolveCustomElement mark customElements context).
Proof.
  unfold resolveCustomElement.
  apply quiet_bind; [by apply quiet_same|]. intros [|];
    [|by apply quiet_same].
  destruct context as [ctx|]; [|by apply quiet_same].
  apply quiet_bind; [by apply quiet_same|]. intros _.
  apply quiet_bind; [by apply quiet_same|]. intros old.
  apply quiet_bind; [by apply quiet_same|]. intros name.
  apply quiet_bind; [destruct (_ && _); by apply quiet_same|]. intros _.
  apply quiet_bind.
  { apply quiet_on_heap. intros h. unfold materialize, construct.
    destruct (_ !! _) as [c|]; [|apply labels_kept_refl].
    exec. fields.
    destruct (Dom.parentOf _ _) as [parent|].
    - match goal with
      | |- context [dom_op ?op ?h1] =>
          pose proof (labels_kept_dom_op op
                        (labels_kept_replaceChild _ _ _) h1) as Hr;
          destruct (dom_op op h1) as [[] h2|e h2]
      end; simpl in *;
        (eapply labels_kept_trans; [apply labels_kept_app | exact Hr]).
    - exec. simpl. apply labels_kept_app. }
  intros inst. apply quiet_bind.
  { apply quiet_on_heap. intros h. unfold transplant. exec.
    match goal with
    | |- context [dom_op ?op ?h1] =>
        assert (Hr : labels_kept (doc h1) (doc (final (dom_op op h1))))
    end.
    { apply labels_kept_dom_op. intros d d'.
      apply labels_kept_moveAttributes. }
    simpl in Hr.
    eapply labels_kept_trans; [apply labels_kept_set_textContent | exact Hr]. }
  intros _. apply quiet_bind; [by apply quiet_same|].
  intros _. by apply quiet_same.
Qed.

Lemma stack_of_templates_quiet {A} (m : M frame_t A) f :
  quiet m → stack_of_templates f → stack_of_templates (final (m f)).
Proof.
  intros Hm Hf. destruct (Hm f) as [Hl Hs]. unfold stack_of_templates.
  rewrite Hs. eapply Forall_impl; [exact Hf|].
  intros n. by apply labels_kept_template.
Qed.

Ltac templates :=
  unfold stack_of_templates in *; fields;
  try match goal with H : stack _ = _ |- _ => rewrite ?H in * end;
  repeat match goal with
         | H : Forall _ (_ :: _) |- _ => apply Forall_cons_1 in H as [? ?]
         end;
  first [done | by constructor].

(** A step of the walker pushes the node at hand when it is a template and
    pops when the walker finds nothing. *)
Lemma stack_of_templates_step_walker f :
  stack_of_templates f → stack_of_templates (final (step_walker f)).
Proof.
  intros Hf. unfold step_walker. exec.
  destruct (node f) as [n|]; [|done]. exec. fields.
  destruct (String.eqb_spec (Dom.nodeName (doc (heap f)) n) "TEMPLATE")
    as [Ht|_]; exec; fields.
  - destruct (doc (heap f) !! n ≫= Dom.content) as [c|]; [|templates].
    unfold assign_currentNode at 1. exec. fields.
    unfold assign_nextNode at 1. fields.
    destruct (Dom.nextNode _ _) as [[m|] w1];
      repeat (progress (exec; fields)); [templates|].
    unfold assign_currentNode, assign_nextNode.
    repeat (progress (exec; fields)).
    destruct (Dom.nextNode _ _) as [m2 w2]. templates.
  - unfold assign_nextNode at 1. fields.
    destruct (Dom.nextNode _ _) as [[m|] w1];
      repeat (progress (exec; fields)); [templates|].
    destruct (stack f) as [|top rest] eqn:Hs;
      repeat (progress (exec; fields)); [templates|].
    unfold assign_currentNode, assign_nextNode.
    repeat (progress (exec; fields)).
    destruct (Dom.nextNode _ _) as [m2 w2]. templates.
Qed.

Lemma stack_of_templates_seek part f :
  stack_of_templates f → stack_of_templates (final (seek part f)).
Proof.
  assert (Hnext : ∀ f1, stack_of_templates f1 →
                        stack_of_templates (final (assign_nextNode f1))).
  { intros f1 H1. unfold assign_nextNode.
    destruct (Dom.nextNode _ _) as [m w]. templates. }
  assert (Hiter : ∀ k f1, stack_of_templates f1 →
                          stack_of_templates
                            (final (iterate k advance_step f1))).
  { induction k as [|k IH]; intros f1 H1; [done|].
    rewrite iterate_succ. unfold advance_step at 1. exec.
    pose proof (stack_of_templates_step_walker
                  (set_nodeIndex (nodeIndex f1 + 1) f1) H1) as Hstep.
    destruct (step_walker _) as [[] f2|e f2]; [by apply IH | done]. }
  intros Hf. unfold seek. destruct part as [p|].
  - rewrite bind_unfold. unfold advance. exec.
    specialize (Hiter (Z.to_nat (TemplatePart.index p - nodeIndex f)) f Hf).
    by destruct (iterate _ _ f).
  - exec. by apply Hnext.
Qed.

Lemma stack_of_templates_loop_body f :
  stack_of_templates f →
  stack_of_templates
    (final (loop_body mark customElements template processor options
              context f)).
Proof.
  intros Hf. unfold loop_body. exec.
  destruct (skipped _).
  - exec. unfold on_heap. exec. templates.
  - rewrite bind_unfold.
    pose proof (stack_of_templates_seek
                  (Template.parts template !! partIndex f) f Hf) as Hs.
    destruct (seek _ f) as [[] f1|e f1]; [|done]. simpl in Hs.
    rewrite bind_unfold.
    pose proof (stack_of_templates_quiet _ f1 quiet_resolveCustomElement Hs)
      as Hr.
    destruct (resolveCustomElement _ _ _ f1) as [[] f2|e f2]; [|done].
    simpl in Hr. apply stack_of_templates_quiet; [apply quiet_bindPart|done].
Qed.

(** X9.  The stack of lines 147 and 155 holds <template> elements only:
    whenever the loop of [_clone] ends, and in every frame it goes through,
    each node on the stack is an element of the store that is named
    TEMPLATE, so that what line 155 pops is a template whose contents the
    walker had entered. *)
Theorem stack_holds_templates fragment h :
  (∀ fuel c,
     loop mark customElements template processor options context fuel
       (entry template fragment h) = Some c →
     stack_of_templates (final c))
  ∧ ∀ k f,
      rounds mark customElements template processor options context k
        (entry template fragment h) = Some f →
      stack_of_templates f.
Proof.
  assert (H0 : stack_of_templates (entry template fragment h)).
  { destruct (entry_fields template fragment h) as (_ & _ & Hs & _).
    unfold stack_of_templates. by rewrite Hs. }
  revert H0. generalize (entry template fragment h). intros f0 H0. split.
  - intros fuel. revert f0 H0.
    induction fuel as [|fuel IH]; intros f0 H0 c; simpl;
      destruct (loop_condition template f0); try discriminate;
      try (by intros [= <-]).
    pose proof (stack_of_templates_loop_body f0 H0) as Hb.
    destruct (loop_body _ _ _ _ _ _ f0) as [[] f1|e f1];
      [by apply IH | by intros [= <-]].
  - intros k. revert f0 H0.
    induction k as [|k IH]; intros f0 H0 f; simpl; [by intros [= <-]|].
    destruct (loop_condition template f0); [|discriminate].
    pose proof (stack_of_templates_loop_body f0 H0) as Hb.
    destruct (loop_body _ _ _ _ _ _ f0) as [[] f1|e f1];
      [by apply IH | discriminate].
Qed.

End TemplateStack.

(** ** How the loop ends *)

Section LoopEdges.
Context {Part World RenderOptions : Type} `{!PartOps Part World}.
Variable mark : string.
Variable customElements : gmap string Ctor.
Variable isCEPolyfill : bool.
Variable template : Template.t.
Variable processor : TemplateProcessor Part World RenderOptions.
Variable options : RenderOptions.
Variable context : option Context.
Implicit Types (h : Heap Part World) (f : Frame Part World).

Lemma loop_over_inactive k : ∀ fuel f,
  Forall (λ p, isTemplatePartActive p = false) (Template.parts template) →
  customElementsCount f = 0%Z →
  (partIndex f + k = length (Template.parts template))%nat →
  (k ≤ fuel)%nat →
  ∃ f',
    loop mark customElements template processor options context fuel f
    = Some (Normal tt f')
    ∧ __parts (heap f') = __parts (heap f) ++ replicate k None
    ∧ doc (heap f') = doc (heap f)
    ∧ world (heap f') = world (heap f)
    ∧ calls (heap f') = calls (heap f).
Proof.
  induction k as [|k IH]; intros fuel f Hin Hc Hk Hfuel.
  - exists f. rewrite app_nil_r. split; [|done].
    assert (Hcond : loop_condition template f = false).
    { unfold loop_condition. rewrite Hc. apply Z.ltb_ge. lia. }
    destruct fuel; simpl; by rewrite Hcond.
  - destruct fuel as [|fuel]; [lia|].
    assert (Hcond : loop_condition template f = true).
    { unfold loop_condition. rewrite Hc. apply Z.ltb_lt. lia. }
    destruct (lookup_lt_is_Some_2 (Template.parts template) (partIndex f))
      as [p Hp]; [lia|].
    assert (Hp' : isTemplatePartActive p = false).
    { by apply (proj1 (Forall_lookup _ _) Hin (partIndex f)). }
    simpl. rewrite Hcond. unfold loop_body. exec. rewrite Hp. unfold skipped.
    rewrite Hp'. cbn [negb]. exec. unfold on_heap. exec. fields.
    destruct (IH fuel
                (set_partIndex (S (partIndex f))
                   (set_heap (push [None] (heap f)) f)))
      as (f' & Hloop & Hparts & Hdoc & Hworld & Hcalls);
      [done | done | simpl; lia | lia |].
    exists f'. split; [exact Hloop|]. revert Hparts Hdoc Hworld Hcalls.
    fields. intros -> -> -> ->. rewrite <- app_assoc. done.
Qed.

(** X10.  A template whose descriptors are all inactive, with no match of the
    opening-tag pattern in its markup, is instantiated without a glance at
    the tree: [_clone] returns the fragment, the parts array has one more
    hole per descriptor, and neither the DOM store nor the collaborators
    have been touched (the host's [adoptNode] and [upgrade] apart). *)
Theorem inactive_template_yields_holes fuel fragment h :
  Forall (λ p, isTemplatePartActive p = false) (Template.parts template) →
  customElementOpeningTagRe_count
    (Dom.innerHTML (doc h) (Template.element template)) = O →
  (length (Template.parts template) ≤ fuel)%nat →
  ∃ h',
    _clone mark customElements isCEPolyfill template processor options
      context fuel fragment h = Some (Normal fragment h')
    ∧ __parts h'
      = __parts h ++ replicate (length (Template.parts template)) None
    ∧ doc h' = doc h
    ∧ world h' = world h
    ∧ calls h'
      = calls h ++ (if isCEPolyfill
                    then [adoptNode_call fragment; upgrade_call fragment]
                    else []).
Proof.
  intros Hin Hcount Hfuel.
  destruct (entry_fields template fragment h) as (Hh & Hi & _ & Hc).
  destruct (loop_over_inactive (length (Template.parts template)) fuel
              (entry template fragment h))
    as (f' & Hloop & Hparts & Hdoc & Hworld & Hcalls);
    [done | by rewrite Hc, Hcount | by rewrite Hi | done |].
  unfold _clone. rewrite Hloop.
  destruct (finish_fields isCEPolyfill fragment (heap f'))
    as (h' & -> & Hd & Hw & Hp & Hcs).
  exists h'. rewrite Hh in *. split_and!; congruence.
Qed.

(** X11.  When the markup of the template has no match of the opening-tag
    pattern, [_clone] ends, by returning or by throwing, within as many
    rounds as the template has descriptors. *)
Theorem clone_ends_without_hyphenated_tags fuel fragment h :
  customElementOpeningTagRe_count
    (Dom.innerHTML (doc h) (Template.element template)) = O →
  (length (Template.parts template) ≤ fuel)%nat →
  is_Some
    (_clone mark customElements isCEPolyfill template processor options
       context fuel fragment h).
Proof.
  intros Hcount Hfuel.
  destruct (entry_fields template fragment h) as (_ & Hi & _ & Hc).
  destruct (loop_ends_without_outstanding_slots mark customElements template
              processor options context fuel (entry template fragment h))
    as [c Hloop]; [rewrite Hc, Hcount; done | lia |].
  unfold _clone. rewrite Hloop. destruct c; by eexists.
Qed.

Local Abbreviation keeps_counter := (@keeps_counter Part World _).

Lemma keeps_counter_bind {A B} (m : M (Frame Part World) A)
    (k : A → M (Frame Part World) B) :
  keeps_counter m → (∀ a, keeps_counter (k a)) → keeps_counter (m ≫= k).
Proof.
  intros Hm Hk f. rewrite bind_unfold. specialize (Hm f).
  destruct (m f) as [a f1|e f1]; simpl in Hm; [|done].
  by rewrite Hk.
Qed.

Lemma keeps_counter_on_heap {A} (m : M (Heap Part World) A) :
  keeps_counter (on_heap m).
Proof. intros f. unfold on_heap. by destruct (m (heap f)). Qed.

Lemma keeps_counter_bindPart part :
  keeps_counter (bindPart processor options part).
Proof.
  unfold bindPart. destruct part as [p|]; [|done].
  destruct (TemplatePart.type p).
  - apply keeps_counter_bind; [apply keeps_counter_on_heap|].
    intros tp. apply keeps_counter_bind; [done|].
    intros [n|]; [|done].
    apply keeps_counter_bind; [done|]. intros ref.
    apply keeps_counter_bind; [apply keeps_counter_on_heap|].
    intros _. apply keeps_counter_bind;
      [apply keeps_counter_on_heap | by intros _].
  - apply keeps_counter_bind; [done|]. intros n.
    apply keeps_counter_bind; [apply keeps_counter_on_heap|].
    intros ps. apply keeps_counter_bind;
      [apply keeps_counter_on_heap | by intros _].
Qed.

(** Without a context a round leaves the slot counter alone, and takes
    [partIndex] one further exactly when there is a descriptor at hand. *)
Lemma loop_body_without_context f f' :
  context = None →
  loop_body mark customElements template processor options context f
    = Normal tt f' →
  customElementsCount f' = customElementsCount f
  ∧ partIndex f'
    = match Template.parts template !! partIndex f with
      | Some _ => S (partIndex f)
      | None => partIndex f
      end.
Proof.
  intros Hctx Hbody.
  assert (Hres : ∀ f1, resolveCustomElement mark customElements context f1
                       = Normal tt f1).
  { intros f1. unfold resolveCustomElement. rewrite Hctx. exec.
    by destruct (isCustomElement mark f1). }
  split.
  - revert Hbody. unfold loop_body. exec.
    destruct (skipped _).
    + exec. unfold on_heap. exec. by intros [= <-].
    + pose proof (local_only_seek (Part := Part) (World := World)
                    (Template.parts template !! partIndex f) f)
        as (_ & _ & Hs).
      rewrite bind_unfold.
      destruct (seek _ f) as [[] f1|e f1]; [|intros [=]]. simpl in Hs.
      exec. rewrite Hres.
      pose proof (keeps_counter_bindPart
                    (Template.parts template !! partIndex f) f1) as Hb.
      intros Hbind. rewrite Hbind in Hb. simpl in Hb. congruence.
  - destruct (Template.parts template !! partIndex f) as [p|] eqn:Hp.
    + by destruct (loop_body_consumes mark customElements template processor
                     options context f f' p Hp Hbody).
    + revert Hbody. unfold loop_body. exec. rewrite Hp. unfold skipped.
      pose proof (local_only_seek (Part := Part) (World := World) None f)
        as (_ & Hs & _).
      rewrite bind_unfold.
      destruct (seek None f) as [[] f1|e f1]; [|intros [=]]. simpl in Hs.
      exec. rewrite Hres. simpl. by intros [= <-].
Qed.

Lemma loop_without_context_goes_on fuel : ∀ f,
  context = None →
  (0 < customElementsCount f)%Z →
  (partIndex f ≤ length (Template.parts template))%nat →
  loop mark customElements template processor options context fuel f = None
  ∨ ∃ e f',
      loop mark customElements template processor options context fuel f
      = Some (Abrupt e f').
Proof.
  induction fuel as [|fuel IH]; intros f Hctx Hc Hi.
  - left. simpl.
    assert (Hcond : loop_condition template f = true)
      by (unfold loop_condition; apply Z.ltb_lt; lia).
    by rewrite Hcond.
  - simpl.
    assert (Hcond : loop_condition template f = true)
      by (unfold loop_condition; apply Z.ltb_lt; lia).
    rewrite Hcond.
    destruct (loop_body _ _ _ _ _ _ f) as [[] f1|e f1] eqn:Hb;
      [|right; by eexists _, _].
    destruct (loop_body_without_context f f1 Hctx Hb) as [Hc1 Hi1].
    apply IH; [done | lia |].
    destruct (Template.parts template !! partIndex f) as [p|] eqn:Hp;
      [|lia].
    apply lookup_lt_Some in Hp. lia.
Qed.

(** X12.  Without a context no slot is ever resolved, so the slot counter
    never comes down: when the markup of the template has a match of the
    opening-tag pattern, [_clone] does not return, however many rounds it
    is given; it runs on, or it throws. *)
Theorem hyphenated_tag_without_context_never_returns fuel fragment h :
  context = None →
  customElementOpeningTagRe_count
    (Dom.innerHTML (doc h) (Template.element template)) ≠ O →
  _clone mark customElements isCEPolyfill template processor options context
    fuel fragment h = None
  ∨ ∃ e h',
      _clone mark customElements isCEPolyfill template processor options
        context fuel fragment h = Some (Abrupt e h').
Proof.
  intros Hctx Hcount.
  destruct (entry_fields template fragment h) as (_ & Hi & _ & Hc).
  unfold _clone.
  destruct (loop_without_context_goes_on fuel (entry template fragment h))
    as [-> | (e & f' & ->)]; [done | lia | lia | by left |].
  right. by eexists _, _.
Qed.

End LoopEdges.

(** ** The calls of [_clone] *)

Section HeapDiscipline.
Context {Part World RenderOptions : Type} `{!PartOps Part World}.
Variable mark : string.
Variable customElements : gmap string Ctor.
Variable isCEPolyfill : bool.
Variable template : Template.t.
Variable processor : TemplateProcessor Part World RenderOptions.
Variable options : RenderOptions.
Variable context : option Context.

Local Abbreviation heap_t := (Heap Part World).
Local Abbreviation frame_t := (Frame Part World).
Implicit Types (h : Heap Part World) (f : Frame Part World)
  (R : relation (Heap Part World)).

#[local] Instance calls_grow_preorder (Q : Call Part → Prop) :
  PreOrder (calls_grow (Part := Part) (World := World) Q).
Proof.
  split.
  - intros h. exists []. by rewrite app_nil_r.
  - intros h1 h2 h3 (m1 & H1 & Q1) (m2 & H2 & Q2). exists (m1 ++ m2).
    split; [by rewrite H2, H1, app_assoc | by apply Forall_app].
Qed.

#[local] Instance parts_grow_preorder :
  PreOrder (parts_grow (Part := Part) (World := World)).
Proof.
  split.
  - intros h. exists []. by rewrite app_nil_r.
  - intros h1 h2 h3 (a1 & H1) (a2 & H2). exists (a1 ++ a2).
    by rewrite H2, H1, app_assoc.
Qed.

#[local] Instance tree_kept_preorder :
  PreOrder (tree_kept (Part := Part) (World := World)).
Proof.
  split.
  - intros h. split; [done | reflexivity].
  - intros h1 h2 h3 [D1 C1] [D2 C2]. split; [congruence | by etrans].
Qed.

Lemma steps_bind R `{!PreOrder R} {A B} (m : M frame_t A)
    (k : A → M frame_t B) :
  steps R m → (∀ a, steps R (k a)) → steps R (m ≫= k).
Proof.
  intros Hm Hk f. rewrite bind_unfold. specialize (Hm f).
  destruct (m f) as [a f1|e f1]; simpl in Hm; [|done].
  etrans; [exact Hm | apply Hk].
Qed.

Lemma heap_steps_bind R `{!PreOrder R} {A B} (m : M heap_t A)
    (k : A → M heap_t B) :
  heap_steps R m → (∀ a, heap_steps R (k a)) → heap_steps R (m ≫= k).
Proof.
  intros Hm Hk h. rewrite bind_unfold. specialize (Hm h).
  destruct (m h) as [a h1|e h1]; simpl in Hm; [|done].
  etrans; [exact Hm | apply Hk].
Qed.

(** A statement that leaves the heap alone. *)
Lemma steps_same R `{!PreOrder R} {A} (m : M frame_t A) :
  (∀ f, heap (final (m f)) = heap f) → steps R m.
Proof. intros Hm f. by rewrite Hm. Qed.

Lemma steps_on_heap R {A} (m : M heap_t A) :
  heap_steps R m → steps R (on_heap m).
Proof.
  intros Hm f. unfold on_heap. specialize (Hm (heap f)).
  by destruct (m (heap f)).
Qed.

Lemma steps_seek R `{!PreOrder R} part : steps R (seek part).
Proof.
  apply (steps_same R). intros f.
  by destruct (local_only_seek (Part := Part) (World := World) part f).
Qed.

Section Relation.
Variable R : relation (Heap Part World).
Context `{!PreOrder R}.
Hypothesis R_external : ∀ A (c : Call Part) (run : World → result (A * World)),
  is_handler_call c → heap_steps R (external c run).
Hypothesis R_push : ∀ ps h, R h (push ps h).

Lemma bindPart_steps part : steps R (bindPart processor options part).
Proof.
  destruct part as [p|]; [|by apply (steps_same R)]. unfold bindPart.
  destruct (TemplatePart.type p).
  - apply (steps_bind R); [by apply steps_on_heap, R_external|].
    intros tp. apply (steps_bind R); [by apply (steps_same R)|].
    intros [n|]; [|by apply (steps_same R)].
    apply (steps_bind R); [by apply (steps_same R)|]. intros ref.
    apply (steps_bind R); [by apply steps_on_heap, R_external|].
    intros _. apply (steps_bind R); [| intros _; by apply (steps_same R)].
    apply steps_on_heap. intros h. apply R_push.
  - apply (steps_bind R); [by apply (steps_same R)|]. intros n.
    apply (steps_bind R); [by apply steps_on_heap, R_external|].
    intros ps. apply (steps_bind R); [| intros _; by apply (steps_same R)].
    apply steps_on_heap. intros h. apply R_push.
Qed.

(** What the rounds of the loop do to the heap, given what resolving a
    component slot does to heaps that satisfy [Inv]. *)
Variable Inv : Heap Part World → Prop.
Hypothesis Inv_kept : ∀ h h', R h h' → Inv h → Inv h'.
Hypothesis R_resolve : ∀ f,
  Inv (heap f) →
  R (heap f) (heap (final (resolveCustomElement mark customElements context f))).

Lemma loop_body_steps f :
  Inv (heap f) →
  R (heap f)
    (heap (final (loop_body mark customElements template processor options
                    context f))).
Proof.
  intros Hinv. unfold loop_body. exec.
  destruct (skipped _).
  - exec. unfold on_heap. exec. fields. apply R_push.
  - rewrite bind_unfold.
    pose proof (local_only_seek (Part := Part) (World := World)
                  (Template.parts template !! partIndex f) f) as (Hs & _).
    destruct (seek _ f) as [[] f1|e f1]; simpl in Hs; [|simpl; by rewrite Hs].
    rewrite bind_unfold. pose proof (R_resolve f1) as Hr. rewrite Hs in Hr.
    specialize (Hr Hinv).
    destruct (resolveCustomElement _ _ _ f1) as [[] f2|e f2]; simpl in Hr;
      [|done].
    etrans; [exact Hr|]. apply bindPart_steps.
Qed.

Lemma loop_steps fuel : ∀ f c,
  Inv (heap f) →
  loop mark customElements template processor options context fuel f
    = Some c →
  R (heap f) (heap (final c)).
Proof.
  induction fuel as [|fuel IH]; intros f c Hinv; simpl;
    destruct (loop_condition template f); try discriminate;
    try (intros [= <-]; simpl; reflexivity).
  pose proof (loop_body_steps f Hinv) as Hb.
  destruct (loop_body _ _ _ _ _ _ f) as [[] f1|e f1]; simpl in Hb.
  - intros Hl. etrans; [exact Hb|]. apply IH; [|done]. by eapply Inv_kept.
  - by intros [= <-].
Qed.
End Relation.


Lemma resolve_steps R `{!PreOrder R} :
  (∀ selector ctor h, R h (log (new_call selector ctor) h)) →
  (∀ d h, R h (set_doc d h)) →
  steps R (resolveCustomElement mark customElements context).
Proof.
  intros Hnew Hdoc.
  assert (Hop : ∀ op, heap_steps R (dom_op op)).
  { intros op h. unfold dom_op. destruct (op (doc h)); simpl; [apply Hdoc|done]. }
  unfold resolveCustomElement.
  apply (steps_bind R); [by apply (steps_same R)|]. intros [|];
    [|by apply (steps_same R)].
  destruct context as [ctx|]; [|by apply (steps_same R)].
  apply (steps_bind R); [by apply (steps_same R)|]. intros _.
  apply (steps_bind R); [by apply (steps_same R)|]. intros old.
  apply (steps_bind R); [by apply (steps_same R)|]. intros name.
  apply (steps_bind R);
    [destruct (_ && _); by apply (steps_same R)|]. intros _.
  apply (steps_bind R).
  { apply steps_on_heap. unfold materialize.
    apply (heap_steps_bind R).
    - intros h. unfold construct. destruct (_ !! _) as [c|]; simpl; [|done].
      etrans; [apply Hnew | apply Hdoc].
    - intros inst. apply (heap_steps_bind R); [by intros h|]. intros d.
      apply (heap_steps_bind R); [|by intros _ h].
      destruct (Dom.parentOf _ _); [apply Hop | by intros h]. }
  intros inst. apply (steps_bind R).
  { apply steps_on_heap. unfold transplant.
    apply (heap_steps_bind R); [|intros _; apply Hop].
    intros h. apply Hdoc. }
  intros _. apply (steps_bind R); [by apply (steps_same R)|].
  intros _. by apply (steps_same R).
Qed.

(** Without a context, or in a tree without an element whose name includes
    the mark, no component slot is resolved. *)
Lemma resolve_nothing f :
  context = None ∨ unmarked mark (doc (heap f)) →
  resolveCustomElement mark customElements context f = Normal tt f.
Proof.
  intros Hinv. unfold resolveCustomElement. exec.
  destruct (isCustomElement mark f) eqn:Hc; [|done].
  destruct Hinv as [-> | Hun]; [done|].
  unfold isCustomElement in Hc.
  destruct (node f) as [n|]; [|done].
  destruct (doc (heap f) !! n) as [nd|] eqn:Hn; [|done].
  apply andb_prop in Hc as [Hk Hi].
  rewrite (Hun n nd Hn) in Hi; [done|].
  destruct (Dom.kind nd); try done.
Qed.

Lemma calls_grow_external Q {A} (c : Call Part)
    (run : World → result (A * World)) :
  Q c → heap_steps (calls_grow Q) (external c run).
Proof.
  intros Hc h. exists [c]. split; [apply external_final | by constructor].
Qed.

(** X13.  The calls [_clone] makes are calls of the processor's two handlers,
    [insertAfterNode] on the node parts just made and constructions of
    components, followed, only when it returns and the polyfill is in use,
    by [adoptNode] and [upgrade] of the fragment.  No value is set and
    nothing is committed.  What it returns is the fragment. *)
Theorem clone_call_discipline fuel fragment h c :
  _clone mark customElements isCEPolyfill template processor options context
    fuel fragment h = Some c →
  (∃ made,
     Forall is_binding_call made
     ∧ calls (final c)
       = calls h ++ made ++ upgrade_calls isCEPolyfill fragment c)
  ∧ ∀ n h', c = Normal n h' → n = fragment.
Proof.
  unfold _clone.
  destruct (loop _ _ _ _ _ _ fuel _) as [cl|] eqn:Hloop; [|discriminate].
  apply (loop_steps (calls_grow is_binding_call)) with (Inv := λ _, True)
    in Hloop as (made & Hmade & Hall); try done.
  - destruct (entry_fields template fragment h) as (Hh & _).
    rewrite Hh in Hmade.
    destruct cl as [[] f|e f]; simpl in Hmade; intros [= <-].
    + destruct (finish_fields isCEPolyfill fragment (heap f))
        as (h' & -> & _ & _ & _ & Hcalls).
      split; [|by intros n h'' [= <- _]].
      exists made. split; [done|]. simpl. by rewrite Hcalls, Hmade, app_assoc.
    + split; [|done]. exists made. simpl. by rewrite app_nil_r.
  - intros A c0 run Hc0. apply calls_grow_external.
    by destruct c0.
  - intros ps h0. exists []. by rewrite app_nil_r.
  - intros f _. apply (resolve_steps (calls_grow is_binding_call)).
    + intros s k h0. exists [new_call s k]. split; [done | by constructor].
    + intros d h0. exists []. by rewrite app_nil_r.
Qed.

(** X14.  [_clone] only appends to the parts array: the entries that were
    there stay where they are, whether it returns or throws. *)
Theorem clone_appends_parts fuel fragment h c :
  _clone mark customElements isCEPolyfill template processor options context
    fuel fragment h = Some c →
  ∃ added, __parts (final c) = __parts h ++ added.
Proof.
  unfold _clone.
  destruct (loop _ _ _ _ _ _ fuel _) as [cl|] eqn:Hloop; [|discriminate].
  apply (loop_steps parts_grow) with (Inv := λ _, True)
    in Hloop as (added & Hadded); try done.
  - destruct (entry_fields template fragment h) as (Hh & _).
    rewrite Hh in Hadded.
    destruct cl as [[] f|e f]; simpl in Hadded; intros [= <-].
    + destruct (finish_fields isCEPolyfill fragment (heap f))
        as (h' & -> & _ & _ & Hp & _).
      exists added. simpl. by rewrite Hp.
    + by exists added.
  - intros A c0 run _ h0. exists []. rewrite app_nil_r. apply external_final.
  - intros ps h0. by exists ps.
  - intros f _. apply (resolve_steps parts_grow).
    + intros s k h0. exists []. by rewrite app_nil_r.
    + intros d h0. exists []. by rewrite app_nil_r.
Qed.

(** X15.  Without a context, or when no element of the store has a name that
    includes the mark, [_clone] constructs nothing and leaves the DOM store
    as it is: the only calls are handler calls (and the host's, at the
    end). *)
Theorem clone_without_components_keeps_the_tree fuel fragment h c :
  context = None ∨ unmarked mark (doc h) →
  _clone mark customElements isCEPolyfill template processor options context
    fuel fragment h = Some c →
  doc (final c) = doc h
  ∧ ∃ made,
      Forall is_handler_call made
      ∧ calls (final c)
        = calls h ++ made ++ upgrade_calls isCEPolyfill fragment c.
Proof.
  intros Hinv. unfold _clone.
  destruct (loop _ _ _ _ _ _ fuel _) as [cl|] eqn:Hloop; [|discriminate].
  destruct (entry_fields template fragment h) as (Hh & _).
  apply (loop_steps tree_kept)
    with (Inv := λ h0, context = None ∨ unmarked mark (doc h0))
    in Hloop as (Hdoc & made & Hmade & Hall).
  - rewrite Hh in Hdoc, Hmade.
    destruct cl as [[] f|e f]; simpl in Hdoc, Hmade; intros [= <-].
    + destruct (finish_fields isCEPolyfill fragment (heap f))
        as (h' & -> & Hd & _ & _ & Hcalls).
      simpl. split; [congruence|]. exists made. split; [done|].
      by rewrite Hcalls, Hmade, app_assoc.
    + simpl. split; [done|]. exists made. by rewrite app_nil_r.
  - intros A c0 run Hc0 h0. split; [apply external_final|].
    by apply calls_grow_external.
  - intros ps h0. split; [done|]. exists []. by rewrite app_nil_r.
  - intros h1 h2 [Hd _] [Hn|Hu]; [by left | right; by rewrite Hd].
  - intros f Hf. rewrite (resolve_nothing f Hf). reflexivity.
  - by rewrite Hh.
Qed.

End HeapDiscipline.

(** ** Slot names *)

Section Selectors.
Variable mark : string.

Lemma append_assoc (a b c : string) : (a +:+ b) +:+ c = a +:+ b +:+ c.
Proof.
  induction a as [|x a IH]; [done|].
  change (String x ((a +:+ b) +:+ c) = String x (a +:+ b +:+ c)).
  by rewrite IH.
Qed.

Lemma prefix_append (a b : string) : String.prefix a (a +:+ b) = true.
Proof.
  induction a as [|x a IH]; [by destruct b|].
  change (String.prefix (String x a) (String x (a +:+ b)) = true).
  simpl. rewrite IH. by destruct (ascii_dec x x).
Qed.

Lemma drop_chars_append (a b : string) :
  drop_chars (String.length a) (a +:+ b) = b.
Proof.
  induction a as [|x a IH]; [by destruct b|].
  change (drop_chars (S (String.length a)) (String x (a +:+ b)) = b).
  simpl. exact IH.
Qed.

Lemma includes_prefix (s pat : string) :
  String.prefix pat s = true → includes s pat = true.
Proof. intros Hp. destruct s; cbn [includes]; by rewrite Hp. Qed.

Lemma replace_prefix (pat by_ s : string) :
  String.prefix pat s = true →
  replace pat by_ s = by_ +:+ drop_chars (String.length pat) s.
Proof. intros Hp. destruct s; cbn [replace]; by rewrite Hp. Qed.

(** X16.  The naming convention of component slots, lines 163 and 167: an
    element named [mark-name] is a component slot (its name includes the
    mark), and the selector looked up for it is [name]. *)
Theorem marked_name_selects_the_rest (name : string) :
  includes (mark +:+ "-" +:+ name) mark = true
  ∧ selector_of mark (mark +:+ "-" +:+ name) = name.
Proof.
  split; [apply includes_prefix, prefix_append|].
  unfold selector_of. rewrite <- append_assoc.
  rewrite replace_prefix by apply prefix_append.
  by rewrite drop_chars_append.
Qed.

Lemma replace_absent (pat by_ s : string) :
  includes s pat = false → replace pat by_ s = s.
Proof.
  induction s as [|c s IH]; simpl.
  - intros H. apply orb_false_elim in H as [-> _]. done.
  - intros H. apply orb_false_elim in H as [-> H]. by rewrite IH.
Qed.

(** X17.  A name that does not hold the mark followed by a hyphen is its own
    selector: nothing is replaced. *)
Theorem plain_name_is_its_selector (localName : string) :
  includes localName (mark +:+ "-") = false →
  selector_of mark localName = localName.
Proof. apply replace_absent. Qed.

End Selectors.

(** ** The instance in the tree *)

Section Links.
Import Dom.
Implicit Types (d : Document) (n m : Node).
Local Open Scope nat_scope.

Lemma parentOf_alter g i d n :
  (∀ nd, parentNode (g nd) = parentNode nd) →
  parentOf (alter g i d) n = parentOf d n.
Proof.
  intros Hg. unfold parentOf. destruct (decide (i = n)) as [->|Hne].
  - rewrite list_lookup_alter_eq. destruct (d !! n); simpl; by rewrite ?Hg.
  - by rewrite list_lookup_alter_ne.
Qed.

Lemma childrenOf_alter g i d n :
  (∀ nd, childNodes (g nd) = childNodes nd) →
  childrenOf (alter g i d) n = childrenOf d n.
Proof.
  intros Hg. unfold childrenOf. destruct (decide (i = n)) as [->|Hne].
  - rewrite list_lookup_alter_eq. destruct (d !! n); simpl; by rewrite ?Hg.
  - by rewrite list_lookup_alter_ne.
Qed.

Lemma parentOf_setParent n p d :
  n < length d → parentOf (setParent n p d) n = p.
Proof.
  intros Hn. unfold parentOf, setParent. rewrite list_lookup_alter_eq.
  by destruct (lookup_lt_is_Some_2 d n Hn) as [nd ->].
Qed.

Lemma parentOf_setParent_ne n m p d :
  n ≠ m → parentOf (setParent n p d) m = parentOf d m.
Proof. intros Hne. unfold parentOf, setParent. by rewrite list_lookup_alter_ne. Qed.

Lemma childrenOf_setChildren n cs d :
  n < length d → childrenOf (setChildren n cs d) n = cs.
Proof.
  intros Hn. unfold childrenOf, setChildren. rewrite list_lookup_alter_eq.
  by destruct (lookup_lt_is_Some_2 d n Hn) as [nd ->].
Qed.

Lemma childrenOf_setChildren_ne n m cs d :
  n ≠ m → childrenOf (setChildren n cs d) m = childrenOf d m.
Proof.
  intros Hne. unfold childrenOf, setChildren. by rewrite list_lookup_alter_ne.
Qed.

Lemma childrenOf_setParent n p d m :
  childrenOf (setParent n p d) m = childrenOf d m.
Proof. by apply childrenOf_alter. Qed.

Lemma length_setParent n p d : length (setParent n p d) = length d.
Proof. apply length_alter. Qed.

Lemma length_setChildren n cs d : length (setChildren n cs d) = length d.
Proof. apply length_alter. Qed.

(** Attribute nodes come and go without a change to the tree. *)
Lemma moveAttributes_links fuel : ∀ i old inst d d',
  moveAttributes fuel i old inst d = Ok d' →
  ∀ n, parentOf d' n = parentOf d n ∧ childrenOf d' n = childrenOf d n.
Proof.
  induction fuel as [|fuel IH]; intros i old inst d d'; simpl.
  - by intros [= <-].
  - destruct (attributesOf d old !! i) as [attr|]; [|by intros [= <-]].
    unfold removeAttributeNode. destruct (existsb _ _); [|discriminate].
    simpl. intros Hm n. destruct (IH _ _ _ _ _ Hm n) as [-> ->].
    unfold setAttributeNode, setAttributes.
    destruct (existsb _ _);
      by rewrite !parentOf_alter, !childrenOf_alter.
Qed.

(** Setting the text content of a node without children: an empty string
    changes no link at all; another string adds one Text node, at the end of
    the store, as the only child. *)
Lemma set_textContent_links inst s d :
  childrenOf d inst = [] →
  (∀ n, n < length d →
        parentOf (set_textContent inst s d) n = parentOf d n)
  ∧ (∀ n, n ≠ inst →
          childrenOf (set_textContent inst s d) n = childrenOf d n).
Proof.
  intros Hnone. unfold set_textContent. rewrite Hnone. simpl.
  destruct (decide (s = "")) as [Hs|Hs].
  - unfold setChildren. split.
    + intros n _. by apply parentOf_alter.
    + intros n Hn. unfold childrenOf. by rewrite list_lookup_alter_ne.
  - unfold setParent, setChildren. split.
    + intros n Hn. unfold parentOf.
      rewrite list_lookup_alter_ne by lia.
      destruct (decide (inst = n)) as [->|Hne].
      * rewrite list_lookup_alter_eq, lookup_app_l by done.
        by destruct (d !! n).
      * by rewrite list_lookup_alter_ne, lookup_app_l.
    + intros n Hn. rewrite childrenOf_alter by done.
      unfold childrenOf. rewrite list_lookup_alter_ne by done.
      destruct (decide (n < length d)).
      * by rewrite lookup_app_l.
      * rewrite (lookup_ge_None_2 d n) by lia.
        destruct (decide (n = length d)) as [->|].
        -- by rewrite lookup_app_r, Nat.sub_diag by lia.
        -- rewrite lookup_ge_None_2; [done|]. rewrite length_app. simpl. lia.
Qed.

End Links.

Section Replacement.
Context {Part World RenderOptions : Type} `{!PartOps Part World}.
Variable mark : string.
Variable customElements : gmap string Ctor.
Variable context : option Context.
Implicit Types (h : Heap Part World) (f : Frame Part World).
Local Open Scope nat_scope.

(** X19.  A component slot that is resolved (lines 172-174, 182-183): the
    instance is a new node of the store; among the children of the old
    node's parent it stands where the old node stood, and the old node has
    no parent any more; the traversal goes on from the instance, and the
    slot counter is one less. *)
Theorem instance_takes_the_place ctx f f' old parent :
  context = Some ctx →
  isCustomElement mark f = true →
  node f = Some old →
  Dom.parentOf (doc (heap f)) old = Some parent →
  parent ≠ old →
  parent < length (doc (heap f)) →
  resolveCustomElement mark customElements context f = Normal tt f' →
  node f' = Some (length (doc (heap f)))
  ∧ Dom.currentNode (walker f') = length (doc (heap f))
  ∧ customElementsCount f' = (customElementsCount f - 1)%Z
  ∧ Dom.childrenOf (doc (heap f')) parent
    = Dom.substitute old (length (doc (heap f)))
        (Dom.childrenOf (doc (heap f)) parent)
  ∧ Dom.parentOf (doc (heap f')) (length (doc (heap f))) = Some parent
  ∧ Dom.parentOf (doc (heap f')) old = None.
Proof.
  intros Hctx Hc Hold Hparent Hpo Hpl.
  assert (Holdlt : old < length (doc (heap f))).
  { unfold isCustomElement in Hc. rewrite Hold in Hc.
    destruct (doc (heap f) !! old) eqn:E; [|done]. by eapply lookup_lt_Some. }
  rewrite (resolveCustomElement_unfold mark customElements context ctx f
             Hctx Hc).
  cbv zeta. destruct (bool_decide _ && bool_decide _); [discriminate|].
  rewrite Hold. simpl default.
  destruct (materialize _ _ old (heap f)) as [inst h1|e h1] eqn:Hm;
    [|discriminate].
  destruct (transplant old inst h1) as [[] h2|e h2] eqn:Ht; [|discriminate].
  intros [= <-]. fields.
  set (d0 := doc (heap f)) in *.
  (* the store after [replaceChild] *)
  assert (Hh1 : inst = length d0
                ∧ Dom.childrenOf (doc h1) parent
                  = Dom.substitute old inst (Dom.childrenOf d0 parent)
                ∧ Dom.parentOf (doc h1) inst = Some parent
                ∧ Dom.parentOf (doc h1) old = None
                ∧ Dom.childrenOf (doc h1) inst = []
                ∧ length d0 < length (doc h1)).
  { revert Hm. unfold materialize, construct.
    destruct (declarations ctx !! _) as [c|]; [|discriminate].
    exec. fields. fold d0.
    set (d1 := d0 ++ [Dom.mkElement (ctor_localName c) (ctor_attributes c)]).
    assert (Hp1 : Dom.parentOf d1 old = Some parent).
    { unfold Dom.parentOf. subst d1. by rewrite lookup_app_l. }
    assert (Hi1 : d1 !! length d0
                  = Some (Dom.mkElement (ctor_localName c)
                            (ctor_attributes c))).
    { subst d1. by rewrite lookup_app_r, Nat.sub_diag by lia. }
    assert (Hl1 : length d1 = S (length d0)).
    { subst d1. rewrite length_app. simpl. lia. }
    rewrite Hp1. unfold dom_op, Dom.replaceChild. fields.
    rewrite decide_True by done.
    assert (Hdetach : Dom.detach (length d0) d1 = d1).
    { unfold Dom.detach, Dom.parentOf. by rewrite Hi1. }
    rewrite Hdetach. exec. intros [= <- <-]. fields.
    split_and!.
    - done.
    - rewrite !childrenOf_setParent, childrenOf_setChildren by lia.
      f_equal. unfold Dom.childrenOf. subst d1. by rewrite lookup_app_l.
    - apply parentOf_setParent.
      rewrite length_setParent, length_setChildren. lia.
    - rewrite parentOf_setParent_ne by lia.
      apply parentOf_setParent. rewrite length_setChildren. lia.
    - rewrite !childrenOf_setParent, childrenOf_setChildren_ne by lia.
      unfold Dom.childrenOf. by rewrite Hi1.
    - rewrite !length_setParent, length_setChildren. lia. }
  destruct Hh1 as (-> & Hch & Hpi & Hpold & Hnone & Hlen).
  apply transplant_normal in Ht as (d' & Hmv & ->). fields.
  destruct (set_textContent_links (length d0)
              (Dom.innerHTML (doc h1) old) (doc h1) Hnone) as [Hpar Hkids].
  split_and!; try done.
  - destruct (moveAttributes_links _ _ _ _ _ _ Hmv parent) as [_ ->].
    rewrite Hkids by lia. done.
  - destruct (moveAttributes_links _ _ _ _ _ _ Hmv (length d0)) as [-> _].
    rewrite Hpar by lia. done.
  - destruct (moveAttributes_links _ _ _ _ _ _ Hmv old) as [-> _].
    rewrite Hpar by lia. done.
Qed.

End Replacement.

(** ** The attribute loop, both sides *)

Section AttributeLoopBothSides.
Import Dom.
Implicit Types (d : Document) (n : Node).
Local Open Scope nat_scope.

Lemma existsb_other_names (l : list Attr) a :
  attr_name a ∉ attr_name <$> l → existsb (has_name (attr_name a)) l = false.
Proof.
  induction l as [|x l IH]; [done|]. rewrite fmap_cons.
  intros Hl. apply not_elem_of_cons in Hl as [Hx Hl]. simpl.
  rewrite (IH Hl). unfold has_name.
  destruct (String.eqb_spec (attr_name x) (attr_name a)); [congruence|done].
Qed.

Lemma length_setAttributes n attrs d :
  length (setAttributes n attrs d) = length d.
Proof. apply length_alter. Qed.

Lemma moveAttributes_both_sides fuel : ∀ kept rest old inst d,
  old ≠ inst → old < length d → inst < length d →
  attributesOf d old = kept ++ rest →
  NoDup (attr_name <$> (kept ++ rest)) →
  (∀ a, a ∈ rest → attr_name a ∉ attr_name <$> attributesOf d inst) →
  length rest ≤ fuel →
  ∃ d',
    moveAttributes fuel (length kept) old inst d = Ok d'
    ∧ attributesOf d' old = kept ++ left_behind rest
    ∧ attributesOf d' inst = attributesOf d inst ++ carried_over rest.
Proof.
  induction fuel as [|fuel IH];
    intros kept rest old inst d Hne Hold Hinst Hattrs Hnd Hclash Hfuel.
  - destruct rest; [|simpl in Hfuel; lia]. exists d. simpl.
    rewrite app_nil_r in Hattrs. rewrite !app_nil_r. done.
  - simpl. rewrite Hattrs. destruct rest as [|a rest].
    { rewrite app_nil_r, lookup_ge_None_2 by lia. exists d. simpl.
      rewrite !app_nil_r. by rewrite app_nil_r in Hattrs. }
    rewrite lookup_app_r, Nat.sub_diag by lia. simpl.
    unfold removeAttributeNode. rewrite Hattrs.
    assert (Hex : existsb (has_name (attr_name a)) (kept ++ a :: rest) = true).
    { apply existsb_exists. exists a. split; [apply in_elt|].
      unfold has_name. apply String.eqb_refl. }
    rewrite Hex. simpl. rewrite filter_other_names by done.
    set (d1 := setAttributes old (kept ++ rest) d).
    assert (Hinst1 : attributesOf d1 inst = attributesOf d inst)
      by (by apply attributesOf_setAttributes_ne).
    assert (Hfresh : existsb (has_name (attr_name a)) (attributesOf d1 inst)
                     = false).
    { rewrite Hinst1. apply existsb_other_names, Hclash. by left. }
    assert (Hl1 : length d1 = length d) by apply length_setAttributes.
    unfold setAttributeNode at 1. rewrite Hfresh, Hinst1.
    set (d2 := setAttributes inst (attributesOf d inst ++ [a]) d1).
    assert (Hl2 : length d2 = length d)
      by (subst d2; by rewrite length_setAttributes).
    assert (Hold2 : attributesOf d2 old = kept ++ rest).
    { subst d2. rewrite attributesOf_setAttributes_ne by done.
      apply attributesOf_setAttributes. lia. }
    assert (Hinst2 : attributesOf d2 inst = attributesOf d inst ++ [a]).
    { subst d2. apply attributesOf_setAttributes. lia. }
    assert (Hnames : NoDup (attr_name <$> kept)
                     ∧ (attr_name a ∉ attr_name <$> kept)
                     ∧ (attr_name a ∉ attr_name <$> rest)
                     ∧ NoDup (attr_name <$> (kept ++ rest))).
    { rewrite fmap_app in *. rewrite fmap_cons in Hnd.
      apply NoDup_app in Hnd as (Hk & Hkr & Hr).
      apply NoDup_cons in Hr as [Ha Hr]. split_and!; [done| |done|].
      - intros Hin. eapply Hkr; [done | by left].
      - apply NoDup_app. split_and!; [done| |done].
        intros x Hx Hx'. eapply Hkr; [done | by right]. }
    destruct Hnames as (_ & _ & Harest & Hnd1).
    destruct rest as [|b rest].
    + exists d2. rewrite app_nil_r in Hold2. split_and!.
      * destruct fuel as [|fuel']; simpl; [done|].
        by rewrite Hold2, lookup_ge_None_2 by lia.
      * by rewrite app_nil_r.
      * done.
    + simpl in Hfuel.
      destruct (IH (kept ++ [b]) rest old inst d2) as (d' & Hm & Ho & Hi);
        [done | lia | lia | by rewrite <- app_assoc
        | by rewrite <- app_assoc | | lia |].
      { intros x Hx. rewrite Hinst2, fmap_app. intros Hin.
        apply elem_of_app in Hin as [Hin|Hin].
        - eapply Hclash; [|exact Hin]. by do 2 right.
        - apply list_elem_of_singleton in Hin.
          apply Harest. rewrite fmap_cons. right. rewrite <- Hin.
          by apply list_elem_of_fmap_2. }
      exists d'. rewrite length_app, Nat.add_1_r in Hm.
      split_and!; [exact Hm | |].
      * by rewrite Ho, <- app_assoc.
      * by rewrite Hi, Hinst2, <- app_assoc.
Qed.

(** X20.  The attribute loop of lines 176-181, in full.  On an old node with
    distinct attribute names, none of them on the instance already, the
    loop does not throw; the instance gains the first, third, ... attribute
    of the old node, in that order after its own, and the old node keeps
    the second, fourth, ... *)
Theorem attribute_loop_moves_every_other old inst d :
  old ≠ inst → old < length d → inst < length d →
  NoDup (attr_name <$> attributesOf d old) →
  (∀ a, a ∈ attributesOf d old →
        attr_name a ∉ attr_name <$> attributesOf d inst) →
  ∃ d',
    moveAttributes (length (attributesOf d old)) 0 old inst d = Ok d'
    ∧ attributesOf d' inst
      = attributesOf d inst ++ carried_over (attributesOf d old)
    ∧ attributesOf d' old = left_behind (attributesOf d old).
Proof.
  intros Hne Hold Hinst Hnd Hclash.
  destruct (moveAttributes_both_sides (length (attributesOf d old)) []
              (attributesOf d old) old inst d) as (d' & Hm & Ho & Hi);
    try done.
  by exists d'.
Qed.

End AttributeLoopBothSides.

(** ** From descriptors to values *)

Section EndToEnd.
Context {Part World RenderOptions : Type} `{!PartOps Part World}.
Variable mark : string.
Variable customElements : gmap string Ctor.
Variable template : Template.t.
Variable processor : TemplateProcessor Part World RenderOptions.
Variable options : RenderOptions.
Variable context : option Context.
Implicit Types (h : Heap Part World) (f : Frame Part World).

Lemma staged_call_of_part (values : list JsValue)
    (parts : list (option Part)) k p :
  parts !! k = Some (Some p) →
  setValue_call p (array_get values k) ∈ staged_calls values parts.
Proof.
  intros Hk. unfold staged_calls. apply list_elem_of_omap.
  exists (Some (setValue_call p (array_get values k))). split; [|done].
  apply (list_elem_of_lookup_2 _ k). by rewrite list_lookup_imap, Hk.
Qed.

Lemma update_calls_when_normal (values : list JsValue) h :
  is_normal (update values h) →
  calls (final (update values h))
  = calls h ++ staged_calls values (__parts h) ++ commit_calls (__parts h).
Proof.
  destruct (each_part_loop (stage_call values)
              (λ i p, setValue p (array_get values i)) (__parts h) 0 h)
    as (_ & Hp & _ & Hall).
  rewrite <- staged_calls_from in Hall. fold (stage_body values) in Hp, Hall.
  rewrite update_unfold.
  destruct (for_of 0 (__parts h) (stage_body values) h) as [[] h1|e h1];
    [|done].
  simpl in Hp, Hall.
  destruct (each_part_loop (λ _ p, commit_call p) (λ _ p, commit p)
              (__parts h1) 0 h1) as (_ & _ & _ & Hc).
  rewrite <- commit_calls_from in Hc. fold commit_body in Hc.
  intros Hn. rewrite (Hc Hn), (Hall I), Hp, <- app_assoc. done.
Qed.

(** X21.  Instantiation and update together.  After a [_clone] that ends with
    the slot counter not below zero, on an instance whose attributes are
    bound to one part each, an [update] that returns has handed every
    active descriptor's part the value at the descriptor's own position:
    [values[k]] goes to the part made for descriptor [k]. *)
Theorem values_reach_their_descriptors fuel fragment h f' values k d :
  __parts h = [] →
  loop mark customElements template processor options context fuel
    (entry template fragment h) = Some (Normal tt f') →
  (0 ≤ customElementsCount f')%Z →
  one_part_per_attribute processor options →
  is_normal (update values (heap f')) →
  Template.parts template !! k = Some d →
  isTemplatePartActive d = true →
  ∃ p, __parts (heap f') !! k = Some (Some p)
       ∧ setValue_call p (array_get values k)
         ∈ calls (final (update values (heap f'))).
Proof.
  intros Hfresh Hloop Hcount Hone Hnormal Hk Hact.
  destruct (loop_aligned mark customElements template processor options
              context fuel _ _ Hloop
              (entry_aligned template processor options fragment h Hfresh))
    as ((Hle & blocks & Hblocks & Hparts) & Hcond).
  unfold loop_condition in Hcond. apply Z.ltb_ge in Hcond.
  assert (Hall : partIndex f' = length (Template.parts template)) by lia.
  rewrite Hall, firstn_all in Hblocks.
  destruct (blocks_single processor options _ _ Hone Hblocks)
    as [Hlen Hholes].
  rewrite <- Hparts in Hlen, Hholes.
  assert (Hlt : (k < length (__parts (heap f')))%nat).
  { rewrite Hlen. by eapply lookup_lt_Some. }
  destruct (lookup_lt_is_Some_2 _ _ Hlt) as [[p|] Hp].
  - exists p. split; [done|].
    rewrite (update_calls_when_normal values (heap f') Hnormal).
    apply elem_of_app. right. apply elem_of_app. left.
    by apply staged_call_of_part.
  - apply Hholes in Hp as (d' & Hd' & Hin). congruence.
Qed.

End EndToEnd.

(** ** The patterns of the utilities file *)

Section Patterns.
Local Open Scope nat_scope.

Lemma span_all_in p s : all_in p (span p s).1 s.
Proof.
  induction s as [|c s IH]; simpl; [done|].
  destruct (p c) eqn:Hc; [|done].
  destruct (span p s) as [n r]. simpl in *. done.
Qed.

Lemma span_rest p s : drop_chars (span p s).1 s = (span p s).2.
Proof.
  induction s as [|c s IH]; simpl; [done|].
  destruct (p c) eqn:Hc; [|done].
  destruct (span p s) as [n r]. simpl in *. done.
Qed.

Lemma span_stops p s c r : (span p s).2 = String c r → p c = false.
Proof.
  induction s as [|a s IH]; simpl; [done|].
  destruct (p a) eqn:Ha.
  - destruct (span p s) as [n r']. simpl in *. done.
  - simpl. by intros [= <- _].
Qed.

Lemma all_in_weaken (p q : ascii → bool) k s :
  (∀ c, p c = true → q c = true) → all_in p k s → all_in q k s.
Proof.
  intros Hpq. revert s. induction k as [|k IH]; intros [|c s]; simpl; try done.
  intros [Hc Hs]. split; [by apply Hpq | by apply IH].
Qed.

Lemma all_in_app p k1 k2 s :
  all_in p k1 s → all_in p k2 (drop_chars k1 s) → all_in p (k1 + k2) s.
Proof.
  revert s. induction k1 as [|k1 IH]; intros s; simpl.
  - intros _. by destruct s.
  - destruct s as [|c s]; [done|]. intros [Hc Hs] H2. split; [done|].
    by apply IH.
Qed.

Lemma alnum_in_class c : alnum c = true → alnum_or_hyphen c = true.
Proof. unfold alnum_or_hyphen. by intros ->. Qed.

(** A match of the name consists of characters of the second class. *)
Lemma hyphenated_name_class s n :
  hyphenated_name s = Some n → (3 ≤ n) ∧ all_in alnum_or_hyphen n s.
Proof.
  unfold hyphenated_name.
  pose proof (span_all_in alnum s) as H1.
  pose proof (span_rest alnum s) as Hr1.
  destruct (span alnum s) as [[|n1] [|h s2]]; try done.
  cbn [fst snd] in H1, Hr1.
  destruct (Ascii.eqb_spec h "-") as [->|]; [|done].
  pose proof (span_all_in alnum_or_hyphen s2) as H2.
  destruct (span alnum_or_hyphen s2) as [[|n2] r2]; [done|].
  cbn [fst snd] in H2.
  assert (Hall : all_in alnum_or_hyphen (S n1 + (1 + S n2)) s).
  { apply all_in_app; [exact (all_in_weaken _ _ _ _ alnum_in_class H1)|].
    rewrite Hr1. by apply (all_in_app _ 1). }
  revert Hall. replace (S n1 + (1 + S n2)) with (S n1 + 1 + S n2) by lia.
  intros Hall [= <-]. split; [lia | exact Hall].
Qed.

Lemma hyphenated_name_after_slash s : hyphenated_name (String "/" s) = None.
Proof. reflexivity. Qed.

Lemma opening_at_exec s :
  customElementOpeningTagRe_at s = true
  ↔ is_Some (customElementOpeningTagRegex_exec s).
Proof.
  assert (Hno : false = true ↔ is_Some (@None nat))
    by (split; [done | by intros [? ?]]).
  destruct s as [|c s1]; simpl; [done|].
  destruct (Ascii.eqb c "<"); [|done].
  unfold hyphenated_name.
  destruct (span alnum s1) as [[|n1] [|h s2]]; try done.
  destruct (Ascii.eqb h "-"); simpl; [|done].
  destruct (span alnum_or_hyphen s2) as [[|n2] r2]; simpl; [done|].
  split; [by eexists | done].
Qed.

Lemma all_in_length p k s : all_in p k s → k ≤ String.length s.
Proof.
  revert s. induction k as [|k IH]; intros [|c s]; simpl; try done; try lia.
  intros [_ Hs]. apply IH in Hs. lia.
Qed.

Lemma substring_prefix n : ∀ s,
  n ≤ String.length s →
  String.length (substring 0 n s) = n
  ∧ String.prefix (substring 0 n s) s = true.
Proof.
  induction n as [|n IH]; intros [|c s]; simpl; try done; try lia.
  intros Hn. destruct (IH s) as [Hl Hp]; [lia|].
  rewrite Hl, Hp. split; [done|].
  by destruct (ascii_dec c c).
Qed.

Lemma hyphenated_name_text s n :
  hyphenated_name s = Some n →
  String.length (substring 0 n s) = n
  ∧ String.prefix (substring 0 n s) s = true.
Proof.
  intros Hn. apply hyphenated_name_class in Hn as [_ Hn].
  by apply substring_prefix, (all_in_length alnum_or_hyphen).
Qed.

(** X22.  The three patterns of the utilities file agree.  At any place, the
    pattern for both kinds of tag matches with an empty first group exactly
    when the opening-tag pattern matches, and its second group is then the
    text of that match after [<]; it matches with [/] as its first group
    wherever the closing-tag pattern matches; and no place is matched by
    the opening-tag pattern and the closing-tag pattern both. *)
Theorem patterns_agree s :
  (∀ n, customElementOpeningTagRegex_exec s = Some (S n)
        ↔ ∃ name, customElementsOpeningAndClosing_exec s = Some ("", name)
                  ∧ String.length name = n
                  ∧ String.prefix name (drop_chars 1 s) = true)
  ∧ (is_Some (customElementClosingTagRegex_exec s) →
     ∃ name, customElementsOpeningAndClosing_exec s = Some ("/", name))
  ∧ ¬ (is_Some (customElementOpeningTagRegex_exec s)
       ∧ is_Some (customElementClosingTagRegex_exec s)).
Proof.
  assert (Hopen : ∀ s1 n,
            S <$> hyphenated_name s1 = Some (S n)
            ↔ ∃ name,
                (k ← hyphenated_name s1; Some ("", substring 0 k s1))
                = Some ("", name)
                ∧ String.length name = n
                ∧ String.prefix name s1 = true).
  { intros s1 n. destruct (hyphenated_name s1) as [k|] eqn:Hk; simpl.
    - destruct (hyphenated_name_text s1 k Hk) as [Hl Hp]. split.
      + intros [= ->]. by eexists.
      + intros (name & [= <-] & Hn & _). congruence.
    - split; [done | by intros (name & ? & _)]. }
  destruct s as [|c s1].
  { split_and!; [|by intros [? ?]|by intros [[? ?] _]].
    intros n. split; [done | by intros (name & ? & _)]. }
  simpl. destruct (Ascii.eqb_spec c "<") as [->|Hc]; cycle 1.
  { split_and!.
    - intros n. split; [done | by intros (name & ? & _)].
    - destruct s1; simpl; by intros [? ?].
    - by intros [[? ?] _]. }
  cbn [andb]. destruct s1 as [|c' s2].
  { split_and!; [apply Hopen | by intros [? ?] | by intros [[? ?] _]]. }
  destruct (Ascii.eqb_spec c' "/") as [->|Hc'].
  - rewrite hyphenated_name_after_slash. simpl. split_and!.
    + intros n. split; [done|].
      intros (name & Hex & _). by destruct (hyphenated_name s2).
    + intros [m Hm]. destruct (hyphenated_name s2) as [k|]; [|done].
      by eexists.
    + by intros [[? ?] _].
  - split_and!; [apply Hopen | by intros [? ?] | by intros [_ [? ?]]].
Qed.


Lemma includes_tail c s pat : includes s pat = true → includes (String c s) pat = true.
Proof. intros Hs. simpl. rewrite Hs. apply orb_true_r. Qed.

Lemma includes_span_rest p s pat :
  includes (span p s).2 pat = true → includes s pat = true.
Proof.
  induction s as [|c s IH]; [done|]. cbn [span].
  destruct (p c); [|done].
  destruct (span p s) as [n r]. cbn [snd] in *.
  intros Hr. by apply includes_tail, IH.
Qed.

Lemma hyphenated_name_hyphen s :
  is_Some (hyphenated_name s) → includes s "-" = true.
Proof.
  unfold hyphenated_name. intros Hs.
  apply (includes_span_rest alnum).
  destruct (span alnum s) as [[|n1] [|h s2]]; try by destruct Hs.
  cbn [snd]. destruct (Ascii.eqb_spec h "-") as [->|]; [|by destruct Hs].
  cbn [includes String.prefix].
  destruct (ascii_dec "-" "-") as [_|Hne]; [by destruct s2 | by destruct Hne].
Qed.

(** X23.  The opening-tag pattern needs a hyphen: a string without one has no
    match, so that a template whose markup has no hyphen starts with a
    slot counter of zero. *)
Theorem no_hyphen_no_opening_tag s :
  includes s "-" = false → customElementOpeningTagRe_count s = 0.
Proof.
  induction s as [|c s IH]; [done|]. intros Hs.
  assert (Htail : includes s "-" = false).
  { destruct (includes s "-") eqn:E; [|done].
    by rewrite (includes_tail c s "-" E) in Hs. }
  cbn [customElementOpeningTagRe_count]. rewrite (IH Htail).
  destruct (customElementOpeningTagRe_at (String c s)) eqn:Hat; [|done].
  apply opening_at_exec in Hat. simpl in Hat.
  destruct (Ascii.eqb c "<"); [|by destruct Hat].
  apply fmap_is_Some, hyphenated_name_hyphen in Hat.
  by rewrite (includes_tail c s "-" Hat) in Hs.
Qed.

Lemma class_character_starts_no_tag c s :
  alnum_or_hyphen c = true → customElementOpeningTagRe_at (String c s) = false.
Proof.
  intros Hc. simpl. destruct (Ascii.eqb_spec c "<") as [->|]; [done|done].
Qed.

Lemma matches_count s : ∀ k,
  all_in alnum_or_hyphen k s →
  length (matches customElementOpeningTagRegex_exec k s)
  = customElementOpeningTagRe_count s.
Proof.
  induction s as [|c s IH]; intros k Hk; [done|].
  cbn [matches customElementOpeningTagRe_count].
  destruct k as [|k].
  - pose proof (opening_at_exec (String c s)) as Hat.
    destruct (customElementOpeningTagRegex_exec (String c s)) as [n|] eqn:Hex.
    + rewrite (proj2 Hat) by (by eexists). cbn [length]. f_equal.
      apply IH. simpl in Hex. destruct (Ascii.eqb c "<"); [|done].
      destruct (hyphenated_name s) as [m|] eqn:Hm; [|done].
      injection Hex as <-. replace (S m - 1) with m by lia.
      by apply hyphenated_name_class in Hm as [_ Hm].
    + destruct (customElementOpeningTagRe_at (String c s)); [|by apply IH].
      by destruct (proj1 Hat eq_refl).
  - destruct Hk as [Hc Hk].
    rewrite class_character_starts_no_tag by done. by apply IH.
Qed.

(** X24.  The slot counter at the start of [_clone],
    [innerHTML.match(pattern)?.length || 0], is the number of places where
    the opening-tag pattern matches: a match holds no [<] after its first
    character, so that no match begins inside another and the search from
    the end of each match misses none. *)
Theorem match_length_counts_places s :
  match_length customElementOpeningTagRegex_exec s
  = customElementOpeningTagRe_count s.
Proof.
  rewrite <- (matches_count s 0) by done.
  unfold match_length, String_match.
  by destruct (matches customElementOpeningTagRegex_exec 0 s).
Qed.

End Patterns.

(** ** Further concrete templates *)

Section MoreExamples.
Import Scenario.
Local Open Scope nat_scope.

(** X3, witness: an array of two holes. *)
Lemma update_of_holes_is_silent_witness :
  updateWithoutCommit [JsNumber 1] only_holes
  = Normal (__parts only_holes) only_holes
  ∧ update [JsNumber 1] only_holes = Normal () only_holes.
Proof.
  apply (update_of_holes_is_silent [JsNumber 1] only_holes).
  repeat constructor.
Defined.

(** X4, witness: the parts 7 and 9 around a hole, part 9 refusing its
    value: both stage calls are made, and no commit call. *)
Lemma update_aborts_before_commit_witness :
  calls (final (@updateWithoutCommit nat nat frozen_parts
                  [JsNumber 1; JsNumber 2; JsNumber 3] holed))
  = [setValue_call 7 (JsNumber 1); setValue_call 9 (JsNumber 3)]
  ∧ @update nat nat frozen_parts [JsNumber 1; JsNumber 2; JsNumber 3] holed
    = Abrupt (Error "frozen")
        (final (@updateWithoutCommit nat nat frozen_parts
                  [JsNumber 1; JsNumber 2; JsNumber 3] holed)).
Proof.
  split; [vm_compute; reflexivity|].
  apply (@update_aborts_before_commit nat nat frozen_parts
           [JsNumber 1; JsNumber 2; JsNumber 3] holed (Error "frozen")).
  vm_compute. reflexivity.
Defined.


(** X7, witness: from the start of [three_parts] to the node of index 2. *)
Lemma seek_reaches_index_witness :
  nodeIndex at_last_node = 2%Z
  ∧ node at_last_node = Some 8
  ∧ heap at_last_node = fresh three_parts.
Proof.
  destruct (seek_reaches_index (node_part 2)
              (entry past_the_end 5 (fresh three_parts)) at_last_node)
    as (Hi & Hh & _); [vm_compute; reflexivity|].
  split; [exact Hi|]. split; [vm_compute; reflexivity | exact Hh].
Defined.

(** X8, witness: [three_parts] has three nodes, and the descriptor asks for
    the one of index 5. *)
Lemma seek_past_the_end_throws_witness :
  ∃ message f',
    loop mark ∅ past_the_end processor () None 1 at_last_node
    = Some (Abrupt (TypeError message) f')
    ∧ heap f' = heap at_last_node
    ∧ partIndex f' = partIndex at_last_node.
Proof.
  apply (seek_past_the_end_throws mark ∅ past_the_end processor () None
           (node_part 5) at_last_node 0);
    try (vm_compute; reflexivity); try (vm_compute; discriminate).
  intros n Hn. vm_compute in Hn. injection Hn as <-. vm_compute. discriminate.
Defined.

(** X10, witness: two inactive descriptors over [<p>hello</p>]. *)
Lemma inactive_template_yields_holes_witness :
  ∃ h',
    _clone mark ∅ false two_inactive processor () None 2 4
      (fresh static_markup) = Some (Normal 4 h')
    ∧ __parts h' = [] ++ replicate 2 None
    ∧ doc h' = static_markup
    ∧ world h' = 0
    ∧ calls h' = [] ++ [].
Proof.
  apply (inactive_template_yields_holes mark ∅ false two_inactive processor
           () None 2 4 (fresh static_markup));
    [repeat constructor | vm_compute; reflexivity | simpl; lia].
Defined.

(** X11, witness: [attribute_hole_node], whose markup
    [<div><!----><!----></div>] has no hyphenated tag, with three rounds. *)
Lemma clone_ends_without_hyphenated_tags_witness :
  is_Some (_clone mark ∅ false attribute_hole_node processor () None 3 5
             (fresh three_parts)).
Proof.
  apply (clone_ends_without_hyphenated_tags mark ∅ false attribute_hole_node
           processor () None 3 5 (fresh three_parts));
    [vm_compute; reflexivity | simpl; lia].
Defined.

(** X12, witness: [<ce-widget></ce-widget>] without a context: still running
    after seven rounds. *)
Lemma hyphenated_tag_without_context_never_returns_witness :
  _clone mark ∅ false no_parts processor () None 7 3 (fresh lone_widget)
  = None
  ∨ ∃ e h',
      _clone mark ∅ false no_parts processor () None 7 3 (fresh lone_widget)
      = Some (Abrupt e h').
Proof.
  apply (hyphenated_tag_without_context_never_returns mark ∅ false no_parts
           processor () None 7 3 (fresh lone_widget));
    [reflexivity | vm_compute; discriminate].
Defined.

(** X13, witness: [dressed_widget] with the widget declared: one
    component is constructed. *)
Lemma clone_call_discipline_witness :
  calls (final dressed_widget_cloned) = [new_call "widget" Widget]
  ∧ (∃ made,
       Forall is_binding_call made
       ∧ calls (final dressed_widget_cloned)
         = calls (fresh dressed_widget) ++ made
           ++ upgrade_calls false 6 dressed_widget_cloned)
  ∧ ∀ n h', dressed_widget_cloned = Normal n h' → n = 6.
Proof.
  split; [vm_compute; reflexivity|].
  apply (clone_call_discipline mark ∅ false no_parts processor ()
           (Some declares_widget) 1 6 (fresh dressed_widget)
           dressed_widget_cloned).
  vm_compute. reflexivity.
Defined.

(** X14, witness: [attribute_hole_node] on an instance that has two
    entries already: three more are appended. *)
Lemma clone_appends_parts_witness :
  __parts (final cloned_again) = [Some 3; None; Some 5; None; Some 6]
  ∧ ∃ added, __parts (final cloned_again) = __parts used_instance ++ added.
Proof.
  split; [vm_compute; reflexivity|].
  apply (clone_appends_parts mark ∅ true attribute_hole_node processor ()
           None 3 5 used_instance cloned_again).
  vm_compute. reflexivity.
Defined.

(** X15, witness: [attribute_hole_node] without a context, the polyfill in
    use. *)
Lemma clone_without_components_keeps_the_tree_witness :
  doc (final three_parts_cloned) = doc (fresh three_parts)
  ∧ ∃ made,
      Forall is_handler_call made
      ∧ calls (final three_parts_cloned)
        = calls (fresh three_parts) ++ made
          ++ upgrade_calls true 5 three_parts_cloned.
Proof.
  apply (clone_without_components_keeps_the_tree mark ∅ true
           attribute_hole_node processor () None 3 5 (fresh three_parts)
           three_parts_cloned);
    [left; reflexivity | vm_compute; reflexivity].
Defined.

(** X17, witness: with the mark [ce], the name [nice] includes the mark
    and is looked up as it is. *)
Lemma plain_name_is_its_selector_witness :
  includes "nice" mark = true ∧ selector_of mark "nice" = "nice".
Proof.
  split; [vm_compute; reflexivity|].
  apply (plain_name_is_its_selector mark "nice"). vm_compute. reflexivity.
Defined.

(** X18, witness: the widget of [dressed_widget], known to the registry
    only. *)
Lemma registry_only_component_throws_witness :
  resolveCustomElement mark registry_with_widget (Some declares_nothing)
    at_widget
  = Abrupt (TypeError "ctor is not a constructor")
      (set_customElementsCount (customElementsCount at_widget - 1) at_widget).
Proof.
  apply (registry_only_component_throws mark registry_with_widget
           (Some declares_nothing) declares_nothing at_widget Widget);
    vm_compute; reflexivity.
Defined.

(** X19, witness: the widget of [dressed_widget] (node 8, second child of
    the fragment 6) and its instance (node 11). *)
Lemma instance_takes_the_place_witness :
  Dom.childrenOf (doc (heap widget_resolved)) 6 = [7; 11]
  ∧ node widget_resolved = Some (length (doc (heap at_widget)))
  ∧ Dom.currentNode (walker widget_resolved) = length (doc (heap at_widget))
  ∧ customElementsCount widget_resolved
    = (customElementsCount at_widget - 1)%Z
  ∧ Dom.childrenOf (doc (heap widget_resolved)) 6
    = Dom.substitute 8 (length (doc (heap at_widget)))
        (Dom.childrenOf (doc (heap at_widget)) 6)
  ∧ Dom.parentOf (doc (heap widget_resolved)) (length (doc (heap at_widget)))
    = Some 6
  ∧ Dom.parentOf (doc (heap widget_resolved)) 8 = None.
Proof.
  split; [vm_compute; reflexivity|].
  apply (instance_takes_the_place mark ∅ (Some declares_widget)
           declares_widget at_widget widget_resolved 8 6);
    try (vm_compute; reflexivity); [lia | vm_compute; lia].
Defined.

(** X20, witness: of the attributes [a], [b] and [c], the heir gets [a] and
    [c] after its own [z], and the donor keeps [b]. *)
Lemma attribute_loop_moves_every_other_witness :
  carried_over donor_attrs
  = [ {| Dom.attr_name := "a"; Dom.attr_value := "1" |};
      {| Dom.attr_name := "c"; Dom.attr_value := "3" |} ]
  ∧ Dom.left_behind donor_attrs
    = [ {| Dom.attr_name := "b"; Dom.attr_value := "2" |} ]
  ∧ ∃ d',
      moveAttributes (length (Dom.attributesOf donor_and_heir 0)) 0 0 1
        donor_and_heir = Ok d'
      ∧ Dom.attributesOf d' 1
        = Dom.attributesOf donor_and_heir 1
          ++ carried_over (Dom.attributesOf donor_and_heir 0)
      ∧ Dom.attributesOf d' 0
        = Dom.left_behind (Dom.attributesOf donor_and_heir 0).
Proof.
  split; [reflexivity|]. split; [reflexivity|].
  apply (attribute_loop_moves_every_other 0 1 donor_and_heir);
    [lia | simpl; lia | simpl; lia | |].
  - apply (bool_decide_unpack _). vm_compute. exact I.
  - apply (proj1 (Forall_forall _ _)).
    apply (bool_decide_unpack _). vm_compute. exact I.
Defined.

(** X21, witness: [attribute_hole_node] bound by [single_part_processor]: the
    third value goes to the part of the third descriptor. *)
Lemma values_reach_their_descriptors_witness :
  ∃ p, __parts (heap three_parts_bound) !! 2 = Some (Some p)
       ∧ setValue_call p (JsNumber 3)
         ∈ calls (final (update [JsNumber 1; JsNumber 2; JsNumber 3]
                           (heap three_parts_bound))).
Proof.
  apply (values_reach_their_descriptors mark ∅ attribute_hole_node
           single_part_processor () None 3 5 (fresh three_parts)
           three_parts_bound [JsNumber 1; JsNumber 2; JsNumber 3] 2
           (node_part 2));
    [reflexivity | vm_compute; reflexivity | vm_compute; discriminate
    | | vm_compute; exact I | reflexivity | reflexivity].
  intros element name strings part w ps w' [= <- _]. reflexivity.
Defined.

(** X23, witness: [<p>hello</p>]. *)
Lemma no_hyphen_no_opening_tag_witness :
  customElementOpeningTagRe_count "<p>hello</p>" = 0.
Proof.
  apply (no_hyphen_no_opening_tag "<p>hello</p>"). vm_compute. reflexivity.
Defined.

End MoreExamples.
